(** * Gauge-reading benchmark: answer extraction, scoring and the batch runner

    A shallow embedding of the Python sources under
    [method1-VLMreasoning/]:

    - [answer_parser.py]      : [AnswerParser.parse_answer]
    - [evaluate_method1.py]   : [Method1Evaluator]
    - [method1_inference.py]  : [Method1SimpleVLM.process_single]
    - [run_single_image.py]   : [main] (one item, saves the predictions file)
    - [run_full_evaluation.py]: [run_evaluation] (the batch loop)

    Conventions of the embedding.

    - A Python [str] is a [pystr], a [list ascii]; a character stands for
      the code point of the same number, so the texts covered are those
      with code points U+0000..U+00FF, and a statement about every text
      is a statement about every such text.  Beyond U+00FF the code
      differs in one respect the statements depend on: under
      [re.IGNORECASE] the class [[a-zA-Z]] and the letters [i], [s], [k]
      of a pattern also match U+0130, U+0131, U+017F and U+212A, which
      the fallback rule, compiled without the flag, does not.  [str "..."]
      turns a literal into such a list.
    - A Python [float] is the rational number it was read from: [float()]
      of a numeral is its exact decimal value, comparisons are those of
      [Q].  Rounding to binary64 is not part of the model.
    - [None] is [None]; a function that can raise returns a [result].
    - The outside world (the model client, the predictions file) is
      explicit state; every producer call and every write is logged.
    - The batch runner starts its child process through the shell.  The
      command lines covered are those of letters, digits, [_], [.], [-]
      and blanks in which no option follows the id; on any other the
      run is followed up to that child and ends with status [Outside]. *)

From Stdlib Require Import QArith Ascii String.
From stdpp Require Import gmap strings list.

Local Open Scope list_scope.

Abbreviation pystr := (list ascii).
Definition str (s : string) : pystr := list_ascii_of_string s.

(** ** Exceptions *)

Inductive exn := TypeError | ValueError.

Inductive result (A : Type) :=
| Return (a : A)
| Raise (e : exn).
Arguments Return {A} a.
Arguments Raise {A} e.

#[global] Instance result_bind : MBind result := λ A B k m,
  match m with
  | Return a => k a
  | Raise e => Raise e
  end.

(** ** Characters *)

Module Char.

Definition code (c : ascii) : N := N_of_ascii c.

Definition between (lo hi : N) (c : ascii) : bool :=
  ((lo <=? code c) && (code c <=? hi))%N.

(** [[0-9.]] *)
Definition is_numeral (c : ascii) : bool :=
  between 48 57 c || (code c =? 46)%N.

Definition is_digit (c : ascii) : bool := between 48 57 c.

(** [[a-zA-Z°/%]]; the degree sign is U+00B0. *)
Definition is_unit (c : ascii) : bool :=
  between 97 122 c || between 65 90 c
  || (code c =? 176)%N || (code c =? 47)%N || (code c =? 37)%N.

(** [\s] on [str] patterns, and the characters [str.strip()] removes:
    tab, LF, VT, FF, CR, U+001C..U+001F, space, U+0085, U+00A0. *)
Definition is_space (c : ascii) : bool :=
  between 9 13 c || between 28 32 c
  || (code c =? 133)%N || (code c =? 160)%N.

(** [str.lower()] on one character: A-Z, and the upper-case letters of
    the Latin-1 supplement (U+00C0..U+00DE without the multiplication
    sign U+00D7). *)
Definition lower (c : ascii) : ascii :=
  if between 65 90 c || between 192 214 c || between 216 222 c
  then ascii_of_N (code c + 32)
  else c.

End Char.

Definition lower (s : pystr) : pystr := Char.lower <$> s.

Fixpoint lstrip (s : pystr) : pystr :=
  match s with
  | c :: s' => if Char.is_space c then lstrip s' else s
  | [] => []
  end.

Definition rstrip (s : pystr) : pystr := reverse (lstrip (reverse s)).

Definition strip (s : pystr) : pystr := rstrip (lstrip s).

(** ** The part of [re] the parser uses

    A backtracking matcher in the style of [sre]: every construct returns
    its possible continuations in the order the engine would try them, so
    the head of the list is the match Python reports.  Repetition is
    greedy and only occurs on character classes, which is all the four
    patterns need. *)

Module Re.

Inductive regex :=
| Lit (s : pystr)                     (* literal text *)
| Chr (cls : ascii → bool)          (* one character of a class *)
| Star (cls : ascii → bool)         (* cls*, greedy *)
| Cat (r1 r2 : regex)
| Alt (r1 r2 : regex)               (* r1|r2 *)
| Opt (r : regex)                   (* (?:r)?, greedy *)
| Group (r : regex).                (* (r), capturing *)

(** cls+ *)
Definition Plus (cls : ascii → bool) : regex := Cat (Chr cls) (Star cls).

(** With [re.IGNORECASE] a character is compared after lower-casing. *)
Definition chr_eq (ic : bool) (p c : ascii) : bool :=
  if ic then bool_decide (Char.lower c = Char.lower p)
  else bool_decide (c = p).

Definition in_class (ic : bool) (cls : ascii → bool) (c : ascii) : bool :=
  cls c || (ic && cls (Char.lower c)).

Fixpoint lit (ic : bool) (p s : pystr) : option pystr :=
  match p with
  | [] => Some s
  | a :: p' =>
      match s with
      | c :: s' => if chr_eq ic a c then lit ic p' s' else None
      | [] => None
      end
  end.

(** The remainders after cls*, longest match first. *)
Fixpoint stars (ic : bool) (cls : ascii → bool) (s : pystr) : list pystr :=
  match s with
  | c :: s' => if in_class ic cls c then stars ic cls s' ++ [s] else [s]
  | [] => [[]]
  end.

Record mstate := MState { rest : pystr; groups : list pystr }.

Definition consumed (s : pystr) (st : mstate) : pystr :=
  take (length s - length (rest st)) s.

Fixpoint rmatch (ic : bool) (r : regex) (st : mstate) : list mstate :=
  match r with
  | Lit p =>
      match lit ic p (rest st) with
      | Some s' => [MState s' (groups st)]
      | None => []
      end
  | Chr cls =>
      match rest st with
      | c :: s' => if in_class ic cls c then [MState s' (groups st)] else []
      | [] => []
      end
  | Star cls => (λ s', MState s' (groups st)) <$> stars ic cls (rest st)
  | Cat r1 r2 => st1 ← rmatch ic r1 st; rmatch ic r2 st1
  | Alt r1 r2 => rmatch ic r1 st ++ rmatch ic r2 st
  | Opt r1 => rmatch ic r1 st ++ [st]
  | Group r1 =>
      (λ st', MState (rest st') (groups st' ++ [consumed (rest st) st']))
        <$> rmatch ic r1 st
  end.

(** A match object: where it starts, what follows it, and its groups. *)
Record rmatch_obj := Match { m_start : nat; m_rest : pystr; m_groups : list pystr }.

Definition match_at (ic : bool) (r : regex) (s : pystr) : option mstate :=
  head (rmatch ic r (MState s [])).

(** [re.search]: the match at the leftmost position that has one. *)
Fixpoint search_from (ic : bool) (r : regex) (pos : nat) (s : pystr)
  : option rmatch_obj :=
  match match_at ic r s with
  | Some m => Some (Match pos (rest m) (groups m))
  | None =>
      match s with
      | _ :: s' => search_from ic r (S pos) s'
      | [] => None
      end
  end.

Definition search (ic : bool) (r : regex) (s : pystr) : option rmatch_obj :=
  search_from ic r 0 s.

(** [re.findall]: the groups of the successive non-overlapping matches,
    left to right.  [skip] counts the characters of the last match that
    remain to be passed over.  (None of the patterns matches the empty
    string.) *)
Fixpoint findall_from (ic : bool) (r : regex) (skip : nat) (s : pystr)
  : list (list pystr) :=
  match s with
  | [] => []
  | _ :: s' =>
      match skip with
      | S k => findall_from ic r k s'
      | O =>
          match match_at ic r s with
          | Some m =>
              groups m :: findall_from ic r (length s' - length (rest m)) s'
          | None => findall_from ic r 0 s'
          end
      end
  end.

Definition findall (ic : bool) (r : regex) (s : pystr) : list (list pystr) :=
  findall_from ic r 0 s.

(** [match.group(n)], n >= 1 *)
Definition group (gs : list pystr) (n : nat) : pystr := default [] (gs !! (n - 1)).

End Re.

(** ** answer_parser.py *)

Import Re.

(** [([0-9.]+)\s*([a-zA-Z°/%]+)], the tail shared by the four patterns *)
Definition number_unit : regex :=
  Cat (Group (Plus Char.is_numeral))
      (Cat (Star Char.is_space) (Group (Plus Char.is_unit))).

(** [Answer:\s*([0-9.]+)\s*([a-zA-Z°/%]+)] *)
Definition pattern1 : regex :=
  Cat (Lit (str "Answer:")) (Cat (Star Char.is_space) number_unit).

(** [(?:Final\s+)?Reading:\s*([0-9.]+)\s*([a-zA-Z°/%]+)] *)
Definition pattern2 : regex :=
  Cat (Opt (Cat (Lit (str "Final")) (Plus Char.is_space)))
      (Cat (Lit (str "Reading:")) (Cat (Star Char.is_space) number_unit)).

(** [(?:approximately|around|about)\s+([0-9.]+)\s*([a-zA-Z°/%]+)] *)
Definition pattern3 : regex :=
  Cat (Alt (Lit (str "approximately"))
           (Alt (Lit (str "around")) (Lit (str "about"))))
      (Cat (Plus Char.is_space) number_unit).

(** [([0-9.]+)\s*([a-zA-Z°/%]+)] *)
Definition pattern4 : regex := number_unit.

(** [float(s)] for the strings group 1 can hold, i.e. words over
    [[0-9.]]: digits with at most one dot and at least one digit; anything
    else raises [ValueError].  The value of ["12.50"] is [1250 # 100]. *)
Fixpoint digits (acc : N) (s : pystr) : option N :=
  match s with
  | [] => Some acc
  | c :: s' =>
      if Char.is_digit c then digits (acc * 10 + (Char.code c - 48)) s'
      else None
  end.

Fixpoint split_dot (s : pystr) : pystr * option pystr :=
  match s with
  | [] => ([], None)
  | c :: s' =>
      if bool_decide (c = "."%char) then ([], Some s')
      else let '(i, f) := split_dot s' in (c :: i, f)
  end.

Definition float (s : pystr) : result Q :=
  let '(i, f) := split_dot s in
  let f' := default [] f in
  match digits 0 (i ++ f') with
  | Some n =>
      if bool_decide (i ++ f' = []) then Raise ValueError
      else Return (Z.of_N n # Z.to_pos (10 ^ Z.of_nat (length f')))
  | None => Raise ValueError
  end.

Record Answer := mkAnswer {
  value : option Q;
  unit_ : option pystr;
  raw_answer : option pystr
}.

Definition no_answer : Answer := mkAnswer None None None.

(** The dictionary built from a match: ["value": float(group(1))],
    ["unit": group(2)], ["raw_answer": f"{group(1)} {group(2)}"]. *)
Definition answer_of (gs : list pystr) : result Answer :=
  v ← float (group gs 1);
  Return (mkAnswer (Some v) (Some (group gs 2))
            (Some (group gs 1 ++ str " " ++ group gs 2))).

(** [re.search(pattern, text, re.IGNORECASE)] and [re.findall(pattern,
    text)] raise [TypeError] when [text] is [None]. *)
Definition re_search (r : regex) (text : option pystr)
  : result (option rmatch_obj) :=
  match text with
  | Some s => Return (search true r s)
  | None => Raise TypeError
  end.

Definition re_findall (r : regex) (text : option pystr)
  : result (list (list pystr)) :=
  match text with
  | Some s => Return (findall false r s)
  | None => Raise TypeError
  end.

Definition parse_answer (text : option pystr) : result Answer :=
  m1 ← re_search pattern1 text;
  match m1 with
  | Some m => answer_of (m_groups m)
  | None =>
  m2 ← re_search pattern2 text;
  match m2 with
  | Some m => answer_of (m_groups m)
  | None =>
  m3 ← re_search pattern3 text;
  match m3 with
  | Some m => answer_of (m_groups m)
  | None =>
  matches ← re_findall pattern4 text;
  match last matches with
  | Some gs => answer_of gs
  | None => Return no_answer
  end end end end.

(** ** evaluate_method1.py *)

(** The ["ground_truth"] object of a dataset item or of a saved
    prediction.  ["interval"] is [null] (or missing), or a two-element
    array whose entries are numbers or [null]: [run_single_image.py]
    writes [[None, None]] for an item without ground truth. *)
Record GroundTruth := mkGT {
  gt_interval : option (option Q * option Q);
  gt_unit : option pystr
}.

(** One entry of the predictions file. A missing key reads as [None]
    through [dict.get]. *)
Record Prediction := mkPrediction {
  question_id : pystr;
  question : option pystr;
  prediction : option pystr;
  predicted_value : option Q;
  predicted_unit : option pystr;
  image_type : option pystr;
  ground_truth : option GroundTruth
}.

(** [a <= b] on values that may be [None]: comparing [None] with a number
    raises [TypeError]. *)
Definition py_le (a b : option Q) : result bool :=
  match a, b with
  | Some x, Some y => Return (Qle_bool x y)
  | _, _ => Raise TypeError
  end.

Definition is_value_correct (predicted : option Q)
    (ground_truth_interval : option (option Q * option Q)) : result bool :=
  match predicted, ground_truth_interval with
  | Some _, Some (min_val, max_val) =>
      (* min_val <= predicted <= max_val, evaluated left to right *)
      py_le min_val predicted ≫= λ lo : bool,
      if lo then py_le predicted max_val else Return false
  | _, _ => Return false
  end.

Definition is_unit_correct (predicted ground_truth : option pystr) : bool :=
  match predicted, ground_truth with
  | Some p, Some g =>
      let pred_unit := strip (lower p) in
      let gt_unit := strip (lower g) in
      bool_decide (pred_unit = gt_unit)
  | _, _ => false
  end.

Record Detail := mkDetail {
  d_question_id : pystr;
  value_correct : bool;
  unit_correct : bool;
  both_correct : bool;
  d_predicted_value : option Q;
  d_predicted_unit : option pystr;
  ground_truth_interval : option (option Q * option Q);
  ground_truth_unit : option pystr
}.

Record Metrics := mkMetrics {
  total_samples : nat;
  value_accuracy : Q;
  unit_accuracy : Q;
  overall_accuracy : Q;
  value_correct_count : nat;
  unit_correct_count : nat;
  both_correct_count : nat
}.

(** [count / total if total > 0 else 0] *)
Definition accuracy (count total : nat) : Q :=
  if (0 <? total)%nat then Z.of_nat count # Pos.of_nat total else 0.

(** The verdicts of one record: the body of the [for pred in predictions]
    loop up to the counters. *)
Definition judge (pred : Prediction) : result Detail :=
  let gt_interval := g ← ground_truth pred; gt_interval g in
  let gt_unit := g ← ground_truth pred; gt_unit g in
  value_ok ← is_value_correct (predicted_value pred) gt_interval;
  let unit_ok := is_unit_correct (predicted_unit pred) gt_unit in
  Return (mkDetail (question_id pred) value_ok unit_ok (value_ok && unit_ok)
            (predicted_value pred) (predicted_unit pred) gt_interval gt_unit).

Record Counters := mkCounters {
  c_value : nat; c_unit : nat; c_both : nat; c_details : list Detail
}.

Definition bump (b : bool) (n : nat) : nat := if b then S n else n.

Fixpoint evaluate_loop (predictions : list Prediction) (c : Counters)
  : result Counters :=
  match predictions with
  | [] => Return c
  | pred :: predictions' =>
      d ← judge pred;
      evaluate_loop predictions'
        (mkCounters (bump (value_correct d) (c_value c))
                    (bump (unit_correct d) (c_unit c))
                    (bump (value_correct d && unit_correct d) (c_both c))
                    (c_details c ++ [d]))
  end.

Definition evaluate (predictions : list Prediction)
  : result (Metrics * list Detail) :=
  let total := length predictions in
  c ← evaluate_loop predictions (mkCounters 0 0 0 []);
  Return (mkMetrics total
            (accuracy (c_value c) total)
            (accuracy (c_unit c) total)
            (accuracy (c_both c) total)
            (c_value c) (c_unit c) (c_both c),
          c_details c).

(** ** method1_inference.py, run_single_image.py, run_full_evaluation.py *)

(** What [Method1SimpleVLM.create_prompt] hands to the client: the fixed
    instruction text is left out; the question, and the instrument type
    when it is given and not empty, are what varies. *)
Record Prompt := mkPrompt { instrument : option pystr; asked : pystr }.

Definition create_prompt (question : pystr) (instrument_type : option pystr)
  : Prompt :=
  match instrument_type with
  | Some (c :: t) => mkPrompt (Some (c :: t)) question
  | _ => mkPrompt None question
  end.

(** What the world has seen: calls of [vlm_client.query], and rewrites of
    the predictions file with their full contents. *)
Inductive event :=
| Query (image_path : pystr) (prompt : Prompt)
| Write (contents : list Prediction).

(** [predictions_file] is [None] while [results/<model>_predictions.json]
    does not exist. *)
Record World := mkWorld {
  predictions_file : option (list Prediction);
  trace : list event
}.

(** [vlm_client.query]: text, [None] (the client caught an API error), or
    an exception. *)
Inductive Response :=
| Text (s : pystr)
| NoResponse
| QueryRaises.

(** The collaborators; each may depend on everything that happened so
    far.  [client_init] is [Method1SimpleVLM(model_name=...)], which
    raises when the client cannot be set up; [image_open] is
    [Image.open]. *)
Record Env := mkEnv {
  client_init : list event → bool;
  image_open : list event → pystr → bool;
  vlm_query : list event → pystr → Prompt → Response
}.

(** [Path(p).stem] for POSIX paths: the last component of the path
    (empty components and [.] are dropped), without its last suffix. *)
Fixpoint split_on (c : ascii) (s : pystr) : list pystr :=
  match s with
  | [] => [[]]
  | x :: s' =>
      if bool_decide (x = c) then [] :: split_on c s'
      else match split_on c s' with
           | w :: ws => (x :: w) :: ws
           | [] => [[x]]
           end
  end.

Fixpoint rfind_from (c : ascii) (s : pystr) (i : nat) (found : option nat)
  : option nat :=
  match s with
  | [] => found
  | x :: s' =>
      rfind_from c s' (S i) (if bool_decide (x = c) then Some i else found)
  end.

Definition rfind (c : ascii) (s : pystr) : option nat := rfind_from c s 0 None.

Definition path_name (p : pystr) : pystr :=
  default [] (last (filter (λ w, w ≠ [] ∧ w ≠ str ".") (split_on "/" p))).

Definition stem (p : pystr) : pystr :=
  let name := path_name p in
  match rfind "." name with
  | Some i => if (0 <? i)%nat && (i <? length name - 1)%nat
              then take i name else name
  | None => name
  end.

(** A dataset item. ["image_type"] and ["ground_truth"] may be missing. *)
Record Item := mkItem {
  i_question_id : pystr;
  i_question : pystr;
  i_image_path : pystr;
  i_image_type : option pystr;
  i_ground_truth : option GroundTruth
}.

Definition log (e : event) (w : World) : World :=
  mkWorld (predictions_file w) (trace w ++ [e]).

(** [Method1SimpleVLM.process_single].  The result is [None] when
    anything inside the [try] raised: opening the image, the query, or
    [parse_answer] (a [ValueError] from [float]).  The dictionary returned
    for a [None] response has no ["question"] key; none of the two has a
    ["ground_truth"] key yet. *)
Definition process_single (env : Env) (image_path question : pystr)
    (instrument_type : option pystr) (w : World)
  : World * option Prediction :=
  if image_open env (trace w) image_path then
    let prompt := create_prompt question instrument_type in
    let vlm_response := vlm_query env (trace w) image_path prompt in
    let w := log (Query image_path prompt) w in
    match vlm_response with
    | QueryRaises => (w, None)
    | NoResponse =>
        (w, Some (mkPrediction (stem image_path) None None None None
                    instrument_type None))
    | Text t =>
        match parse_answer (Some t) with
        | Return parsed =>
            (w, Some (mkPrediction (stem image_path) (Some question) (Some t)
                        (value parsed) (unit_ parsed) instrument_type None))
        | Raise _ => (w, None)
        end
    end
  else (w, None).

(** [find_image_in_dataset(dataset_path, image_id)]: the first item with
    that question id; an empty id is falsy and finds nothing.  (The search
    by image name is not used by the batch runner and is left out.) *)
Definition find_image_in_dataset (dataset : list Item) (image_id : pystr)
  : option Item :=
  if bool_decide (image_id = []) then None
  else snd <$> list_find (λ item, i_question_id item = image_id) dataset.

(** Update or append in the main predictions file:
    the first entry with the same ["question_id"] is overwritten in place,
    otherwise the result goes to the end. *)
Definition upsert (all_predictions : list Prediction) (result : Prediction)
  : list Prediction :=
  match list_find (λ pred, question_id pred = question_id result)
          all_predictions with
  | Some (existing_idx, _) => <[existing_idx := result]> all_predictions
  | None => all_predictions ++ [result]
  end.

Definition save (result : Prediction) (w : World) : World :=
  let all_predictions :=
    match predictions_file w with
    | Some all_predictions => upsert all_predictions result
    | None => [result]
    end in
  log (Write all_predictions) (mkWorld (Some all_predictions) (trace w)).

Definition missing_ground_truth : GroundTruth :=
  mkGT (Some (None, None)) None.

(** [run_single_image.py --image_id <id> --model <model>], as a function
    of the dataset file and the world; the second component is the exit
    status of the process.  Only an exception that escapes [main] makes it
    non-zero, and the only call outside a [try] that is documented to raise
    is the construction of the client.  The per-image file
    [single_<model>_<id>.json] and everything printed are not modelled. *)
Definition main (env : Env) (dataset : list Item) (image_id : pystr)
    (w : World) : World * nat :=
  match find_image_in_dataset dataset image_id with
  | None => (w, 0)                                    (* "Image not found" *)
  | Some item =>
      if client_init env (trace w) then
        let instrument_type :=
          Some (default (str "Unknown") (i_image_type item)) in
        let '(w, result) :=
          process_single env (i_image_path item) (i_question item)
            instrument_type w in
        match result with
        | None => (w, 0)                              (* "Failed to process image" *)
        | Some result =>
            let gt := default missing_ground_truth (i_ground_truth item) in
            let result :=
              mkPrediction (question_id result) (question result)
                (prediction result) (predicted_value result)
                (predicted_unit result) (image_type result) (Some gt) in
            (save result w, 0)
        end
      else (w, 1)
  end.

Inductive Status :=
| Done             (* the loop ran to its end *)
| Stopped          (* "[STOP] Stopping due to error", sys.exit(1) *)
| Outside.         (* a command line that the model does not read: the run
                      is followed up to that child and no further *)

(** [processed_ids]: the question ids found in the predictions file when
    the run starts. *)
Definition processed_ids_of (w : World) : gset pystr :=
  match predictions_file w with
  | Some existing_data => list_to_set (question_id <$> existing_data)
  | None => ∅
  end.

(** The child process.  The batch runner pastes the id into a command
    line that the shell splits into words before [argparse] sees them:

    [cmd = f"python run_single_image.py --image_id {image_id} --model {MODEL}"]
    [subprocess.run(cmd, shell=True, ...)]

    The model reads the command lines made of plain characters and
    blanks.  Any other character (a quote, a backslash, [$], [;], [*],
    [#], a line end, ...) may mean something to the shell, and a further
    option after the id changes what the script does: such a command
    line is left unread. *)
Definition MODEL : pystr := str "gemini-2.5-flash".

Definition cmd (image_id : pystr) : pystr :=
  str "python run_single_image.py --image_id " ++ image_id
  ++ str " --model " ++ MODEL.

(** Characters that mean nothing to the shell: letters, digits, [_], [.]
    and [-]. *)
Definition plain_char (c : ascii) : bool :=
  Char.between 97 122 c || Char.between 65 90 c || Char.is_digit c
  || (Char.code c =? 95)%N || (Char.code c =? 46)%N || (Char.code c =? 45)%N.

(** The blanks that separate the words of a command line: space and
    tab. *)
Definition is_blank (c : ascii) : bool :=
  ((Char.code c =? 32) || (Char.code c =? 9))%N.

Fixpoint words_from (word : pystr) (s : pystr) : list pystr :=
  match s with
  | [] => match word with [] => [] | _ => [reverse word] end
  | c :: s' =>
      if is_blank c
      then match word with
           | [] => words_from [] s'
           | _ => reverse word :: words_from [] s'
           end
      else words_from (c :: word) s'
  end.

Definition words (s : pystr) : list pystr := words_from [] s.

(** The words the shell makes of a command line of plain characters and
    blanks. *)
Definition sh_words (cmd : pystr) : option (list pystr) :=
  if forallb (λ c, is_blank c || plain_char c) cmd then Some (words cmd)
  else None.

(** How [argparse] reads a word.  A word that starts with a dash is an
    option string, unless it is a dash alone or looks like a negative
    number ([-\d+] or [-\d*\.\d+]), which makes it an argument.  Other
    words that start with a dash and a digit, or a dash, a dot and a
    digit, are read as option strings by some versions of [argparse] and
    as numbers by others. *)
Definition negative_number (w : pystr) : bool :=
  match w with
  | "-"%char :: n =>
      match split_dot n with
      | (i, None) => bool_decide (i ≠ []) && forallb Char.is_digit i
      | (i, Some f) =>
          bool_decide (f ≠ []) && forallb Char.is_digit i
          && forallb Char.is_digit f
      end
  | _ => false
  end.

Definition number_like (w : pystr) : bool :=
  match w with
  | "-"%char :: c :: r =>
      Char.is_digit c
      || (bool_decide (c = "."%char)
          && match r with d :: _ => Char.is_digit d | [] => false end)
  | _ => false
  end.

Inductive Reading :=
| Argument
| OptionString
| Unclear.

Definition reading (w : pystr) : Reading :=
  match w with
  | "-"%char :: _ :: _ =>
      if negative_number w then Argument
      else if number_like w then Unclear
      else OptionString
  | _ => Argument
  end.

(** How the command line reaches [run_single_image.py]. *)
Inductive Invocation :=
| Runs (image_id : pystr)   (* [args.image_id], with [args.model = MODEL] *)
| UsageError                (* argparse prints the usage and exits with 2 *)
| Unread.                   (* not covered by the model *)

(** The words between the value of [--image_id] and the final
    [--model MODEL], when each of them is an argument. *)
Fixpoint leftover (rest : list pystr) : option (list pystr) :=
  match rest with
  | [] => None
  | w :: rest' =>
      if bool_decide (rest = [str "--model"; MODEL]) then Some []
      else match reading w with
           | Argument => (w ::.) <$> leftover rest'
           | _ => None
           end
  end.

(** [parser.parse_args()] on the words after the script name.  The value
    of [--image_id] must be one argument: an option string in its place
    is "expected one argument"; a further argument before [--model] is
    an unrecognized argument.  Both end the process with status 2. *)
Definition parse_args (argv : list pystr) : Invocation :=
  match argv with
  | flag :: value :: rest =>
      if bool_decide (flag = str "--image_id") then
        match reading value with
        | Argument =>
            match leftover rest with
            | Some [] => Runs value
            | Some (_ :: _) => UsageError
            | None => Unread
            end
        | OptionString => UsageError
        | Unclear => Unread
        end
      else Unread
  | _ => Unread
  end.

Definition invocation (image_id : pystr) : Invocation :=
  match sh_words (cmd image_id) with
  | Some (_python :: _script :: argv) => parse_args argv
  | _ => Unread
  end.

(** [subprocess.run(cmd, shell=True, ...)]: the world after the child, and
    its [returncode]; [None] for a command line that is not read. *)
Definition subprocess_run (env : Env) (dataset : list Item) (image_id : pystr)
    (w : World) : option (World * nat) :=
  match invocation image_id with
  | Runs image_id => Some (main env dataset image_id w)
  | UsageError => Some (w, 2)
  | Unread => None
  end.

(** The [for i, item in enumerate(dataset)] loop of [run_evaluation];
    [dataset] is the whole file (the child process reads it again),
    [items] what is left to visit.  What the loop prints, and its pause
    between items, change nothing. *)
Fixpoint run_loop (env : Env) (dataset : list Item) (processed_ids : gset pystr)
    (items : list Item) (w : World) : World * Status :=
  match items with
  | [] => (w, Done)
  | item :: items' =>
      let image_id := i_question_id item in
      if bool_decide (image_id ∈ processed_ids) then
        run_loop env dataset processed_ids items' w
      else
        match subprocess_run env dataset image_id w with
        | Some (w, returncode) =>
            if bool_decide (returncode ≠ 0%nat) then (w, Stopped)
            else run_loop env dataset processed_ids items' w
        | None => (w, Outside)
        end
  end.

(** [run_evaluation], once the API key and the dataset file were found. *)
Definition run_evaluation (env : Env) (dataset : list Item) (w : World)
  : World * Status :=
  run_loop env dataset (processed_ids_of w) dataset w.

(** The unit check of the "--- EVALUATION ---" display in
    [run_single_image.py], reached when a value was predicted and the
    interval has a lower bound (printed only, never saved): no stripping,
    and a missing expected unit counts as correct. *)
Definition truthy (s : option pystr) : bool :=
  match s with Some (_ :: _) => true | _ => false end.

Definition display_unit_correct (pred_unit gt_unit : option pystr) : bool :=
  if truthy pred_unit && truthy gt_unit
  then bool_decide (lower <$> pred_unit = lower <$> gt_unit)
  else bool_decide (gt_unit = None).

(** ** Notions used in the statements *)

(** The longest prefix of [s] inside a class, and what follows it. *)
Fixpoint span (cls : ascii → bool) (s : pystr) : pystr * pystr :=
  match s with
  | c :: s' =>
      if cls c then let '(a, b) := span cls s' in (c :: a, b) else ([], s)
  | [] => ([], [])
  end.

Definition starts_with (cls : ascii → bool) (s : pystr) : Prop :=
  match s with
  | c :: _ => cls c = true
  | [] => False
  end.

(** A number, optional white space and a unit read greedily at the head of
    [s]: the two groups and the rest. *)
Definition number_unit_at (s : pystr) : option (pystr * pystr * pystr) :=
  let '(n, s1) := span Char.is_numeral s in
  let '(_, s2) := span Char.is_space s1 in
  let '(u, s3) := span Char.is_unit s2 in
  match n, u with
  | _ :: _, _ :: _ => Some (n, u, s3)
  | _, _ => None
  end.

Definition unique_ids (l : list Prediction) : Prop :=
  NoDup (question_id <$> l).

Definition ids_of (w : World) : list pystr :=
  question_id <$> default [] (predictions_file w).

(** The calls of the producer in a trace. *)
Definition queries (t : list event) : list pystr :=
  omap (λ e, match e with Query p _ => Some p | Write _ => None end) t.

Definition writes (t : list event) : list (list Prediction) :=
  omap (λ e, match e with Write c => Some c | Query _ _ => None end) t.

(** The flag [re.IGNORECASE] makes no difference for a class. *)
Definition plain (cls : ascii → bool) (ic : bool) : Prop :=
  ∀ c, in_class ic cls c = cls c.

(** A pattern that fails on every input starting inside a class. *)
Definition fails_inside (ic : bool) (cls : ascii → bool) (r : regex) : Prop :=
  ∀ st, starts_with cls (rest st) → rmatch ic r st = [].

(** A pattern without capturing groups. *)
Fixpoint groupless (r : regex) : bool :=
  match r with
  | Lit _ | Chr _ | Star _ => true
  | Cat r1 r2 | Alt r1 r2 => groupless r1 && groupless r2
  | Opt r1 => groupless r1
  | Group _ => false
  end.

(** A pattern that ends in the shared number-unit tail, after a prefix
    without groups. *)
Inductive number_unit_tail : regex → Prop :=
| tail_here : number_unit_tail number_unit
| tail_after pre r :
    groupless pre = true → number_unit_tail r → number_unit_tail (Cat pre r).

(** What the two groups of a match hold, and where they lie in the text. *)
Definition well_matched (s : pystr) (gs : list pystr) : Prop :=
  ∃ n u pre w post,
    gs = [n; u] ∧ s = pre ++ n ++ w ++ u ++ post
    ∧ n ≠ [] ∧ Forall (λ c, Char.is_numeral c = true) n
    ∧ Forall (λ c, Char.is_space c = true) w
    ∧ u ≠ [] ∧ Forall (λ c, Char.is_unit c = true) u.

(** Unique ids in the file and in everything that was ever written. *)
Definition kept_unique (w : World) : Prop :=
  (∀ l, predictions_file w = Some l → unique_ids l)
  ∧ Forall unique_ids (writes (trace w)).

(** The verdicts in the words of the specification. *)
Definition value_ok (pred : Prediction) : bool :=
  match predicted_value pred, ground_truth pred ≫= gt_interval with
  | Some p, Some (Some lo, Some hi) => Qle_bool lo p && Qle_bool p hi
  | _, _ => false
  end.

Definition unit_ok (pred : Prediction) : bool :=
  is_unit_correct (predicted_unit pred) (ground_truth pred ≫= gt_unit).

Definition verdict (pred : Prediction) : Detail :=
  mkDetail (question_id pred) (value_ok pred) (unit_ok pred)
    (value_ok pred && unit_ok pred)
    (predicted_value pred) (predicted_unit pred)
    (ground_truth pred ≫= gt_interval) (ground_truth pred ≫= gt_unit).

Definition count (f : Prediction → bool) (l : list Prediction) : nat :=
  length (List.filter f l).

(** The interval of a record is usable: when a value was predicted, a
    recorded interval has two numbers as bounds. *)
Definition numeric_interval (pred : Prediction) : Prop :=
  match predicted_value pred, ground_truth pred ≫= gt_interval with
  | Some _, Some (lo, hi) => is_Some lo ∧ is_Some hi
  | _, _ => True
  end.

(** An id that reaches the child process as it is: not empty, of plain
    characters, not starting with a dash. *)
Definition plain_word (image_id : pystr) : Prop :=
  match image_id with
  | c :: _ => Forall (λ c, plain_char c = true) image_id ∧ c ≠ "-"%char
  | [] => False
  end.

Definition plain_ids (dataset : list Item) : Prop :=
  Forall (λ item, plain_word (i_question_id item)) dataset.

(** The image of every item is named after its question id (what
    [process_single] takes as the id of its result), and no id is empty. *)
Definition paths_match (dataset : list Item) : Prop :=
  ∀ item, item ∈ dataset →
    stem (i_image_path item) = i_question_id item ∧ i_question_id item ≠ [].


(** ** Texts, items and collaborators of the examples *)

(** The marker text of the specification's example. *)
Definition answer_4_4_A : pystr := str "Answer: 4.4 A".

(** The end of the text in the specification's fallback example, and what
    is left of it after the word "the". *)
Definition needle_66_ml : pystr := str "the needle points to 66 ml.".
Definition needle_tail : pystr := str " needle points to 66 ml.".

Definition fresh : World := mkWorld None [].

Definition gauge (id : string) : Item :=
  mkItem (str id) (str "What is the reading?")
    (str "images/" ++ str id ++ str ".png") None None.

Definition three_items : list Item := [gauge "q1"; gauge "q2"; gauge "q3"].

(** A dataset item without ["ground_truth"], a producer that answers, and
    the record [run_single_image.py] saves for the two. *)
Definition ammeter_item : Item :=
  mkItem (str "q1") (str "What is the reading of the ammeter?")
    (str "images/q1.png") (Some (str "ammeter")) None.

(** The same item with an image file that is not named after it. *)
Definition misnamed_item : Item :=
  mkItem (str "q1") (str "What is the reading of the ammeter?")
    (str "images/ammeter_front.png") (Some (str "ammeter")) None.

(** A producer that answers every query with [t]. *)
Definition answering (t : pystr) : Env :=
  mkEnv (λ _, true) (λ _ _, true) (λ _ _ _, Text t).

(** A producer that never answers: the client returns [None]. *)
Definition silent_env : Env :=
  mkEnv (λ _, true) (λ _ _, true) (λ _ _ _, NoResponse).

(** A producer that answers "Answer: 4.4 A" except for one image, where it
    responds with [r]. *)
Definition except_on (path : pystr) (r : Response) : Env :=
  mkEnv (λ _, true) (λ _ _, true)
    (λ _ p _, if bool_decide (p = path) then r else Text (str "Answer: 4.4 A")).

(** A client that can be set up only while fewer than [n] queries have
    been made (an exhausted quota, say). *)
Definition quota (n : nat) : Env :=
  mkEnv (λ t, bool_decide (length (queries t) < n)) (λ _ _, true)
    (λ _ _ _, Text (str "Answer: 4.4 A")).

Definition saved_without_ground_truth : Prediction :=
  mkPrediction (str "q1") (Some (str "What is the reading of the ammeter?"))
    (Some (str "Answer: 4.4 A")) (Some 4.4%Q) (Some (str "A"))
    (Some (str "ammeter")) (Some (mkGT (Some (None, None)) None)).

(** Two saved records, and a second result for the first of them. *)
Definition saved_q2 : Prediction :=
  mkPrediction (str "q2") (Some (str "What is the volume?"))
    (Some (str "Answer: 66 ml")) (Some 66%Q) (Some (str "ml"))
    (Some (str "cylinder"))
    (Some (mkGT (Some (Some 65%Q, Some 67%Q)) (Some (str "ml")))).

Definition second_reading_q1 : Prediction :=
  mkPrediction (str "q1") (Some (str "What is the reading of the ammeter?"))
    (Some (str "Answer: 5 A")) (Some 5%Q) (Some (str "A"))
    (Some (str "ammeter")) (Some (mkGT (Some (None, None)) None)).

(** Case analysis over the 256 characters. *)
Ltac by_char c :=
  destruct c as [[] [] [] [] [] [] [] []]; vm_compute;
  try reflexivity; try discriminate; try tauto.

(** ** Further notions: the parser *)

(** The groups the cascade of [parse_answer] settles on: those of the
    first rule that matches, for the fallback those of the last pair. *)
Definition chosen_groups (text : pystr) : option (list pystr) :=
  match search true pattern1 text with
  | Some m => Some (m_groups m)
  | None =>
  match search true pattern2 text with
  | Some m => Some (m_groups m)
  | None =>
  match search true pattern3 text with
  | Some m => Some (m_groups m)
  | None => last (findall false pattern4 text)
  end end end.

Definition has_digit (n : pystr) : bool := existsb Char.is_digit n.

Definition dots (n : pystr) : nat :=
  length (filter (λ c, c = "."%char) n).

(** A word over digits and dots that is no numeral. *)
Definition malformed (n : pystr) : Prop :=
  has_digit n = false ∨ 2 ≤ dots n.

(** Characters, texts and matcher states that differ in letter case
    only. *)
Definition same_letter (c c' : ascii) : Prop := Char.lower c = Char.lower c'.

Definition same_text (s s' : pystr) : Prop := Forall2 same_letter s s'.

Definition same_state (st st' : mstate) : Prop :=
  same_text (rest st) (rest st') ∧ Forall2 same_text (groups st) (groups st').

(** A pattern whose matching cannot tell the case of a letter under the
    flag [ic]: its literals are compared with [re.IGNORECASE], and its
    classes hold both or none of the cases of a letter. *)
Fixpoint case_blind (ic : bool) (r : regex) : Prop :=
  match r with
  | Lit _ => ic = true
  | Chr cls | Star cls =>
      ∀ c c', same_letter c c' → in_class ic cls c = in_class ic cls c'
  | Cat r1 r2 | Alt r1 r2 => case_blind ic r1 ∧ case_blind ic r2
  | Opt r1 | Group r1 => case_blind ic r1
  end.

(** Two outcomes of [parse_answer] that agree up to letter case. *)
Definition same_outcome (a a' : result Answer) : Prop :=
  match a, a' with
  | Return x, Return x' =>
      value x = value x'
      ∧ lower <$> unit_ x = lower <$> unit_ x'
      ∧ lower <$> raw_answer x = lower <$> raw_answer x'
  | Raise e, Raise e' => e = e'
  | _, _ => False
  end.

(** Every match of the pattern consumes a character of the class [P]. *)
Fixpoint needs (ic : bool) (P : ascii → bool) (r : regex) : Prop :=
  match r with
  | Lit p => ∃ x, x ∈ p ∧ ∀ c, chr_eq ic x c = true → P c = true
  | Chr cls => ∀ c, in_class ic cls c = true → P c = true
  | Star _ | Opt _ => False
  | Cat r1 r2 => needs ic P r1 ∨ needs ic P r2
  | Alt r1 r2 => needs ic P r1 ∧ needs ic P r2
  | Group r1 => needs ic P r1
  end.

Definition is_colon (c : ascii) : bool := bool_decide (c = ":"%char).

(** The text holds a number-unit pair somewhere: characters of [[0-9.]],
    optional white space, characters of [[a-zA-Z°/%]]. *)
Definition has_pair (text : pystr) : Prop := ∃ gs, well_matched text gs.

(** ** Further notions: the evaluator *)

(** A record on which [is_value_correct] compares a number with [None]: a
    value was predicted, the interval is recorded, and its lower bound is
    [None], or its lower bound is not above the value and its upper bound
    is [None].  A lower bound above the value ends the chained comparison
    before the upper bound is looked at. *)
Definition compares_none (pred : Prediction) : bool :=
  match predicted_value pred, ground_truth pred ≫= gt_interval with
  | Some p, Some (None, _) => true
  | Some p, Some (Some lo, None) => Qle_bool lo p
  | _, _ => false
  end.

(** What [evaluate] returns when it returns: the counts of the records
    that pass, and the verdicts in the order of the file. *)
Definition tally (preds : list Prediction) : Metrics * list Detail :=
  let both := λ p, value_ok p && unit_ok p in
  (mkMetrics (length preds)
     (accuracy (count value_ok preds) (length preds))
     (accuracy (count unit_ok preds) (length preds))
     (accuracy (count both preds) (length preds))
     (count value_ok preds) (count unit_ok preds) (count both preds),
   verdict <$> preds).

Definition flagged (f : Detail → bool) (details : list Detail) : nat :=
  length (List.filter f details).

(** Three records: inside the interval with the right unit, inside with
    a wrong unit, and without an extracted value. *)
Definition three_records : list Prediction :=
  [ saved_q2;
    mkPrediction (str "q3") (Some (str "What is the pressure?"))
      (Some (str "Answer: 285 bar")) (Some 285%Q) (Some (str "bar"))
      (Some (str "gauge"))
      (Some (mkGT (Some (Some 280%Q, Some 290%Q)) (Some (str "psi"))));
    mkPrediction (str "q4") None None None None (Some (str "gauge"))
      (Some (mkGT (Some (Some 1%Q, Some 2%Q)) (Some (str "V")))) ].

(** ** Further notions: the runner *)

(** The item has a ["ground_truth"], and its interval, when it has one,
    holds two numbers. *)
Definition numeric_ground_truth (item : Item) : Prop :=
  match i_ground_truth item with
  | Some g =>
      match gt_interval g with
      | Some (lo, hi) => is_Some lo ∧ is_Some hi
      | None => True
      end
  | None => False
  end.

(** No record of the predictions file makes [evaluate] compare a number
    with [None]. *)
Definition evaluable (w : World) : Prop :=
  ∀ l, predictions_file w = Some l →
       Forall (λ pred, compares_none pred = false) l.

Definition cylinder_item : Item :=
  mkItem (str "q2") (str "What is the volume?") (str "images/q2.png")
    (Some (str "cylinder"))
    (Some (mkGT (Some (Some 65%Q, Some 67%Q)) (Some (str "ml")))).

(** What a run may do to the world: the trace only grows, by at most [n]
    queries and by no more writes than queries; the predictions file is
    what was written last, and untouched without a write; the ids of the
    file stay where they are, new ones come after them. *)
Definition extends (n : nat) (w w' : World) : Prop :=
  ∃ new,
    trace w' = trace w ++ new
    ∧ length (queries new) ≤ n
    ∧ length (writes new) ≤ length (queries new)
    ∧ predictions_file w'
      = match last (writes new) with
        | Some contents => Some contents
        | None => predictions_file w
        end
    ∧ ids_of w `prefix_of` ids_of w'.



(** ** method1_inference.py: evaluate_dataset *)

(** What subscripting the result of [process_single] raises: [KeyError]
    for a dictionary without the key, [TypeError] for [None]. *)
Inductive lookup_error :=
| KeyError (key : pystr)
| NoneNotSubscriptable.

Inductive looked_up (A : Type) :=
| Found (a : A)
| Fails (e : lookup_error).
Arguments Found {A} a.
Arguments Fails {A} e.

#[global] Instance looked_up_bind : MBind looked_up := λ A B k m,
  match m with
  | Found a => k a
  | Fails e => Fails e
  end.

(** [result[key]] for a key both dictionaries of [process_single] have:
    ["question_id"], ["prediction"], ["predicted_value"],
    ["predicted_unit"], ["image_type"]. *)
Definition getitem {A} (result : option Prediction) (field : Prediction → A)
  : looked_up A :=
  match result with
  | Some r => Found (field r)
  | None => Fails NoneNotSubscriptable
  end.

(** [result["vlm_response"]]: neither dictionary of [process_single] has
    this key. *)
Definition getitem_vlm_response (result : option Prediction)
  : looked_up (option pystr) :=
  match result with
  | Some _ => Fails (KeyError (str "vlm_response"))
  | None => Fails NoneNotSubscriptable
  end.

(** The error of the first failing subscript in the row of an item. *)
Definition row_error (result : option Prediction) : lookup_error :=
  match result with
  | Some _ => KeyError (str "vlm_response")
  | None => NoneNotSubscriptable
  end.

(** One dictionary of [results]; ["ground_truth"] is [None] when the item
    has none. *)
Record Row := mkRow {
  r_question_id : pystr;
  r_question : pystr;
  r_image_type : option pystr;
  r_prediction : option pystr;
  r_predicted_value : option Q;
  r_predicted_unit : option pystr;
  r_ground_truth : option GroundTruth;
  r_vlm_response : option pystr
}.

(** The dictionary appended for an item; its values are evaluated in the
    order they are written. *)
Definition row_of (item : Item) (result : option Prediction) : looked_up Row :=
  p ← getitem result prediction;
  v ← getitem result predicted_value;
  u ← getitem result predicted_unit;
  r ← getitem_vlm_response result;
  Found (mkRow (i_question_id item) (i_question item) (i_image_type item)
           p v u (i_ground_truth item) r).

(** A row as an entry of the predictions file. *)
Definition saved_row (row : Row) : Prediction :=
  mkPrediction (r_question_id row) (Some (r_question row)) (r_prediction row)
    (r_predicted_value row) (r_predicted_unit row) (r_image_type row)
    (r_ground_truth row).

(** The [for item in tqdm(dataset)] loop. *)
Fixpoint evaluate_dataset_loop (env : Env) (dataset : list Item)
    (results : list Row) (w : World) : World * looked_up (list Row) :=
  match dataset with
  | [] => (w, Found results)
  | item :: dataset' =>
      let instrument_type := i_image_type item in
      let '(w, result) :=
        process_single env (i_image_path item) (i_question item)
          instrument_type w in
      match row_of item result with
      | Found row => evaluate_dataset_loop env dataset' (results ++ [row]) w
      | Fails e => (w, Fails e)
      end
  end.

(** [Method1SimpleVLM.evaluate_dataset]: the loop, then the list of rows
    replaces [<output_dir>/<model>_predictions.json], the file
    [run_single_image.py] updates (for a model name without a slash). *)
Definition evaluate_dataset (env : Env) (dataset : list Item) (w : World)
  : World * looked_up (list Row) :=
  let '(w, results) := evaluate_dataset_loop env dataset [] w in
  match results with
  | Found results =>
      let contents := saved_row <$> results in
      (log (Write contents) (mkWorld (Some contents) (trace w)),
       Found results)
  | Fails e => (w, Fails e)
  end.

(** ** run_method1.py *)

Module run_method1.

(** [full_dataset[:args.limit]] under [if args.limit:]: no limit and the
    limit 0 leave the dataset whole, a negative limit drops that many
    items from the end. *)
Definition limited (limit : option Z) (full_dataset : list Item) : list Item :=
  match limit with
  | Some n =>
      if bool_decide (n = 0%Z) then full_dataset
      else if bool_decide (0 ≤ n)%Z then take (Z.to_nat n) full_dataset
      else take (length full_dataset - Z.to_nat (- n)) full_dataset
  | None => full_dataset
  end.

(** [main], once the dataset file was found; the second component is the
    exit status.  The construction of [Method1SimpleVLM] is outside the
    [try]; what [evaluate_dataset] raises is caught and printed. *)
Definition main (env : Env) (limit : option Z) (dataset : list Item)
    (w : World) : World * nat :=
  if client_init env (trace w) then
    let '(w, _) := evaluate_dataset env (limited limit dataset) w in
    (w, 0)
  else (w, 1).

End run_method1.

(** ** vlm_client.py *)

(** [needle in hay] on strings. *)
Fixpoint starts (needle hay : pystr) : bool :=
  match needle, hay with
  | [], _ => true
  | a :: needle', b :: hay' => bool_decide (a = b) && starts needle' hay'
  | _ :: _, [] => false
  end.

Fixpoint contains (needle hay : pystr) : bool :=
  starts needle hay
  || match hay with
     | _ :: hay' => contains needle hay'
     | [] => false
     end.

(** What is handed to the client as [image_path]: a path, or an image
    object that [Image.open] made from a path. *)
Inductive ImageArg :=
| ImagePath (p : pystr)
| ImageObject (p : pystr).

Definition source_of (image : ImageArg) : pystr :=
  match image with ImagePath p | ImageObject p => p end.

(** What the client relies on; each may depend on everything that
    happened so far.  [gemini_key] says that [GEMINI_API_KEY] or
    [GOOGLE_API_KEY] is set and not empty, [openai_key] the same for
    [OPENAI_API_KEY]; [pil_open] is [Image.open]; [open_rb] is
    [open(image_path, "rb")] with the read that follows;
    [generate_content] and [chat_completion] are the two remote calls with
    the text of their answer, [None] when they raise. *)
Record Services := mkServices {
  gemini_key : list event → bool;
  openai_key : list event → bool;
  pil_open : list event → pystr → bool;
  open_rb : list event → ImageArg → bool;
  generate_content : list event → pystr → Prompt → option pystr;
  chat_completion : list event → pystr → Prompt → option pystr
}.

Module VLMClient.

(** [_setup_client]: a model that is neither a Gemini nor a GPT model
    gets no client and no error. *)
Definition _setup_client (s : Services) (model_name : pystr) (t : list event)
  : result unit :=
  if contains (str "gemini") model_name then
    if gemini_key s t then Return () else Raise ValueError
  else if contains (str "gpt") model_name then
    if openai_key s t then Return () else Raise ValueError
  else Return ().

(** [_query_gemini]: everything that raises gives [None]. *)
Definition _query_gemini (s : Services) (t : list event) (image_path : ImageArg)
    (prompt : Prompt) : option pystr :=
  match image_path with
  | ImagePath p =>
      if pil_open s t p then generate_content s t p prompt else None
  | ImageObject p => generate_content s t p prompt
  end.

(** [_query_gpt4]: everything that raises gives [None]. *)
Definition _query_gpt4 (s : Services) (t : list event) (image_path : ImageArg)
    (prompt : Prompt) : option pystr :=
  if open_rb s t image_path
  then chat_completion s t (source_of image_path) prompt
  else None.

Definition get_response (s : Services) (model_name : pystr) (t : list event)
    (image_path : ImageArg) (prompt : Prompt) : result (option pystr) :=
  if contains (str "gemini") model_name then
    Return (_query_gemini s t image_path prompt)
  else if contains (str "gpt") model_name then
    Return (_query_gpt4 s t image_path prompt)
  else Raise ValueError.

Definition query := get_response.

End VLMClient.

(** The collaborators of [process_single] when the client is a
    [VLMClient] for [model_name]: [process_single] hands the opened image
    to [query], not its path. *)
Definition client_env (s : Services) (model_name : pystr) : Env :=
  mkEnv
    (λ t, match VLMClient._setup_client s model_name t with
          | Return _ => true
          | Raise _ => false
          end)
    (pil_open s)
    (λ t p prompt,
       match VLMClient.query s model_name t (ImageObject p) prompt with
       | Return (Some text) => Text text
       | Return None => NoResponse
       | Raise _ => QueryRaises
       end).

(** Services in which everything works and both remote calls answer
    "Answer: 4.4 A", but [open] takes paths only. *)
Definition working : Services :=
  mkServices (λ _, true) (λ _, true) (λ _ _, true)
    (λ _ image, match image with ImagePath _ => true | ImageObject _ => false end)
    (λ _ _ _, Some (str "Answer: 4.4 A"))
    (λ _ _ _, Some (str "Answer: 4.4 A")).

(** ** run_single_image.py: both ways of finding an item *)

(** [find_image_in_dataset(dataset_path, image_id, image_name)]: by
    question id when an id is given, else by a part of the image path,
    compared in lower case; an absent or empty argument is falsy. *)
Definition find_image_in_dataset_by (dataset : list Item)
    (image_id image_name : option pystr) : option Item :=
  if truthy image_id then
    snd <$> list_find (λ item, Some (i_question_id item) = image_id) dataset
  else if truthy image_name then
    snd <$> list_find
              (λ item, contains (lower (default [] image_name))
                         (lower (i_image_path item)) = true) dataset
  else None.

(** ** The verdicts that are only printed *)

(** The status line of [run_full_evaluation.py] for the record it reads
    back: "[CORRECT]", "[WRONG]", or no verdict ("[NO PREDICTION]", or
    "[WARNING] Could not read result" when the comparison raised). *)
Inductive Shown := Correct | Wrong | NoVerdict.

Definition shown_status (prediction : Prediction) : Shown :=
  let pred_value := predicted_value prediction in
  let pred_unit := predicted_unit prediction in
  let gt_unit := ground_truth prediction ≫= gt_unit in
  match pred_value, ground_truth prediction ≫= gt_interval with
  | Some _, Some (Some lo, hi) =>
      match py_le (Some lo) pred_value ≫= λ b : bool,
            if b then py_le pred_value hi else Return false with
      | Return value_ok =>
          let unit_ok :=
            truthy pred_unit && truthy gt_unit
            && bool_decide (lower <$> pred_unit = lower <$> gt_unit) in
          if value_ok && unit_ok then Correct else Wrong
      | Raise _ => NoVerdict
      end
  | _, _ => NoVerdict
  end.

(** [overall_correct] of the "--- EVALUATION ---" display of
    [run_single_image.py], [None] for "Cannot evaluate"; an upper bound
    [None] makes the conversion to [float] raise, which is caught and
    counts as a wrong value. *)
Definition overall_correct (result : Prediction) : option bool :=
  let pred_value := predicted_value result in
  let pred_unit := predicted_unit result in
  let gt_unit := ground_truth result ≫= gt_unit in
  match pred_value, ground_truth result ≫= gt_interval with
  | Some v, Some (Some gt_min, hi) =>
      let value_correct :=
        match hi with
        | Some gt_max => Qle_bool gt_min v && Qle_bool v gt_max
        | None => false
        end in
      Some (value_correct && display_unit_correct pred_unit gt_unit)
  | _, _ => None
  end.

(** A reading inside the interval whose unit is padded, and one whose
    item has no expected unit. *)
Definition padded_unit : Prediction :=
  mkPrediction (str "q5") (Some (str "What is the voltage?"))
    (Some (str "Answer: 4.4 V")) (Some 4.4%Q) (Some (str "V"))
    (Some (str "voltmeter"))
    (Some (mkGT (Some (Some 4%Q, Some 5%Q)) (Some (str " V ")))).

Definition no_expected_unit : Prediction :=
  mkPrediction (str "q6") (Some (str "What is the voltage?"))
    (Some (str "Answer: 4.4 V")) (Some 4.4%Q) (Some (str "V"))
    (Some (str "voltmeter"))
    (Some (mkGT (Some (Some 4%Q, Some 5%Q)) None)).

(** ** dataset_download.py *)

Definition digit_char (d : N) : ascii := ascii_of_N (48 + d).

(** [str(n)] for a natural number: its decimal digits, the last one
    first into [acc]. *)
Fixpoint decimal_aux (fuel : nat) (n : N) (acc : pystr) : pystr :=
  match fuel with
  | O => acc
  | S fuel' =>
      let acc' := digit_char (n mod 10) :: acc in
      if (n <? 10)%N then acc' else decimal_aux fuel' (n / 10) acc'
  end.

Definition decimal (n : N) : pystr :=
  decimal_aux (S (N.to_nat (N.log2 n))) n [].

(** [f"{idx:04d}"]: at least four digits, filled with zeros. *)
Definition format_04d (idx : nat) : pystr :=
  let d := decimal (N.of_nat idx) in
  replicate (4 - length d) "0"%char ++ d.

(** What the downloader reads of one sample: [item['question']],
    [item['image_type']], and the ["interval"] and ["unit"] of its
    [evaluator_kwargs], [None] when they are missing. *)
Record Sample := mkSample {
  s_question : pystr;
  s_image_type : pystr;
  s_interval : option (option Q * option Q);
  s_unit : option pystr
}.

(** The dataset entry of sample [idx] of a split.  [images] is the
    absolute path of [<output_dir>/<split_name>/images]; the absolute
    path of the image is that directory, a slash, and the file name. *)
Definition entry (images split_name : pystr) (idx : nat) (item : Sample)
  : Item :=
  let image_filename := split_name ++ str "_" ++ format_04d idx ++ str ".png" in
  let absolute_image_path := images ++ str "/" ++ image_filename in
  mkItem (split_name ++ str "_" ++ format_04d idx) (s_question item)
    absolute_image_path (Some (s_image_type item))
    (Some (mkGT (s_interval item) (s_unit item))).

(** [dataset_json] of one split: [for idx, item in enumerate(split_data)]. *)
Definition dataset_json (images split_name : pystr) (split_data : list Sample)
  : list Item :=
  imap (entry images split_name) split_data.

Definition two_samples : list Sample :=
  [ mkSample (str "What is the reading of the ammeter?") (str "ammeter")
      (Some (Some 4.3%Q, Some 4.5%Q)) (Some (str "A"));
    mkSample (str "What is the volume?") (str "cylinder")
      (Some (Some 65%Q, Some 67%Q)) (Some (str "ml")) ].


(** ** run_full_evaluation.py: reading a result back *)

(** The record the batch runner shows for an item: the first one of the
    reloaded predictions file with the id of the item. *)
Definition read_back (all_preds : list Prediction) (image_id : pystr)
  : option Prediction :=
  snd <$> list_find (λ p, question_id p = image_id) all_preds.

(** * Properties *)

(** ** Running the parser *)

Example parse_answer_marker :
  parse_answer (Some (str "The pointer is at 4.4. Answer: 4.4 A"))
  = Return (mkAnswer (Some 4.4%Q) (Some (str "A")) (Some (str "4.4 A"))).
Proof. vm_compute. reflexivity. Qed.

Example parse_answer_reading :
  parse_answer (Some (str "final   reading: 65 ml"))
  = Return (mkAnswer (Some 65%Q) (Some (str "ml")) (Some (str "65 ml"))).
Proof. vm_compute. reflexivity. Qed.

Example parse_answer_hedged :
  parse_answer (Some (str "It is about 285psi I think"))
  = Return (mkAnswer (Some 285%Q) (Some (str "psi")) (Some (str "285 psi"))).
Proof. vm_compute. reflexivity. Qed.

Example parse_answer_last :
  parse_answer (Some (str "Scale 0-100 ml, the needle points to 66 ml."))
  = Return (mkAnswer (Some 66%Q) (Some (str "ml")) (Some (str "66 ml"))).
Proof. vm_compute. reflexivity. Qed.

Example parse_answer_nothing :
  parse_answer (Some (str "I cannot read the gauge.")) = Return no_answer.
Proof. vm_compute. reflexivity. Qed.

Example stem_png : stem (str "images/real_world_0363.png") = str "real_world_0363".
Proof. reflexivity. Qed.

Example stem_two_suffixes : stem (str "a/b.tar.gz") = str "b.tar".
Proof. reflexivity. Qed.

Example stem_hidden : stem (str "a/.hidden") = str ".hidden".
Proof. reflexivity. Qed.

(** ** Character classes *)

(** The texts of the model: every code point is below 256. *)
Lemma pystr_code_points (s : pystr) : Forall (λ c, (Char.code c < 256)%N) s.
Proof.
  apply Forall_forall. intros c _. unfold Char.code.
  apply N_ascii_bounded.
Qed.

Lemma in_class_plain cls c : in_class false cls c = cls c.
Proof. unfold in_class. by rewrite andb_false_l, orb_false_r. Qed.

Lemma in_class_numeral ic c : in_class ic Char.is_numeral c = Char.is_numeral c.
Proof. destruct ic; [by_char c | apply in_class_plain]. Qed.

Lemma in_class_space ic c : in_class ic Char.is_space c = Char.is_space c.
Proof. destruct ic; [by_char c | apply in_class_plain]. Qed.

Lemma in_class_unit ic c : in_class ic Char.is_unit c = Char.is_unit c.
Proof. destruct ic; [by_char c | apply in_class_plain]. Qed.

Lemma numeral_not_space c : Char.is_numeral c = true → Char.is_space c = false.
Proof. by_char c. Qed.

Lemma numeral_not_unit c : Char.is_numeral c = true → Char.is_unit c = false.
Proof. by_char c. Qed.

Lemma space_not_numeral c : Char.is_space c = true → Char.is_numeral c = false.
Proof. by_char c. Qed.

Lemma space_not_unit c : Char.is_space c = true → Char.is_unit c = false.
Proof. by_char c. Qed.

(** ** Spans *)

Lemma span_app_eq cls s : (span cls s).1 ++ (span cls s).2 = s.
Proof.
  induction s as [|c s IH]; simpl; [done|].
  destruct (cls c); [|done].
  destruct (span cls s) as [a b]; simpl in *. by rewrite IH.
Qed.

Lemma span_all cls s : Forall (λ c, cls c = true) (span cls s).1.
Proof.
  induction s as [|c s IH]; simpl; [constructor|].
  destruct (cls c) eqn:Hc; [|constructor].
  destruct (span cls s) as [a b]; simpl in *. by constructor.
Qed.

Lemma span_stop cls s : ¬ starts_with cls (span cls s).2.
Proof.
  induction s as [|c s IH]; simpl; [tauto|].
  destruct (cls c) eqn:Hc.
  - destruct (span cls s) as [a b]; simpl in *. done.
  - simpl. congruence.
Qed.

Lemma span_nil cls s : ¬ starts_with cls s → span cls s = ([], s).
Proof.
  destruct s as [|c s]; simpl; [done|].
  intros H. destruct (cls c); [done | done].
Qed.

(** A span over a concatenation: it stops inside [x], or runs through
    all of [x] and goes on in [y]. *)
Lemma span_app cls x y :
  span cls (x ++ y) =
    match (span cls x).2 with
    | [] => ((span cls x).1 ++ (span cls y).1, (span cls y).2)
    | b => ((span cls x).1, b ++ y)
    end.
Proof.
  induction x as [|c x IH]; simpl.
  - by destruct (span cls y).
  - destruct (cls c) eqn:Hc; simpl; [|done].
    rewrite IH. destruct (span cls x) as [a b]; simpl.
    by destruct b.
Qed.

(** ** The matcher *)

Lemma stars_shape ic cls s :
  plain cls ic →
  ∃ t, stars ic cls s = (span cls s).2 :: t ∧ Forall (starts_with cls) t.
Proof.
  intros Hp. induction s as [|c s (t & IH & Ht)]; simpl.
  - exists []. by split.
  - rewrite Hp. destruct (cls c) eqn:Hc.
    + exists (t ++ [c :: s]). rewrite IH.
      destruct (span cls s) as [a b]; simpl. split; [done|].
      apply Forall_app. split; [done|]. by repeat constructor.
    + exists []. by split.
Qed.

Lemma elem_of_stars ic cls s e :
  plain cls ic →
  e ∈ stars ic cls s → ∃ a, s = a ++ e ∧ Forall (λ c, cls c = true) a.
Proof.
  intros Hp. induction s as [|c s IH]; simpl.
  - intros ->%list_elem_of_singleton. by exists [].
  - rewrite Hp. destruct (cls c) eqn:Hc.
    + intros [He | ->%list_elem_of_singleton]%elem_of_app.
      * destruct (IH He) as (a & -> & Ha). exists (c :: a). split; [done|].
        by constructor.
      * by exists [].
    + intros ->%list_elem_of_singleton. by exists [].
Qed.

Lemma stars_suffix ic cls s e : e ∈ stars ic cls s → ∃ a, s = a ++ e.
Proof.
  induction s as [|c s IH]; simpl.
  - intros ->%list_elem_of_singleton. by exists [].
  - destruct (in_class ic cls c).
    + intros [He | ->%list_elem_of_singleton]%elem_of_app.
      * destruct (IH He) as (a & ->). by exists (c :: a).
      * by exists [].
    + intros ->%list_elem_of_singleton. by exists [].
Qed.

Lemma lit_suffix ic p s s' : lit ic p s = Some s' → ∃ a, s = a ++ s'.
Proof.
  revert s. induction p as [|x p IH]; simpl; intros s.
  - intros [= ->]. by exists [].
  - destruct s as [|c s]; [done|]. destruct (chr_eq ic x c); [|done].
    intros (a & ->)%IH. by exists (c :: a).
Qed.

(** Whatever a pattern matches is a prefix of what it was given. *)
Lemma rmatch_suffix ic r st st' :
  st' ∈ rmatch ic r st → ∃ a, rest st = a ++ rest st'.
Proof.
  revert st st'. induction r as [p|cls|cls|r1 IH1 r2 IH2|r1 IH1 r2 IH2|r IH|r IH];
    simpl; intros st st'.
  - destruct (lit ic p (rest st)) as [s'|] eqn:Hl; [|by intros ?%elem_of_nil].
    intros ->%list_elem_of_singleton. by eapply lit_suffix.
  - destruct (rest st) as [|c s]; [by intros ?%elem_of_nil|].
    destruct (in_class ic cls c); [|by intros ?%elem_of_nil].
    intros ->%list_elem_of_singleton. by exists [c].
  - intros (e & -> & He)%list_elem_of_fmap. by eapply stars_suffix.
  - intros (st1 & H2 & H1)%list_elem_of_bind.
    destruct (IH1 _ _ H1) as (a & ->), (IH2 _ _ H2) as (b & ->).
    exists (a ++ b). by rewrite (assoc_L (++)).
  - intros [H|H]%elem_of_app; eauto.
  - intros [H| ->%list_elem_of_singleton]%elem_of_app; [eauto|]. by exists [].
  - intros (st1 & -> & H)%list_elem_of_fmap. simpl. eauto.
Qed.

Lemma rmatch_groupless ic r st st' :
  groupless r = true → st' ∈ rmatch ic r st → groups st' = groups st.
Proof.
  revert st st'. induction r as [p|cls|cls|r1 IH1 r2 IH2|r1 IH1 r2 IH2|r IH|r IH];
    simpl; intros st st' Hg.
  - destruct (lit ic p (rest st)); [|by intros ?%elem_of_nil].
    by intros ->%list_elem_of_singleton.
  - destruct (rest st) as [|c s]; [by intros ?%elem_of_nil|].
    destruct (in_class ic cls c); [|by intros ?%elem_of_nil].
    by intros ->%list_elem_of_singleton.
  - by intros (e & -> & He)%list_elem_of_fmap.
  - apply andb_true_iff in Hg as [Hg1 Hg2].
    intros (st1 & H2 & H1)%list_elem_of_bind.
    rewrite (IH2 _ _ Hg2 H2). eauto.
  - apply andb_true_iff in Hg as [Hg1 Hg2].
    intros [H|H]%elem_of_app; eauto.
  - intros [H| ->%list_elem_of_singleton]%elem_of_app; eauto.
  - done.
Qed.

Lemma consumed_app a st' : consumed (a ++ rest st') st' = a.
Proof.
  unfold consumed. rewrite length_app.
  replace (length a + length (rest st') - length (rest st')) with (length a) by lia.
  by rewrite take_app_length.
Qed.

(** A capturing [cls+]: the group holds a non-empty word of the class. *)
Lemma rmatch_group_plus ic cls st st' :
  plain cls ic →
  st' ∈ rmatch ic (Group (Plus cls)) st →
  ∃ a, a ≠ [] ∧ Forall (λ c, cls c = true) a
       ∧ rest st = a ++ rest st' ∧ groups st' = groups st ++ [a].
Proof.
  intros Hp. simpl.
  intros (st1 & -> & (st0 & H1 & H0)%list_elem_of_bind)%list_elem_of_fmap.
  destruct (rest st) as [|c s] eqn:Hs; [by apply elem_of_nil in H0|].
  rewrite Hp in H0. destruct (cls c) eqn:Hc; [|by apply elem_of_nil in H0].
  apply list_elem_of_singleton in H0 as ->. simpl in H1.
  apply list_elem_of_fmap in H1 as (e & -> & He).
  apply elem_of_stars in He as (a & -> & Ha); [|done].
  exists (c :: a). simpl. split_and!; [done|by constructor|done|].
  f_equal. f_equal.
  exact (consumed_app (c :: a) (MState e (groups st))).
Qed.

(** *** Greedy repetition followed by something that cannot start inside it

    When what follows [cls*] or [(cls+)] fails on every input that starts
    with a character of the class, giving characters back never helps:
    the only split that can succeed is the longest one. *)

Lemma bind_all_nil {A B} (f : A → list B) (l : list A) :
  Forall (λ x, f x = []) l → l ≫= f = [].
Proof.
  induction 1 as [|x l Hx _ IH]; [done|].
  by rewrite bind_cons, Hx, IH.
Qed.

Lemma rmatch_star_cat ic cls r st :
  plain cls ic → fails_inside ic cls r →
  rmatch ic (Cat (Star cls) r) st
  = rmatch ic r (MState (span cls (rest st)).2 (groups st)).
Proof.
  intros Hp Hr.
  change (rmatch ic (Cat (Star cls) r) st)
    with (((λ s', MState s' (groups st)) <$> stars ic cls (rest st))
            ≫= rmatch ic r).
  destruct (stars_shape ic cls (rest st) Hp) as (t & -> & Ht).
  rewrite fmap_cons, bind_cons.
  rewrite bind_all_nil; [by rewrite app_nil_r|].
  apply Forall_fmap. eapply Forall_impl; [exact Ht|].
  intros e He. by apply Hr.
Qed.

Lemma rmatch_plus ic cls st :
  plain cls ic →
  rmatch ic (Plus cls) st
  = match rest st with
    | c :: s =>
        if cls c then (λ s', MState s' (groups st)) <$> stars ic cls s else []
    | [] => []
    end.
Proof.
  intros Hp. simpl. destruct (rest st) as [|c s]; [done|].
  rewrite Hp. destruct (cls c); [|done]. simpl. by rewrite app_nil_r.
Qed.

Lemma rmatch_group_plus_eq ic cls st :
  plain cls ic →
  ∃ t,
    rmatch ic (Group (Plus cls)) st
    = match span cls (rest st) with
      | (c :: a, b) => MState b (groups st ++ [c :: a]) :: t
      | _ => []
      end
    ∧ Forall (λ st', starts_with cls (rest st')) t.
Proof.
  intros Hp.
  change (rmatch ic (Group (Plus cls)) st)
    with ((λ st', MState (rest st') (groups st' ++ [consumed (rest st) st']))
            <$> rmatch ic (Plus cls) st).
  rewrite rmatch_plus by done.
  destruct (rest st) as [|c s] eqn:Hs; [by exists []|]. simpl span.
  destruct (cls c) eqn:Hc; [|by exists []].
  destruct (stars_shape ic cls s Hp) as (t & -> & Ht).
  pose proof (span_app_eq cls s) as Hsp.
  destruct (span cls s) as [a b]; simpl in Hsp |- *.
  eexists. split.
  - f_equal. f_equal. f_equal. f_equal. rewrite <- Hsp.
    exact (consumed_app (c :: a) (MState b (groups st))).
  - apply Forall_fmap, Forall_fmap. eapply Forall_impl; [exact Ht|]. done.
Qed.

Lemma rmatch_group_plus_cat ic cls r st :
  plain cls ic → fails_inside ic cls r →
  rmatch ic (Cat (Group (Plus cls)) r) st
  = match span cls (rest st) with
    | (c :: a, b) => rmatch ic r (MState b (groups st ++ [c :: a]))
    | _ => []
    end.
Proof.
  intros Hp Hr.
  change (rmatch ic (Cat ?a ?b) st) with (rmatch ic a st ≫= rmatch ic b).
  destruct (rmatch_group_plus_eq ic cls st Hp) as (t & -> & Ht).
  destruct (span cls (rest st)) as [[|c a] b]; [done|].
  rewrite bind_cons, bind_all_nil; [by rewrite app_nil_r|].
  eapply Forall_impl; [exact Ht|]. intros e He. by apply Hr.
Qed.

Lemma head_group_plus ic cls st :
  plain cls ic →
  head (rmatch ic (Group (Plus cls)) st)
  = match span cls (rest st) with
    | (c :: a, b) => Some (MState b (groups st ++ [c :: a]))
    | _ => None
    end.
Proof.
  intros Hp.
  destruct (rmatch_group_plus_eq ic cls st Hp) as (t & -> & Ht).
  by destruct (span cls (rest st)) as [[|c a] b].
Qed.

Lemma plain_numeral ic : plain Char.is_numeral ic.
Proof. intros c. apply in_class_numeral. Qed.

Lemma plain_space ic : plain Char.is_space ic.
Proof. intros c. apply in_class_space. Qed.

Lemma plain_unit ic : plain Char.is_unit ic.
Proof. intros c. apply in_class_unit. Qed.

Lemma chr_fails ic cls st :
  ¬ starts_with (in_class ic cls) (rest st) → rmatch ic (Chr cls) st = [].
Proof.
  simpl. destruct (rest st) as [|c s]; [done|]. simpl.
  by destruct (in_class ic cls c).
Qed.

Lemma group_plus_fails ic cls st :
  plain cls ic →
  ¬ starts_with cls (rest st) → rmatch ic (Group (Plus cls)) st = [].
Proof.
  intros Hp Hn. simpl. destruct (rest st) as [|c s]; [done|]. simpl in *.
  rewrite Hp. by destruct (cls c).
Qed.

(** The unit group cannot start on white space. *)
Lemma unit_fails_on_space ic :
  fails_inside ic Char.is_space (Group (Plus Char.is_unit)).
Proof.
  intros st Hst. apply group_plus_fails; [apply plain_unit|].
  destruct (rest st) as [|c s]; [done|]. simpl in *.
  by rewrite (space_not_unit c Hst).
Qed.

(** White space and a unit cannot start on a digit or a dot. *)
Lemma space_unit_fails_on_numeral ic :
  fails_inside ic Char.is_numeral
    (Cat (Star Char.is_space) (Group (Plus Char.is_unit))).
Proof.
  intros st Hst.
  rewrite rmatch_star_cat; [|apply plain_space|apply unit_fails_on_space].
  destruct (rest st) as [|c s] eqn:Hs; [done|]. simpl in Hst.
  apply group_plus_fails; [apply plain_unit|]. simpl.
  rewrite (numeral_not_space c Hst). simpl.
  by rewrite (numeral_not_unit c Hst).
Qed.

(** The number cannot start on white space. *)
Lemma number_unit_fails_on_space ic :
  fails_inside ic Char.is_space number_unit.
Proof.
  intros st Hst. unfold number_unit.
  rewrite rmatch_group_plus_cat;
    [|apply plain_numeral|apply space_unit_fails_on_numeral].
  destruct (rest st) as [|c s]; [done|]. simpl in *.
  by rewrite (space_not_numeral c Hst).
Qed.

(** The match of [number_unit] the engine reports is the greedy one. *)
Lemma head_number_unit ic st :
  head (rmatch ic number_unit st)
  = (λ '(n, u, r), MState r (groups st ++ [n; u])) <$> number_unit_at (rest st).
Proof.
  unfold number_unit, number_unit_at.
  rewrite rmatch_group_plus_cat;
    [|apply plain_numeral|apply space_unit_fails_on_numeral].
  destruct (span Char.is_numeral (rest st)) as [[|c n] s1].
  { by destruct (span Char.is_space s1), (span Char.is_unit _) as [[|??]?]. }
  rewrite rmatch_star_cat; [|apply plain_space|apply unit_fails_on_space].
  simpl rest. simpl groups.
  rewrite head_group_plus by apply plain_unit. simpl rest. simpl groups.
  destruct (span Char.is_space s1) as [w s2]. simpl.
  destruct (span Char.is_unit s2) as [[|d u] s3]; [done|]. simpl.
  by rewrite <- (assoc_L (++)).
Qed.

Lemma match_at_pattern4 ic s :
  match_at ic pattern4 s
  = (λ '(n, u, r), MState r [n; u]) <$> number_unit_at s.
Proof. unfold match_at, pattern4. by rewrite head_number_unit. Qed.

(** [Answer:], optional white space, then the greedy number and unit. *)
Lemma match_at_pattern1 s :
  match_at true pattern1 s
  = s' ← lit true (str "Answer:") s;
    (λ '(n, u, r), MState r [n; u])
      <$> number_unit_at (span Char.is_space s').2.
Proof.
  unfold match_at, pattern1.
  change (rmatch true (Cat ?a ?b) ?st)
    with (rmatch true a st ≫= rmatch true b).
  change (rmatch true (Lit ?p) ?st)
    with (match lit true p (rest st) with
          | Some s' => [MState s' (groups st)] | None => [] end).
  simpl rest. simpl groups.
  destruct (lit true (str "Answer:") s) as [s'|]; [|done].
  change ([?x] ≫= ?f) with (f x ++ []). rewrite app_nil_r.
  rewrite rmatch_star_cat;
    [|apply plain_space|apply number_unit_fails_on_space].
  by rewrite head_number_unit.
Qed.

(** ** [re.search] and [re.findall] *)

Lemma search_from_some ic r pos s m :
  search_from ic r pos s = Some m →
  ∃ k, m_start m = pos + k ∧ k ≤ length s
       ∧ match_at ic r (drop k s) = Some (MState (m_rest m) (m_groups m))
       ∧ ∀ j, j < k → match_at ic r (drop j s) = None.
Proof.
  revert pos. induction s as [|c s IH]; intros pos; simpl.
  - destruct (match_at ic r []) as [st|] eqn:Hm; [|done].
    intros [= <-]. exists 0. simpl. rewrite Hm.
    split_and!; [lia|lia|by destruct st|lia].
  - destruct (match_at ic r (c :: s)) as [st|] eqn:Hm.
    + intros [= <-]. exists 0. simpl. rewrite Hm.
      split_and!; [lia|lia|by destruct st|lia].
    + intros (k & Hk & Hle & Hat & Hbefore)%IH.
      exists (S k). simpl. split_and!; [lia|lia|done|].
      intros [|j] Hj; simpl; [done|]. apply Hbefore. lia.
Qed.

Lemma search_from_none ic r pos s :
  search_from ic r pos s = None →
  ∀ k, k ≤ length s → match_at ic r (drop k s) = None.
Proof.
  revert pos. induction s as [|c s IH]; intros pos; simpl.
  - destruct (match_at ic r []) eqn:Hm; [done|].
    intros _ k Hk. by replace k with 0 by lia.
  - destruct (match_at ic r (c :: s)) eqn:Hm; [done|].
    intros Hs [|k] Hk; simpl; [done|]. eapply IH; [done|lia].
Qed.

Lemma lit_app ic p x y s : lit ic p x = Some y → lit ic p (x ++ s) = Some (y ++ s).
Proof.
  revert x. induction p as [|a p IH]; simpl; intros x.
  - by intros [= ->].
  - destruct x as [|c x]; [done|]. simpl.
    destruct (chr_eq ic a c); [apply IH | done].
Qed.

Lemma span_forall cls a b :
  Forall (λ c, cls c = true) a → ¬ starts_with cls b →
  span cls (a ++ b) = (a, b).
Proof.
  intros Ha Hb. induction Ha as [|c a Hc _ IH]; simpl.
  - by apply span_nil.
  - by rewrite Hc, IH.
Qed.

(** A number, white space and a unit at the head of a text, followed by
    something that does not continue the unit, are what is read there. *)
Lemma number_unit_at_greedy n w u r :
  n ≠ [] → Forall (λ c, Char.is_numeral c = true) n →
  Forall (λ c, Char.is_space c = true) w →
  u ≠ [] → Forall (λ c, Char.is_unit c = true) u →
  ¬ starts_with Char.is_unit r →
  number_unit_at (n ++ w ++ u ++ r) = Some (n, u, r).
Proof.
  intros Hn Fn Fw Hu Fu Hr. unfold number_unit_at.
  assert (¬ starts_with Char.is_space (u ++ r)) as Hur.
  { destruct Fu as [|c u Hc _]; [done|]. simpl.
    destruct (Char.is_space c) eqn:Hs; [|done].
    by rewrite (space_not_unit c Hs) in Hc. }
  rewrite span_forall; [|done|].
  - rewrite span_forall by done. rewrite span_forall by done.
    by destruct n, u.
  - destruct Fw as [|c w Hc _]; simpl.
    + destruct Fu as [|c u Hc _]; [done|]. simpl.
      destruct (Char.is_numeral c) eqn:Hs; [|done].
      by rewrite (numeral_not_unit c Hs) in Hc.
    + by rewrite (space_not_numeral c Hc).
Qed.

(** The cascade on a text that is present. *)
Lemma parse_answer_some text :
  parse_answer (Some text)
  = match search true pattern1 text with
    | Some m => answer_of (m_groups m)
    | None =>
    match search true pattern2 text with
    | Some m => answer_of (m_groups m)
    | None =>
    match search true pattern3 text with
    | Some m => answer_of (m_groups m)
    | None =>
    match last (findall false pattern4 text) with
    | Some gs => answer_of gs
    | None => Return no_answer
    end end end end.
Proof. reflexivity. Qed.

(** ** C5: the [Answer:] marker *)

Lemma match_at_answer_4_4_A post :
  ¬ starts_with Char.is_unit post →
  match_at true pattern1 (answer_4_4_A ++ post)
  = Some (MState post [str "4.4"; str "A"]).
Proof.
  intros Hpost. rewrite match_at_pattern1.
  rewrite (lit_app true _ answer_4_4_A (str " 4.4 A")) by reflexivity.
  change (str " 4.4 A" ++ post)
    with (str " " ++ str "4.4" ++ str " " ++ str "A" ++ post).
  cbn [mbind option_bind].
  rewrite span_forall;
    [|by repeat constructor|by vm_compute].
  cbn [snd].
  by rewrite number_unit_at_greedy;
    [| |repeat constructor|repeat constructor| |repeat constructor|].
Qed.

(** C5, as stated, fails on the code in two ways: [re.search] reports the
    leftmost match of the rule, so an earlier [Answer:] marker wins; and
    the unit group is greedy, so letters right after the "A" belong to
    the unit.  Both texts contain "Answer: 4.4 A". *)
Lemma C5_counterexample :
  parse_answer (Some (str "Example: Answer: 66 ml. " ++ answer_4_4_A ++ str ""))
  = Return (mkAnswer (Some 66%Q) (Some (str "ml")) (Some (str "66 ml")))
  ∧ parse_answer (Some (str "" ++ answer_4_4_A ++ str "mps"))
    = Return (mkAnswer (Some 4.4%Q) (Some (str "Amps")) (Some (str "4.4 Amps"))).
Proof. split; vm_compute; reflexivity. Qed.

(** C5 (amended): when the leftmost match of the [Answer:] rule in
    [pre ++ "Answer: 4.4 A" ++ post] starts at that occurrence and [post]
    does not begin with a unit character, the parser returns 4.4, "A"
    and the raw span "4.4 A", whatever else [pre] and [post] hold.  And
    for every text, when the [Answer:] rule matches and its number reads
    as a float, the answer is built from that match and from no later
    rule. *)
Theorem C5_answer_marker_first :
  (∀ pre post : pystr,
     m_start <$> search true pattern1 (pre ++ answer_4_4_A ++ post)
       = Some (length pre) →
     ¬ starts_with Char.is_unit post →
     parse_answer (Some (pre ++ answer_4_4_A ++ post))
     = Return (mkAnswer (Some 4.4%Q) (Some (str "A")) (Some (str "4.4 A"))))
  ∧ (∀ (text : pystr) m v,
       search true pattern1 text = Some m →
       float (group (m_groups m) 1) = Return v →
       parse_answer (Some text)
       = Return (mkAnswer (Some v) (Some (group (m_groups m) 2))
                   (Some (group (m_groups m) 1 ++ str " "
                          ++ group (m_groups m) 2)))).
Proof.
  split.
  - intros pre post Hstart Hpost. rewrite parse_answer_some.
    destruct (search true pattern1 (pre ++ answer_4_4_A ++ post))
      as [m|] eqn:Hs; [|done].
    simpl in Hstart. injection Hstart as Hstart.
    apply search_from_some in Hs as (k & Hk & _ & Hat & _).
    assert (k = length pre) as -> by lia.
    rewrite drop_app_length, match_at_answer_4_4_A in Hat by done.
    injection Hat as _ Hg. rewrite <- Hg. reflexivity.
  - intros text m v Hs Hv. rewrite parse_answer_some, Hs.
    unfold answer_of. by rewrite Hv.
Qed.

Lemma C5_answer_marker_first_witness :
  parse_answer
    (Some (str "The needle is between 4 and 5. " ++ answer_4_4_A
           ++ str " (amperes)"))
  = Return (mkAnswer (Some 4.4%Q) (Some (str "A")) (Some (str "4.4 A")))
  ∧ parse_answer (Some (str "Answer: 66 ml. Reading: 70 ml"))
    = Return (mkAnswer (Some 66%Q) (Some (str "ml")) (Some (str "66 ml"))).
Proof.
  split.
  - apply (proj1 C5_answer_marker_first).
    + vm_compute. reflexivity.
    + vm_compute. discriminate.
  - apply (proj2 C5_answer_marker_first (str "Answer: 66 ml. Reading: 70 ml")
             (Match 0 (str ". Reading: 70 ml") [str "66"; str "ml"]) 66%Q).
    + vm_compute. reflexivity.
    + vm_compute. reflexivity.
Defined.

(** ** C6: the fallback takes the last number-unit pair *)

Lemma number_unit_at_sound s n u r :
  number_unit_at s = Some (n, u, r) →
  ∃ w, s = n ++ w ++ u ++ r
       ∧ n ≠ [] ∧ Forall (λ c, Char.is_numeral c = true) n
       ∧ Forall (λ c, Char.is_space c = true) w
       ∧ u ≠ [] ∧ Forall (λ c, Char.is_unit c = true) u
       ∧ ¬ starts_with Char.is_unit r.
Proof.
  unfold number_unit_at.
  pose proof (span_app_eq Char.is_numeral s) as E1.
  pose proof (span_all Char.is_numeral s) as F1.
  destruct (span Char.is_numeral s) as [n' s1]; simpl in *.
  pose proof (span_app_eq Char.is_space s1) as E2.
  pose proof (span_all Char.is_space s1) as F2.
  destruct (span Char.is_space s1) as [w s2]; simpl in *.
  pose proof (span_app_eq Char.is_unit s2) as E3.
  pose proof (span_all Char.is_unit s2) as F3.
  pose proof (span_stop Char.is_unit s2) as N3.
  destruct (span Char.is_unit s2) as [u' s3]; simpl in *.
  destruct n' as [|c n']; [done|]. destruct u' as [|d u']; [done|].
  intros [= <- <- <-]. exists w. subst. by split_and!.
Qed.

Lemma findall_from_skip ic r a s :
  findall_from ic r (length a) (a ++ s) = findall_from ic r 0 s.
Proof.
  induction a as [|c a IH]; [done|]. simpl.
  destruct (a ++ s) as [|x t] eqn:E; [|done].
  apply app_eq_nil in E as [-> ->]. done.
Qed.

(** [findall] with the fallback pattern, one step at a time: a pair read
    at the head of the text, then the pairs of what follows it. *)
Lemma findall_pattern4_cons c s :
  findall false pattern4 (c :: s)
  = match number_unit_at (c :: s) with
    | Some (n, u, r) => [n; u] :: findall false pattern4 r
    | None => findall false pattern4 s
    end.
Proof.
  unfold findall. simpl findall_from. rewrite match_at_pattern4.
  destruct (number_unit_at (c :: s)) as [[[n u] r]|] eqn:E; [|done].
  simpl. f_equal.
  apply number_unit_at_sound in E as (w & E & Hn & _).
  destruct n as [|c' n]; [done|]. injection E as -> ->.
  rewrite !(assoc_L (++)), length_app.
  replace (length (((n ++ w) ++ u)) + length r - length r)
    with (length ((n ++ w) ++ u)) by lia.
  apply findall_from_skip.
Qed.

Lemma span_app_stop cls x y :
  ¬ starts_with cls y →
  span cls (x ++ y) = ((span cls x).1, (span cls x).2 ++ y).
Proof.
  intros Hy. rewrite span_app, (span_nil _ _ Hy).
  destruct (span cls x) as [a [|c b]]; simpl; [by rewrite app_nil_r|done].
Qed.

Lemma span_length cls s : length (span cls s).2 ≤ length s.
Proof.
  rewrite <- (span_app_eq cls s) at 2. rewrite length_app. lia.
Qed.

(** A pair read at the head of [pre ++ needle_66_ml] ends inside [pre], or
    its unit runs on through the word "the" and stops there. *)
Lemma number_unit_before_needle pre n u r :
  number_unit_at (pre ++ needle_66_ml) = Some (n, u, r) →
  (∃ p, r = p ++ needle_66_ml ∧ length p < length pre) ∨ r = needle_tail.
Proof.
  unfold number_unit_at.
  rewrite (span_app_stop Char.is_numeral) by (by vm_compute).
  pose proof (span_app_eq Char.is_numeral pre) as E1.
  destruct (span Char.is_numeral pre) as [n' b1]; simpl in *.
  rewrite (span_app_stop Char.is_space) by (by vm_compute).
  pose proof (span_length Char.is_space b1) as L2.
  destruct (span Char.is_space b1) as [w b2]; simpl in *.
  rewrite span_app.
  pose proof (span_length Char.is_unit b2) as L3.
  destruct (span Char.is_unit b2) as [u' b3]; simpl in *.
  destruct n' as [|c n']; [by destruct b3; destruct (_ ++ _)|].
  assert (length b1 < length pre) by (rewrite <- E1; simpl; rewrite length_app; lia).
  destruct b3 as [|d b3].
  - change (span Char.is_unit needle_66_ml) with (str "the", needle_tail).
    simpl. destruct (u' ++ _); [done|]. intros [= <- <- <-]. by right.
  - destruct u' as [|? u']; [done|]. intros [= <- <- <-]. left.
    exists (d :: b3). split; [done|]. lia.
Qed.

Lemma last_cons_some {A} (x y : A) l : last l = Some y → last (x :: l) = Some y.
Proof. destruct l; [done|]. by intros <-. Qed.

(** Whatever comes before, the last pair [findall] reports in a text
    ending in "the needle points to 66 ml." is ("66", "ml"). *)
Lemma findall_needle pre :
  last (findall false pattern4 (pre ++ needle_66_ml)) = Some [str "66"; str "ml"].
Proof.
  remember (length pre) as k eqn:Hk.
  revert pre Hk. induction k as [k IH] using lt_wf_ind. intros pre ->.
  destruct pre as [|c pre]; [by vm_compute|].
  change ((c :: pre) ++ needle_66_ml) with (c :: (pre ++ needle_66_ml)).
  rewrite findall_pattern4_cons.
  change (c :: (pre ++ needle_66_ml)) with ((c :: pre) ++ needle_66_ml).
  destruct (number_unit_at _) as [[[n u] r]|] eqn:E.
  - apply last_cons_some.
    apply number_unit_before_needle in E as [(p & -> & Hp) | ->].
    + by apply (IH (length p)).
    + by vm_compute.
  - apply (IH (length pre)); simpl; [lia|done].
Qed.

(** C6: the fallback does not always return the last pair.  On
    "The reading is 5 V. Done" no marker rule matches and [re.findall]
    reports two pairs, the last of which is a full stop followed by a
    word; [float(".")] raises [ValueError] and the call ends with it,
    where the claim has the last number with its unit.  In general, when
    none of the three marker rules matches, the answer is all-absent if
    [findall] finds no pair, and otherwise the call converts the first
    group of the last pair: it returns that value with the pair's unit
    when the conversion succeeds and raises what the conversion raises
    when it does not.  For a text that ends in
    "the needle points to 66 ml." the last pair is 66 and "ml", whatever
    pairs come earlier, and the call returns it. *)
Theorem C6_fallback_raises_on_malformed_last_pair :
  (search true pattern1 (str "The reading is 5 V. Done") = None
   ∧ search true pattern2 (str "The reading is 5 V. Done") = None
   ∧ search true pattern3 (str "The reading is 5 V. Done") = None
   ∧ findall false pattern4 (str "The reading is 5 V. Done")
     = [[str "5"; str "V"]; [str "."; str "Done"]]
   ∧ float (str ".") = Raise ValueError
   ∧ parse_answer (Some (str "The reading is 5 V. Done")) = Raise ValueError)
  ∧ (∀ text : pystr,
       search true pattern1 text = None →
       search true pattern2 text = None →
       search true pattern3 text = None →
       match last (findall false pattern4 text) with
       | Some gs =>
           match float (group gs 1) with
           | Return v =>
               parse_answer (Some text)
               = Return (mkAnswer (Some v) (Some (group gs 2))
                           (Some (group gs 1 ++ str " " ++ group gs 2)))
           | Raise e => parse_answer (Some text) = Raise e
           end
       | None => parse_answer (Some text) = Return no_answer
       end)
  ∧ (∀ pre : pystr,
       search true pattern1 (pre ++ needle_66_ml) = None →
       search true pattern2 (pre ++ needle_66_ml) = None →
       search true pattern3 (pre ++ needle_66_ml) = None →
       last (findall false pattern4 (pre ++ needle_66_ml))
         = Some [str "66"; str "ml"]
       ∧ parse_answer (Some (pre ++ needle_66_ml))
         = Return (mkAnswer (Some 66%Q) (Some (str "ml")) (Some (str "66 ml")))).
Proof.
  split_and!; try (vm_compute; reflexivity).
  - intros text H1 H2 H3. rewrite parse_answer_some, H1, H2, H3.
    destruct (last (findall false pattern4 text)) as [gs|]; [|done].
    unfold answer_of. by destruct (float (group gs 1)).
  - intros pre H1 H2 H3. split; [apply findall_needle|].
    by rewrite parse_answer_some, H1, H2, H3, findall_needle.
Qed.

Lemma C6_fallback_raises_on_malformed_last_pair_witness :
  parse_answer
    (Some (str "The scale reads 0-100 ml in steps of 2 ml; " ++ needle_66_ml))
  = Return (mkAnswer (Some 66%Q) (Some (str "ml")) (Some (str "66 ml")))
  ∧ parse_answer (Some (str "Between 4 and 5 V, nearer 4.4 V"))
    = Return (mkAnswer (Some 4.4%Q) (Some (str "V")) (Some (str "4.4 V")))
  ∧ parse_answer (Some (str "The reading is 5 V. Done")) = Raise ValueError.
Proof.
  split_and!.
  - apply (proj2 (proj2 C6_fallback_raises_on_malformed_last_pair));
      vm_compute; reflexivity.
  - apply (proj1 (proj2 C6_fallback_raises_on_malformed_last_pair)
             (str "Between 4 and 5 V, nearer 4.4 V")
             eq_refl eq_refl eq_refl).
  - apply (proj1 (proj2 C6_fallback_raises_on_malformed_last_pair)
             (str "The reading is 5 V. Done") eq_refl eq_refl eq_refl).
Defined.

(** ** C10: answers are all-or-nothing *)

Lemma pattern1_tail : number_unit_tail pattern1.
Proof. repeat (first [apply tail_here | apply tail_after; [reflexivity|]]). Qed.

Lemma pattern2_tail : number_unit_tail pattern2.
Proof. repeat (first [apply tail_here | apply tail_after; [reflexivity|]]). Qed.

Lemma pattern3_tail : number_unit_tail pattern3.
Proof. repeat (first [apply tail_here | apply tail_after; [reflexivity|]]). Qed.

Lemma pattern4_tail : number_unit_tail pattern4.
Proof. apply tail_here. Qed.

Lemma rmatch_number_unit_sound ic st st' :
  st' ∈ rmatch ic number_unit st →
  ∃ n w u,
    groups st' = groups st ++ [n; u] ∧ rest st = n ++ w ++ u ++ rest st'
    ∧ n ≠ [] ∧ Forall (λ c, Char.is_numeral c = true) n
    ∧ Forall (λ c, Char.is_space c = true) w
    ∧ u ≠ [] ∧ Forall (λ c, Char.is_unit c = true) u.
Proof.
  unfold number_unit.
  change (rmatch ic (Cat ?a ?b) st) with (rmatch ic a st ≫= rmatch ic b).
  intros (st1 & H' & H1)%list_elem_of_bind.
  change (rmatch ic (Cat ?a ?b) st1) with (rmatch ic a st1 ≫= rmatch ic b) in H'.
  apply list_elem_of_bind in H' as (st2 & H3 & H2).
  apply rmatch_group_plus in H1 as (n & Hn & Fn & E1 & G1); [|apply plain_numeral].
  apply rmatch_group_plus in H3 as (u & Hu & Fu & E3 & G3); [|apply plain_unit].
  simpl in H2. apply list_elem_of_fmap in H2 as (e & -> & He).
  apply elem_of_stars in He as (w & E2 & Fw); [|apply plain_space].
  simpl in *. exists n, w, u.
  split_and!; try done.
  - by rewrite G3, G1, <- (assoc_L (++)).
  - by rewrite E1, E2, E3.
Qed.

Lemma rmatch_tail_sound ic r st st' :
  number_unit_tail r → st' ∈ rmatch ic r st →
  ∃ a n w u,
    groups st' = groups st ++ [n; u] ∧ rest st = a ++ n ++ w ++ u ++ rest st'
    ∧ n ≠ [] ∧ Forall (λ c, Char.is_numeral c = true) n
    ∧ Forall (λ c, Char.is_space c = true) w
    ∧ u ≠ [] ∧ Forall (λ c, Char.is_unit c = true) u.
Proof.
  intros Hr. revert st. induction Hr as [|pre r Hpre _ IH]; intros st H.
  - apply rmatch_number_unit_sound in H as (n & w & u & ?). by exists [], n, w, u.
  - change (rmatch ic (Cat ?a ?b) st) with (rmatch ic a st ≫= rmatch ic b) in H.
    apply list_elem_of_bind in H as (st1 & H & H1).
    apply IH in H as (a & n & w & u & G & E & ?).
    destruct (rmatch_suffix _ _ _ _ H1) as (b & E1).
    rewrite (rmatch_groupless _ _ _ _ Hpre H1) in G.
    exists (b ++ a), n, w, u. split_and!; try done; try tauto.
    by rewrite E1, E, <- (assoc_L (++)).
Qed.

Lemma match_at_sound ic r s st :
  number_unit_tail r → match_at ic r s = Some st →
  ∃ a n w u,
    groups st = [n; u] ∧ s = a ++ n ++ w ++ u ++ rest st
    ∧ n ≠ [] ∧ Forall (λ c, Char.is_numeral c = true) n
    ∧ Forall (λ c, Char.is_space c = true) w
    ∧ u ≠ [] ∧ Forall (λ c, Char.is_unit c = true) u.
Proof.
  intros Hr Hm. unfold match_at in Hm.
  apply (rmatch_tail_sound ic r (MState s []) st Hr).
  destruct (rmatch ic r _); [done|]. injection Hm as ->. by left.
Qed.

Lemma search_sound r s m :
  number_unit_tail r → search true r s = Some m → well_matched s (m_groups m).
Proof.
  intros Hr (k & _ & _ & Hat & _)%search_from_some.
  apply match_at_sound in Hat as (a & n & w & u & G & E & ?); [|done].
  simpl in *. exists n, u, (take k s ++ a), w, (m_rest m).
  split_and!; try done; try tauto.
  by rewrite <- (assoc_L (++)), <- E, take_drop.
Qed.

Lemma findall_from_sound ic r k s gs :
  gs ∈ findall_from ic r k s →
  ∃ j st, match_at ic r (drop j s) = Some st ∧ groups st = gs.
Proof.
  revert k. induction s as [|c s IH]; intros k; simpl.
  - by intros ?%elem_of_nil.
  - destruct k as [|k].
    + destruct (match_at ic r (c :: s)) as [st|] eqn:Hm.
      * intros [->|H]%elem_of_cons.
        -- by exists 0, st.
        -- apply IH in H as (j & st' & ? & ?). by exists (S j), st'.
      * intros H. apply IH in H as (j & st' & ? & ?). by exists (S j), st'.
    + intros H. apply IH in H as (j & st' & ? & ?). by exists (S j), st'.
Qed.

Lemma findall_sound r s gs :
  number_unit_tail r → gs ∈ findall false r s → well_matched s gs.
Proof.
  intros Hr (j & st & Hat & <-)%findall_from_sound.
  apply match_at_sound in Hat as (a & n & w & u & G & E & ?); [|done].
  exists n, u, (take j s ++ a), w, (rest st).
  split_and!; try done; try tauto.
  by rewrite <- (assoc_L (++)), <- E, take_drop.
Qed.

Lemma answer_of_return gs a :
  answer_of gs = Return a →
  ∃ v, float (group gs 1) = Return v
       ∧ a = mkAnswer (Some v) (Some (group gs 2))
               (Some (group gs 1 ++ str " " ++ group gs 2)).
Proof.
  unfold answer_of. destruct (float (group gs 1)) as [v|e]; [|done].
  intros [= <-]. by exists v.
Qed.

(** C10: whatever [parse_answer] returns for a text is either the
    all-absent answer, or has all three fields filled: the value is the
    float read from the matched number, the unit is the matched unit, a
    non-empty word over letters, degree sign, slash and percent, and the
    raw answer is the number, one space and the unit; number and unit
    stand in the text in this order, separated by white space only. *)
Theorem C10_all_or_nothing (text : pystr) (a : Answer) :
  parse_answer (Some text) = Return a →
  a = no_answer
  ∨ ∃ n u v,
      a = mkAnswer (Some v) (Some u) (Some (n ++ str " " ++ u))
      ∧ float n = Return v
      ∧ u ≠ [] ∧ Forall (λ c, Char.is_unit c = true) u
      ∧ n ≠ [] ∧ Forall (λ c, Char.is_numeral c = true) n
      ∧ ∃ pre w post,
          text = pre ++ n ++ w ++ u ++ post
          ∧ Forall (λ c, Char.is_space c = true) w.
Proof.
  rewrite parse_answer_some. intros H.
  assert (∀ gs, well_matched text gs → answer_of gs = Return a →
    ∃ n u v,
      a = mkAnswer (Some v) (Some u) (Some (n ++ str " " ++ u))
      ∧ float n = Return v
      ∧ u ≠ [] ∧ Forall (λ c, Char.is_unit c = true) u
      ∧ n ≠ [] ∧ Forall (λ c, Char.is_numeral c = true) n
      ∧ ∃ pre w post,
          text = pre ++ n ++ w ++ u ++ post
          ∧ Forall (λ c, Char.is_space c = true) w) as Hbuild.
  { intros gs (n & u & pre & w & post & -> & E & Hn & Fn & Fw & Hu & Fu) Ha.
    apply answer_of_return in Ha as (v & Hv & ->).
    exists n, u, v. split_and!; try done. by exists pre, w, post. }
  destruct (search true pattern1 text) as [m|] eqn:H1.
  { right. eapply Hbuild; [|exact H]. eapply search_sound; [apply pattern1_tail|done]. }
  destruct (search true pattern2 text) as [m|] eqn:H2.
  { right. eapply Hbuild; [|exact H]. eapply search_sound; [apply pattern2_tail|done]. }
  destruct (search true pattern3 text) as [m|] eqn:H3.
  { right. eapply Hbuild; [|exact H]. eapply search_sound; [apply pattern3_tail|done]. }
  destruct (last (findall false pattern4 text)) as [gs|] eqn:H4.
  - right. eapply Hbuild; [|exact H].
    eapply findall_sound; [apply pattern4_tail|].
    apply last_Some in H4 as (l & ->). apply elem_of_app. right. by left.
  - left. by injection H.
Qed.

Lemma C10_all_or_nothing_witness :
  let a := mkAnswer (Some 4.4%Q) (Some (str "A")) (Some (str "4.4 A")) in
  a = no_answer
  ∨ ∃ n u v,
      a = mkAnswer (Some v) (Some u) (Some (n ++ str " " ++ u))
      ∧ float n = Return v
      ∧ u ≠ [] ∧ Forall (λ c, Char.is_unit c = true) u
      ∧ n ≠ [] ∧ Forall (λ c, Char.is_numeral c = true) n
      ∧ ∃ pre w post,
          str "It shows 4.4 A." = pre ++ n ++ w ++ u ++ post
          ∧ Forall (λ c, Char.is_space c = true) w.
Proof.
  apply (C10_all_or_nothing (str "It shows 4.4 A.")).
  vm_compute. reflexivity.
Defined.

(** ** C7: a malformed number *)

(** C7 fails on the code: [float] is applied to group 1 without a guard,
    and [[0-9.]+] admits words that are no numerals.  With the text
    "Answer: 1.2.3 V" the first rule matches, [float("1.2.3")] raises
    [ValueError], and nothing falls through to a later rule.  The same
    happens in the fallback when the last pair that [findall] reports
    starts at a full stop, as in "... 5 V. Done". *)
Theorem C7_malformed_number_raises :
  search true pattern1 (str "Answer: 1.2.3 V")
    = Some (Match 0 [] [str "1.2.3"; str "V"])
  ∧ float (str "1.2.3") = Raise ValueError
  ∧ parse_answer (Some (str "Answer: 1.2.3 V")) = Raise ValueError
  ∧ findall false pattern4 (str "The reading is 5 V. Done")
    = [[str "5"; str "V"]; [str "."; str "Done"]]
  ∧ parse_answer (Some (str "The reading is 5 V. Done")) = Raise ValueError.
Proof. split_and!; vm_compute; reflexivity. Qed.

(** Inside [process_single] the exception is swallowed: the call returns
    [None] and nothing is saved for the item. *)
Lemma process_single_malformed_number env image_path question instrument_type w :
  image_open env (trace w) image_path = true →
  vlm_query env (trace w) image_path (create_prompt question instrument_type)
    = Text (str "Answer: 1.2.3 V") →
  (process_single env image_path question instrument_type w).2 = None.
Proof. intros Ho Hq. unfold process_single. by rewrite Ho, Hq. Qed.

(** ** C2: an absent text *)

(** C2 fails on the code: [parse_answer] has no guard for [None];
    [re.search] raises [TypeError] on it. *)
Lemma C2_counterexample :
  parse_answer None = Raise TypeError ∧ parse_answer None ≠ Return no_answer.
Proof. split; [reflexivity | discriminate]. Qed.

(** C2 (amended): the guard sits in the caller.  When the client returns
    [None], [process_single] does not call the parser and does not raise:
    it returns a record whose prediction, value and unit are all [None]
    (and [main] saves it with exit status 0). *)
Theorem C2_absent_response_is_guarded
    env image_path question instrument_type w :
  image_open env (trace w) image_path = true →
  vlm_query env (trace w) image_path (create_prompt question instrument_type)
    = NoResponse →
  ∃ r, (process_single env image_path question instrument_type w).2 = Some r
       ∧ prediction r = None
       ∧ predicted_value r = None
       ∧ predicted_unit r = None.
Proof.
  intros Ho Hq. unfold process_single. rewrite Ho, Hq. simpl.
  eexists. by split_and!.
Qed.

Lemma C2_absent_response_is_guarded_witness :
  ∃ r, (process_single silent_env (str "images/q1.png") (str "What?")
          None (mkWorld None [])).2 = Some r
       ∧ prediction r = None
       ∧ predicted_value r = None
       ∧ predicted_unit r = None.
Proof.
  apply (C2_absent_response_is_guarded silent_env); reflexivity.
Defined.

(** ** C8: comparing units *)

Lemma lstrip_spec s :
  ∃ l, s = l ++ lstrip s
       ∧ Forall (λ c, Char.is_space c = true) l
       ∧ ¬ starts_with Char.is_space (lstrip s).
Proof.
  induction s as [|c s (l & E & Fl & Hn)]; simpl.
  - exists []. split_and!; [done|constructor|tauto].
  - destruct (Char.is_space c) eqn:Hc.
    + exists (c :: l). split_and!; [by rewrite E at 1|by constructor|done].
    + exists []. split_and!; [done|constructor|]. simpl. by rewrite Hc.
Qed.

(** [strip] removes white space at both ends and nothing else. *)
Lemma strip_spec s :
  ∃ l r, s = l ++ strip s ++ r
         ∧ Forall (λ c, Char.is_space c = true) l
         ∧ Forall (λ c, Char.is_space c = true) r
         ∧ ¬ starts_with Char.is_space (strip s)
         ∧ ¬ starts_with Char.is_space (reverse (strip s)).
Proof.
  unfold strip, rstrip.
  destruct (lstrip_spec s) as (l & E & Fl & Hl).
  destruct (lstrip_spec (reverse (lstrip s))) as (r & Er & Fr & Hr).
  exists l, (reverse r).
  assert (lstrip s = reverse (lstrip (reverse (lstrip s))) ++ reverse r) as E'.
  { rewrite <- reverse_app, <- Er. by rewrite reverse_involutive. }
  split_and!.
  - by rewrite <- E'.
  - done.
  - by apply Forall_reverse.
  - rewrite E' in Hl.
    destruct (reverse (lstrip (reverse (lstrip s)))); [simpl; tauto | exact Hl].
  - by rewrite reverse_involutive.
Qed.

Lemma lower_length s : length (lower s) = length s.
Proof. unfold lower. apply length_fmap. Qed.

(** The unit check printed by [run_single_image.py]: true exactly when no
    unit is expected, or both units are present and not empty and equal
    after lower-casing. *)
Lemma display_unit_correct_spec pred_unit gt_unit :
  display_unit_correct pred_unit gt_unit = true
  ↔ gt_unit = None
    ∨ ∃ p g, pred_unit = Some p ∧ gt_unit = Some g
             ∧ p ≠ [] ∧ g ≠ [] ∧ lower p = lower g.
Proof.
  unfold display_unit_correct.
  destruct (truthy pred_unit && truthy gt_unit) eqn:Ht;
    rewrite bool_decide_eq_true.
  - apply andb_true_iff in Ht as [Hp Hg].
    destruct pred_unit as [[|a p]|]; try done.
    destruct gt_unit as [[|b g]|]; try done.
    split.
    + intros E. right. exists (a :: p), (b :: g).
      split_and!; [done|done|done|done|]. apply (inj Some). exact E.
    + intros [[=]|(? & ? & [= <-] & [= <-] & _ & _ & E)].
      change (Some (lower (a :: p)) = Some (lower (b :: g))). by f_equal.
  - split; [by left|].
    intros [?|(p & g & -> & -> & Hp & Hg & _)]; [done|].
    by destruct p, g.
Qed.

(** C8 fails for the check printed by [run_single_image.py]: it does not
    strip, so " A " does not match "A", and it is true for any predicted
    unit when no unit is expected; the evaluator's check gives the
    opposite answers on both. *)
Lemma C8_counterexample :
  display_unit_correct (Some (str " A ")) (Some (str "A")) = false
  ∧ is_unit_correct (Some (str " A ")) (Some (str "A")) = true
  ∧ display_unit_correct (Some (str "A")) None = true
  ∧ is_unit_correct (Some (str "A")) None = false.
Proof. split_and!; reflexivity. Qed.

(** C8 (amended): there are two unit checks.  The evaluator's
    [is_unit_correct] is false when either side is [None]; otherwise it
    is true exactly when the two units are equal after lower-casing and
    stripping both, where stripping removes the white space at both ends
    and nothing else.  So "A" matches "a", " A " matches "A", and an absent
    prediction matches nothing.  The check that [run_single_image.py]
    prints is true exactly when no unit is expected, or both units are
    present, not empty, and equal after lower-casing without stripping;
    whenever both units are present and it says yes, the evaluator says
    yes too. *)
Theorem C8_unit_matches :
  (∀ ground_truth, is_unit_correct None ground_truth = false)
  ∧ (∀ predicted, is_unit_correct predicted None = false)
  ∧ (∀ p g, is_unit_correct (Some p) (Some g) = true
            ↔ strip (lower p) = strip (lower g))
  ∧ (∀ s, ∃ l r, s = l ++ strip s ++ r
                 ∧ Forall (λ c, Char.is_space c = true) l
                 ∧ Forall (λ c, Char.is_space c = true) r
                 ∧ ¬ starts_with Char.is_space (strip s)
                 ∧ ¬ starts_with Char.is_space (reverse (strip s)))
  ∧ is_unit_correct (Some (str "A")) (Some (str "a")) = true
  ∧ is_unit_correct (Some (str " A ")) (Some (str "A")) = true
  ∧ is_unit_correct None (Some (str "A")) = false
  ∧ (∀ pred_unit gt_unit,
       display_unit_correct pred_unit gt_unit = true
       ↔ gt_unit = None
         ∨ ∃ p g, pred_unit = Some p ∧ gt_unit = Some g
                  ∧ p ≠ [] ∧ g ≠ [] ∧ lower p = lower g)
  ∧ (∀ p g, display_unit_correct (Some p) (Some g) = true →
            is_unit_correct (Some p) (Some g) = true)
  ∧ display_unit_correct (Some (str "A")) (Some (str "a")) = true
  ∧ display_unit_correct None (Some (str "A")) = false.
Proof.
  split_and!; try reflexivity.
  - by intros [].
  - intros p g. simpl. apply bool_decide_eq_true.
  - apply strip_spec.
  - apply display_unit_correct_spec.
  - intros p g [[=]|(? & ? & [= <-] & [= <-] & _ & _ & E)]%display_unit_correct_spec.
    simpl. apply bool_decide_eq_true. by rewrite E.
Qed.

Lemma C8_unit_matches_witness :
  is_unit_correct (Some (str "mL")) (Some (str "ml")) = true.
Proof.
  apply (proj1 (proj2 (proj2 (proj2 (proj2 (proj2 (proj2 (proj2 (proj2
           C8_unit_matches)))))))) (str "mL") (str "ml")).
  reflexivity.
Defined.

(** ** C9: scoring a batch *)

(** C9 fails on the code.  For an item without ground truth
    [run_single_image.py] saves the interval [[None, None]];
    [is_value_correct] only guards against an interval that is [None], so
    on such a record with a predicted value it evaluates [None <= 4.4],
    and [evaluate] raises [TypeError] instead of counting the record as
    not correct. *)
Theorem C9_null_interval_raises :
  predictions_file
    (main (answering (str "Answer: 4.4 A")) [ammeter_item] (str "q1")
       (mkWorld None [])).1
  = Some [saved_without_ground_truth]
  ∧ is_value_correct (Some 4.4%Q) (Some (None, None)) = Raise TypeError
  ∧ evaluate [saved_without_ground_truth] = Raise TypeError.
Proof. split_and!; vm_compute; reflexivity. Qed.

(** What does hold: on records with usable intervals scoring returns, and
    returns what the specification says. *)
Lemma is_value_correct_numeric p lo hi :
  is_value_correct (Some p) (Some (Some lo, Some hi))
  = Return (Qle_bool lo p && Qle_bool p hi).
Proof. unfold is_value_correct. simpl. by destruct (Qle_bool lo p). Qed.

Lemma value_ok_inclusive pred :
  value_ok pred = true
  ↔ ∃ p lo hi, predicted_value pred = Some p
               ∧ ground_truth pred ≫= gt_interval = Some (Some lo, Some hi)
               ∧ (lo <= p)%Q ∧ (p <= hi)%Q.
Proof.
  unfold value_ok.
  destruct (predicted_value pred) as [p|]; [|split; [done|by intros (?&?&?&?&?)]].
  destruct (ground_truth pred ≫= gt_interval) as [[[lo|] [hi|]]|];
    try (split; [done|by intros (?&?&?&?&?&?)]).
  rewrite andb_true_iff, !Qle_bool_iff. split.
  - intros [??]. by exists p, lo, hi.
  - by intros (?&?&?&[= <-]&[= <- <-]&?&?).
Qed.

Lemma judge_numeric pred :
  numeric_interval pred → judge pred = Return (verdict pred).
Proof.
  unfold numeric_interval, judge, verdict, value_ok, unit_ok.
  destruct (predicted_value pred) as [p|]; [|done].
  destruct (ground_truth pred ≫= gt_interval) as [[lo hi]|]; [|done].
  intros [[lo' ->] [hi' ->]]. by rewrite is_value_correct_numeric.
Qed.

Lemma count_cons f pred l : count f (pred :: l) = bump (f pred) 0 + count f l.
Proof. unfold count. simpl. by destruct (f pred). Qed.

Lemma evaluate_loop_numeric preds c :
  Forall numeric_interval preds →
  evaluate_loop preds c
  = Return (mkCounters (c_value c + count value_ok preds)
              (c_unit c + count unit_ok preds)
              (c_both c + count (λ p, value_ok p && unit_ok p) preds)
              (c_details c ++ (verdict <$> preds))).
Proof.
  intros H. revert c. induction H as [|pred preds Hp _ IH]; intros c.
  - simpl. destruct c. simpl. by rewrite !Nat.add_0_r, app_nil_r.
  - simpl. rewrite (judge_numeric pred Hp). simpl. rewrite IH. simpl.
    rewrite !count_cons, <- (assoc_L (++)). simpl.
    f_equal. f_equal; destruct (value_ok pred), (unit_ok pred); simpl; lia.
Qed.

Lemma evaluate_numeric preds :
  Forall numeric_interval preds →
  evaluate preds
  = Return (mkMetrics (length preds)
              (accuracy (count value_ok preds) (length preds))
              (accuracy (count unit_ok preds) (length preds))
              (accuracy (count (λ p, value_ok p && unit_ok p) preds)
                 (length preds))
              (count value_ok preds) (count unit_ok preds)
              (count (λ p, value_ok p && unit_ok p) preds),
            verdict <$> preds).
Proof.
  intros H. unfold evaluate. by rewrite (evaluate_loop_numeric preds _ H).
Qed.

Lemma accuracy_zero n : accuracy n 0 = 0%Q.
Proof. reflexivity. Qed.

Lemma accuracy_div n total :
  total ≠ 0%nat →
  (accuracy n total == inject_Z (Z.of_nat n) / inject_Z (Z.of_nat total))%Q.
Proof.
  unfold accuracy. destruct total as [|t]; [done|]. intros _.
  change (0 <? S t)%nat with true. cbv iota.
  rewrite Qmake_Qdiv. by rewrite <- (positive_nat_Z (Pos.of_nat (S t))), Nat2Pos.id.
Qed.

Lemma evaluate_empty :
  evaluate [] = Return (mkMetrics 0 0 0 0 0 0 0, []).
Proof. reflexivity. Qed.
(** ** The command line of the child process *)

Lemma words_from_app_blank word s t :
  words_from word (s ++ " "%char :: t) = words_from word s ++ words t.
Proof.
  revert word. induction s as [|c s IH]; intros word; simpl.
  - by destruct word.
  - destruct (is_blank c); [|apply IH].
    destruct word; simpl; by rewrite IH.
Qed.

Lemma words_from_plain word s :
  Forall (λ c, is_blank c = false) s →
  words_from word s
  = match reverse s ++ word with [] => [] | w => [reverse w] end.
Proof.
  intros Hs. revert word. induction Hs as [|c s Hc _ IH]; intros word; simpl.
  - by destruct word.
  - rewrite Hc, IH, reverse_cons, <- (assoc_L (++)). done.
Qed.

Lemma words_cmd image_id :
  words (cmd image_id)
  = str "python" :: str "run_single_image.py" :: str "--image_id"
    :: words image_id ++ [str "--model"; MODEL].
Proof.
  unfold cmd, words.
  change (str "python run_single_image.py --image_id "
          ++ image_id ++ str " --model " ++ MODEL)
    with (str "python" ++ " "%char
            :: (str "run_single_image.py" ++ " "%char
                  :: (str "--image_id" ++ " "%char
                        :: (image_id ++ " "%char
                              :: (str "--model" ++ " "%char :: MODEL))))).
  repeat (rewrite words_from_app_blank; unfold words).
  reflexivity.
Qed.

(** The command line is read when the id is. *)
Lemma sh_words_cmd image_id :
  sh_words (cmd image_id)
  = if forallb (λ c, is_blank c || plain_char c) image_id
    then Some (str "python" :: str "run_single_image.py" :: str "--image_id"
               :: words image_id ++ [str "--model"; MODEL])
    else None.
Proof.
  unfold sh_words. rewrite words_cmd. unfold cmd.
  rewrite !forallb_app.
  change (forallb _ (str "python run_single_image.py --image_id "))
    with true.
  change (forallb _ (str " --model ")) with true.
  change (forallb _ MODEL) with true.
  by rewrite andb_true_l, !andb_true_r.
Qed.

Lemma plain_char_not_blank c : plain_char c = true → is_blank c = false.
Proof. by_char c. Qed.

Lemma reading_plain_word image_id :
  plain_word image_id → reading image_id = Argument.
Proof.
  destruct image_id as [|c s]; [done|]. intros [_ Hc].
  unfold reading. destruct c as [[] [] [] [] [] [] [] []]; try done.
Qed.

Lemma invocation_plain image_id :
  plain_word image_id → invocation image_id = Runs image_id.
Proof.
  intros Hw. pose proof (reading_plain_word _ Hw) as Hr.
  destruct image_id as [|c s]; [done|]. destruct Hw as [Hp Hc].
  unfold invocation. rewrite sh_words_cmd.
  assert (forallb (λ c, is_blank c || plain_char c) (c :: s) = true) as ->.
  { apply forallb_forall. intros x Hx%list_elem_of_In.
    rewrite Forall_forall in Hp. rewrite (Hp x Hx). apply orb_true_r. }
  unfold words.
  rewrite words_from_plain
    by (eapply Forall_impl; [done|apply plain_char_not_blank]).
  rewrite app_nil_r.
  destruct (reverse (c :: s)) as [|x r] eqn:Hrev.
  { apply (f_equal length) in Hrev. by rewrite length_reverse in Hrev. }
  rewrite <- Hrev, reverse_involutive.
  cbn [app parse_args]. rewrite bool_decide_eq_true_2 by done.
  by rewrite Hr.
Qed.

(** What the child can be: the script on some id, a usage error that
    changes nothing, or a command line that is not read. *)
Lemma subprocess_run_cases env dataset image_id w :
  subprocess_run env dataset image_id w = None
  ∨ subprocess_run env dataset image_id w = Some (w, 2)
  ∨ ∃ image_id', subprocess_run env dataset image_id w
                 = Some (main env dataset image_id' w).
Proof.
  unfold subprocess_run. destruct (invocation image_id); eauto.
Qed.

(** What holds before the run and is kept by every child holds after
    it. *)
Lemma run_loop_keeps (P : World → Prop) env dataset processed_ids items w :
  (∀ image_id w, P w → P (main env dataset image_id w).1) →
  P w → P (run_loop env dataset processed_ids items w).1.
Proof.
  intros Hmain. revert w.
  induction items as [|item items IH]; intros w Hw; simpl; [done|].
  case_bool_decide; [by apply IH|].
  destruct (subprocess_run_cases env dataset (i_question_id item) w)
    as [->|[->|[id' ->]]]; [done| |].
  - by rewrite bool_decide_eq_true_2.
  - specialize (Hmain id' w Hw).
    destruct (main env dataset id' w) as [w1 returncode].
    case_bool_decide; [done|by apply IH].
Qed.

Lemma subprocess_run_plain env dataset image_id w :
  plain_word image_id →
  subprocess_run env dataset image_id w = Some (main env dataset image_id w).
Proof. intros Hp. unfold subprocess_run. by rewrite invocation_plain. Qed.

Example invocation_examples :
  invocation (str "real_world_0363") = Runs (str "real_world_0363")
  ∧ invocation (str " q1 ") = Runs (str "q1")
  ∧ invocation (str "-5") = Runs (str "-5")
  ∧ invocation (str "") = UsageError
  ∧ invocation (str "q 1") = UsageError
  ∧ invocation (str "-q1") = UsageError
  ∧ invocation (str "q1 -h") = Unread
  ∧ invocation (str "q1;ls") = Unread
  ∧ invocation (str "-5x") = Unread.
Proof. by vm_compute. Qed.

Lemma three_items_plain : plain_ids three_items.
Proof. repeat constructor; by vm_compute. Qed.


(** ** C4: a record is replaced in place *)

Lemma upsert_present all_predictions result :
  question_id result ∈ question_id <$> all_predictions →
  ∃ i old,
    all_predictions !! i = Some old
    ∧ question_id old = question_id result
    ∧ (∀ j y, all_predictions !! j = Some y → j < i →
              question_id y ≠ question_id result)
    ∧ upsert all_predictions result = <[i := result]> all_predictions.
Proof.
  intros (old & Hid & Hin)%list_elem_of_fmap.
  destruct (list_find_elem_of (λ pred, question_id pred = question_id result)
              all_predictions old Hin (eq_sym Hid)) as [[i x] Hf].
  unfold upsert. rewrite Hf.
  apply list_find_Some in Hf as (Hi & Hx & Hfirst).
  by exists i, x.
Qed.

Lemma upsert_absent all_predictions result :
  question_id result ∉ question_id <$> all_predictions →
  upsert all_predictions result = all_predictions ++ [result].
Proof.
  intros Hn. unfold upsert.
  destruct (list_find _ all_predictions) as [[i x]|] eqn:Hf; [|done].
  apply list_find_Some in Hf as (Hi & Hx & _).
  destruct Hn. apply list_elem_of_fmap. exists x. split; [done|].
  by eapply list_elem_of_lookup_2.
Qed.

Lemma upsert_ids_present all_predictions result :
  question_id result ∈ question_id <$> all_predictions →
  question_id <$> upsert all_predictions result
  = question_id <$> all_predictions.
Proof.
  intros (i & old & Hi & Hid & _ & ->)%upsert_present.
  rewrite list_fmap_insert. apply list_insert_id.
  by rewrite list_lookup_fmap, Hi, <- Hid.
Qed.

Lemma upsert_unique all_predictions result :
  unique_ids all_predictions → unique_ids (upsert all_predictions result).
Proof.
  unfold unique_ids. intros Hu.
  destruct (decide (question_id result ∈ question_id <$> all_predictions))
    as [Hin|Hn].
  - by rewrite upsert_ids_present.
  - rewrite upsert_absent, fmap_app by done. apply NoDup_app.
    split_and!; [done| |apply NoDup_singleton].
    intros x Hx ->%list_elem_of_singleton. done.
Qed.

Lemma kept_unique_query p q w : kept_unique w → kept_unique (log (Query p q) w).
Proof.
  intros [Hf Hw]. split; [done|]. simpl. unfold writes in *.
  by rewrite omap_app, app_nil_r.
Qed.

Lemma save_kept_unique result w : kept_unique w → kept_unique (save result w).
Proof.
  intros [Hf Hw].
  assert (unique_ids
            match predictions_file w with
            | Some all_predictions => upsert all_predictions result
            | None => [result]
            end) as Hu.
  { destruct (predictions_file w) as [l|].
    - apply upsert_unique. by apply Hf.
    - apply NoDup_singleton. }
  split; simpl.
  - by intros l [= <-].
  - unfold writes in *. rewrite omap_app. apply Forall_app. split; [done|].
    by repeat constructor.
Qed.

Lemma process_single_kept_unique env image_path question instrument_type w :
  kept_unique w →
  kept_unique (process_single env image_path question instrument_type w).1.
Proof.
  intros Hk. unfold process_single.
  destruct (image_open _ _ _); [|done].
  destruct (vlm_query _ _ _ _) as [t| |]; simpl;
    [|by apply kept_unique_query..].
  destruct (parse_answer (Some t)); by apply kept_unique_query.
Qed.

Lemma main_kept_unique env dataset image_id w :
  kept_unique w → kept_unique (main env dataset image_id w).1.
Proof.
  intros Hk. unfold main.
  destruct (find_image_in_dataset dataset image_id) as [item|]; [|done].
  destruct (client_init env (trace w)); [|done].
  pose proof (process_single_kept_unique env (i_image_path item)
                (i_question item)
                (Some (default (str "Unknown") (i_image_type item))) w Hk) as H.
  destruct (process_single _ _ _ _ _) as [w' [result|]]; [|done].
  by apply save_kept_unique.
Qed.

Lemma run_loop_kept_unique env dataset processed_ids items w :
  kept_unique w → kept_unique (run_loop env dataset processed_ids items w).1.
Proof.
  apply (run_loop_keeps kept_unique). intros image_id w'.
  apply main_kept_unique.
Qed.

Lemma process_single_file_kept env image_path asked instrument_type w :
  predictions_file (process_single env image_path asked instrument_type w).1
  = predictions_file w.
Proof.
  unfold process_single. destruct (image_open _ _ _); [|done].
  destruct (vlm_query _ _ _ _); try done.
  by destruct (parse_answer _).
Qed.

(** C4, as stated, fails on the code: the record of a result is filed
    under the stem of the image path, not under the question id of the
    item.  Item q1 with the image [ammeter_front.png] is processed while
    the collection holds records for q1 and q2: a third record,
    "ammeter_front", is appended, and the record of q1 stays as it
    was. *)
Lemma C4_counterexample :
  let w := mkWorld (Some [saved_without_ground_truth; saved_q2]) [] in
  let w' := (main (answering (str "Answer: 5 A")) [misnamed_item] (str "q1") w).1 in
  i_question_id misnamed_item ∈ ids_of w
  ∧ ids_of w' = [str "q1"; str "q2"; str "ammeter_front"]
  ∧ length (default [] (predictions_file w')) = 3
  ∧ default [] (predictions_file w') !! 0 = Some saved_without_ground_truth.
Proof.
  split; [apply (bool_decide_unpack _); vm_compute; exact I|].
  vm_compute. done.
Qed.

(** C4 (amended): when [run_single_image.py] has a result for an item and
    the collection already holds a record under the id of the result
    (the stem of the image path, which is the question id of the item
    when the image file is named after it), the first record with that id
    is overwritten at its index by the new record (the result with the
    ground truth of the item) and nothing is appended: the length, the
    sequence of ids and every other record stay as they were.  A
    collection with unique ids has unique ids after the update, and so
    has everything a run of the single-image script or of the batch
    runner writes, when the file it starts from has unique ids or does
    not exist. *)
Theorem C4_replace_in_place :
  (∀ env dataset image_id item w all_predictions result,
     find_image_in_dataset dataset image_id = Some item →
     client_init env (trace w) = true →
     (process_single env (i_image_path item) (i_question item)
        (Some (default (str "Unknown") (i_image_type item))) w).2
     = Some result →
     predictions_file w = Some all_predictions →
     stem (i_image_path item) ∈ question_id <$> all_predictions →
     let saved :=
       mkPrediction (stem (i_image_path item)) (question result)
         (prediction result) (predicted_value result) (predicted_unit result)
         (image_type result)
         (Some (default missing_ground_truth (i_ground_truth item))) in
     let w' := (main env dataset image_id w).1 in
     ∃ i old,
       all_predictions !! i = Some old
       ∧ question_id old = stem (i_image_path item)
       ∧ (∀ j y, all_predictions !! j = Some y → j < i →
                 question_id y ≠ stem (i_image_path item))
       ∧ predictions_file w' = Some (<[i := saved]> all_predictions)
       ∧ length (<[i := saved]> all_predictions) = length all_predictions
       ∧ ids_of w' = ids_of w
       ∧ last (writes (trace w')) = Some (<[i := saved]> all_predictions))
  ∧ (∀ env dataset image_id item w all_predictions result,
       find_image_in_dataset dataset image_id = Some item →
       client_init env (trace w) = true →
       (process_single env (i_image_path item) (i_question item)
          (Some (default (str "Unknown") (i_image_type item))) w).2
       = Some result →
       predictions_file w = Some all_predictions →
       stem (i_image_path item) = i_question_id item →
       i_question_id item ∈ question_id <$> all_predictions →
       let w' := (main env dataset image_id w).1 in
       length (default [] (predictions_file w')) = length all_predictions
       ∧ ids_of w' = ids_of w
       ∧ ∃ i old saved,
           all_predictions !! i = Some old
           ∧ question_id old = i_question_id item
           ∧ question_id saved = i_question_id item
           ∧ prediction saved = prediction result
           ∧ predicted_value saved = predicted_value result
           ∧ predicted_unit saved = predicted_unit result
           ∧ predictions_file w' = Some (<[i := saved]> all_predictions))
  ∧ (∀ all_predictions result,
       question_id result ∈ question_id <$> all_predictions →
       length (upsert all_predictions result) = length all_predictions
       ∧ question_id <$> upsert all_predictions result
         = question_id <$> all_predictions
       ∧ ∃ i old,
           all_predictions !! i = Some old
           ∧ question_id old = question_id result
           ∧ upsert all_predictions result = <[i := result]> all_predictions)
  ∧ (∀ all_predictions result,
       unique_ids all_predictions →
       unique_ids (upsert all_predictions result))
  ∧ (∀ env dataset image_id w,
       kept_unique w → kept_unique (main env dataset image_id w).1)
  ∧ (∀ env dataset w,
       kept_unique w → kept_unique (run_evaluation env dataset w).1)
  ∧ kept_unique (mkWorld None []).
Proof.
  assert (∀ env dataset image_id item w all_predictions result,
     find_image_in_dataset dataset image_id = Some item →
     client_init env (trace w) = true →
     (process_single env (i_image_path item) (i_question item)
        (Some (default (str "Unknown") (i_image_type item))) w).2
     = Some result →
     predictions_file w = Some all_predictions →
     stem (i_image_path item) ∈ question_id <$> all_predictions →
     let saved :=
       mkPrediction (stem (i_image_path item)) (question result)
         (prediction result) (predicted_value result) (predicted_unit result)
         (image_type result)
         (Some (default missing_ground_truth (i_ground_truth item))) in
     let w' := (main env dataset image_id w).1 in
     ∃ i old,
       all_predictions !! i = Some old
       ∧ question_id old = stem (i_image_path item)
       ∧ (∀ j y, all_predictions !! j = Some y → j < i →
                 question_id y ≠ stem (i_image_path item))
       ∧ predictions_file w' = Some (<[i := saved]> all_predictions)
       ∧ length (<[i := saved]> all_predictions) = length all_predictions
       ∧ ids_of w' = ids_of w
       ∧ last (writes (trace w')) = Some (<[i := saved]> all_predictions))
    as Hmain.
  { intros env dataset image_id item w l result Hf Hi Hp Hl Hin saved w'.
    subst w'. unfold main. rewrite Hf, Hi.
    pose proof (process_single_file_kept env (i_image_path item)
                  (i_question item)
                  (Some (default (str "Unknown") (i_image_type item))) w) as Hpf.
    assert (question_id result = stem (i_image_path item)) as Hid.
    { revert Hp. unfold process_single.
      destruct (image_open _ _ _); [|done].
      destruct (vlm_query _ _ _ _); [|by intros [= <-]|done].
      destruct (parse_answer _); [by intros [= <-]|done]. }
    destruct (process_single _ _ _ _ _) as [w1 r]. simpl in Hp, Hpf.
    subst r. rewrite Hl in Hpf. rewrite Hid.
    cbv beta iota zeta delta [fst snd]. fold saved.
    assert (question_id saved ∈ question_id <$> l) as Hin' by done.
    destruct (upsert_present l saved Hin') as (i & old & Ho & Hoid & Hfirst & Hu).
    exists i, old. unfold save. rewrite Hpf, Hu. simpl.
    split_and!; [done|done|done|done|apply length_insert| |].
    - unfold ids_of. simpl. rewrite Hl. simpl.
      rewrite list_fmap_insert. apply list_insert_id.
      rewrite list_lookup_fmap, Ho. simpl. by rewrite Hoid.
    - unfold writes. rewrite omap_app. simpl. by rewrite last_snoc. }
  split_and!.
  - exact Hmain.
  - intros env dataset image_id item w l result Hf Hi Hp Hl Hstem Hin w'.
    rewrite <- Hstem in Hin.
    destruct (Hmain env dataset image_id item w l result Hf Hi Hp Hl Hin)
      as (i & old & Ho & Hoid & _ & Hfile & Hlen & Hids & _).
    subst w'. rewrite Hfile. simpl. split; [done|]. split; [done|].
    eexists i, old, _. rewrite <- Hstem.
    split; [exact Ho|]. split; [exact Hoid|].
    split; [|split; [|split; [|split; [|reflexivity]]]]; reflexivity.
  - intros l result Hin. split_and!.
    + apply upsert_present in Hin as (i & old & _ & _ & _ & ->).
      apply length_insert.
    + by apply upsert_ids_present.
    + apply upsert_present in Hin as (i & old & ? & ? & _ & ?). by exists i, old.
  - apply upsert_unique.
  - apply main_kept_unique.
  - intros env dataset w. apply run_loop_kept_unique.
  - split; [done|constructor].
Qed.

(** Item q1 is processed a second time, with another output of the
    producer, while the collection holds records for q1 and q2: the
    record of q1 is replaced, the one of q2 is untouched. *)
Lemma C4_replace_in_place_witness :
  let w := mkWorld (Some [saved_without_ground_truth; saved_q2]) [] in
  let w' := (main (answering (str "Answer: 5 A")) [ammeter_item] (str "q1") w).1 in
  ∃ i old,
    [saved_without_ground_truth; saved_q2] !! i = Some old
    ∧ question_id old = str "q1"
    ∧ predictions_file w' = Some [second_reading_q1; saved_q2]
    ∧ ids_of w' = ids_of w.
Proof.
  destruct (proj1 C4_replace_in_place (answering (str "Answer: 5 A"))
              [ammeter_item] (str "q1") ammeter_item
              (mkWorld (Some [saved_without_ground_truth; saved_q2]) [])
              [saved_without_ground_truth; saved_q2]
              (mkPrediction (str "q1")
                 (Some (str "What is the reading of the ammeter?"))
                 (Some (str "Answer: 5 A")) (Some 5%Q) (Some (str "A"))
                 (Some (str "ammeter")) None))
    as (i & old & Ho & Hoid & Hfirst & Hfile & Hlen & Hids & Hlast).
  - reflexivity.
  - reflexivity.
  - vm_compute. reflexivity.
  - reflexivity.
  - apply (bool_decide_unpack _). vm_compute. exact I.
  - exists i, old. split; [exact Ho|]. split; [exact Hoid|].
    split; [|exact Hids]. vm_compute. reflexivity.
Defined.

Example upsert_replaces :
  upsert [saved_without_ground_truth; saved_q2] second_reading_q1
  = [second_reading_q1; saved_q2].
Proof. reflexivity. Qed.

Example upsert_appends :
  upsert [saved_without_ground_truth] saved_q2
  = [saved_without_ground_truth; saved_q2].
Proof. reflexivity. Qed.

(** ** C1 and C3: the batch runner *)

(** C1, as stated, fails on the code.  The runner stops only on a
    non-zero exit status of [run_single_image.py], and a failure of the
    producer does not produce one.  When the client returns [None] for
    q2, [process_single] returns a record with absent prediction, the
    script saves it and exits with 0, and the loop goes on: the file ends
    up with records for q1, q2 and q3, and the producer is called for
    q3. *)
Lemma C1_counterexample :
  let '(w, status) :=
    run_evaluation (except_on (str "images/q2.png") NoResponse)
      three_items fresh in
  status = Done
  ∧ ids_of w = [str "q1"; str "q2"; str "q3"]
  ∧ (prediction <$> default [] (predictions_file w))
    = [Some (str "Answer: 4.4 A"); None; Some (str "Answer: 4.4 A")]
  ∧ queries (trace w)
    = [str "images/q1.png"; str "images/q2.png"; str "images/q3.png"].
Proof. vm_compute. split_and!; reflexivity. Qed.

Lemma run_loop_app env dataset processed_ids before after w :
  run_loop env dataset processed_ids (before ++ after) w
  = match run_loop env dataset processed_ids before w with
    | (w1, Done) => run_loop env dataset processed_ids after w1
    | (w1, Stopped) => (w1, Stopped)
    | (w1, Outside) => (w1, Outside)
    end.
Proof.
  revert w. induction before as [|item before IH]; intros w; simpl; [done|].
  case_bool_decide; [apply IH|].
  destruct (subprocess_run _ _ _ _) as [[w' returncode]|]; [|done].
  case_bool_decide; [done|apply IH].
Qed.

(** A child process that ends with a non-zero status has changed
    nothing. *)
Lemma main_nonzero env dataset image_id w :
  (main env dataset image_id w).2 ≠ 0%nat →
  (main env dataset image_id w).1 = w.
Proof.
  unfold main.
  destruct (find_image_in_dataset dataset image_id) as [item|]; [|done].
  destruct (client_init env (trace w)); [|done].
  destruct (process_single _ _ _ _ _) as [w' [result|]]; done.
Qed.

Lemma subprocess_run_nonzero env dataset image_id w w' returncode :
  subprocess_run env dataset image_id w = Some (w', returncode) →
  returncode ≠ 0%nat →
  w' = w.
Proof.
  destruct (subprocess_run_cases env dataset image_id w)
    as [->|[->|[id' ->]]]; [done|by intros [= <- <-]|].
  intros [= H] Hrc. pose proof (main_nonzero env dataset id' w) as Hm.
  rewrite H in Hm. by apply Hm.
Qed.

(** C1 (amended): the batch stops at the first item for which the child
    process [run_single_image.py] ends with a non-zero exit status.  The
    world is then the one left by the items before it: their records are
    in the file, nothing is saved for the failing item, and the producer
    is not called for any later item.  For an id that reaches the script
    as it is (every plain word does, [invocation_plain]) the child is the
    script run on that id, so this is the case when the script itself
    ends with a non-zero status.  A producer that fails by
    returning [None] does not stop the batch: the child saves a record
    with absent prediction, value and unit and ends with status 0. *)
Theorem C1_stops_on_exit_status :
  (∀ env dataset processed_ids before item after w w1 w2 returncode,
     run_loop env dataset processed_ids before w = (w1, Done) →
     i_question_id item ∉ processed_ids →
     subprocess_run env dataset (i_question_id item) w1
     = Some (w2, returncode) →
     returncode ≠ 0%nat →
     w2 = w1
     ∧ run_loop env dataset processed_ids (before ++ item :: after) w
       = (w1, Stopped))
  ∧ (∀ env dataset processed_ids before item after w w1,
       run_loop env dataset processed_ids before w = (w1, Done) →
       i_question_id item ∉ processed_ids →
       invocation (i_question_id item) = Runs (i_question_id item) →
       (main env dataset (i_question_id item) w1).2 ≠ 0%nat →
       run_loop env dataset processed_ids (before ++ item :: after) w
       = (w1, Stopped))
  ∧ (∀ env dataset image_id item w,
       find_image_in_dataset dataset image_id = Some item →
       client_init env (trace w) = true →
       image_open env (trace w) (i_image_path item) = true →
       let instrument_type :=
         Some (default (str "Unknown") (i_image_type item)) in
       let prompt := create_prompt (i_question item) instrument_type in
       vlm_query env (trace w) (i_image_path item) prompt = NoResponse →
       main env dataset image_id w
       = (save (mkPrediction (stem (i_image_path item)) None None None None
                  instrument_type
                  (Some (default missing_ground_truth (i_ground_truth item))))
            (log (Query (i_image_path item) prompt) w),
          0%nat)).
Proof.
  assert (∀ env dataset processed_ids before item after w w1 w2 returncode,
     run_loop env dataset processed_ids before w = (w1, Done) →
     i_question_id item ∉ processed_ids →
     subprocess_run env dataset (i_question_id item) w1
     = Some (w2, returncode) →
     returncode ≠ 0%nat →
     w2 = w1
     ∧ run_loop env dataset processed_ids (before ++ item :: after) w
       = (w1, Stopped)) as Hstop.
  { intros env dataset processed_ids before item after w w1 w2 returncode
      Hbefore Hn Hrun Hrc.
    pose proof (subprocess_run_nonzero _ _ _ _ _ _ Hrun Hrc) as ->.
    split; [done|].
    rewrite run_loop_app, Hbefore. simpl.
    rewrite bool_decide_eq_false_2 by done.
    by rewrite Hrun, bool_decide_eq_true_2. }
  split_and!.
  - exact Hstop.
  - intros env dataset processed_ids before item after w w1 Hbefore Hn Hp Hrc.
    eapply (Hstop env dataset processed_ids before item after w w1
              (main env dataset (i_question_id item) w1).1
              (main env dataset (i_question_id item) w1).2);
      [done|done| |done].
    unfold subprocess_run. rewrite Hp. by destruct (main _ _ _ _).
  - intros env dataset image_id item w Hf Hinit Hopen instrument_type prompt Hq.
    unfold main. rewrite Hf, Hinit. unfold process_single.
    fold instrument_type. fold prompt. by rewrite Hopen, Hq.
Qed.

(** The dataset [q1, q2, q3], a client that cannot be set up any more
    when q2 comes: the run stops with the record of q1 only, and the
    producer was called for q1 only. *)
Lemma C1_stops_on_exit_status_witness :
  (let w1 := (run_loop (quota 1) three_items ∅ [gauge "q1"] fresh).1 in
   run_loop (quota 1) three_items ∅ ([gauge "q1"] ++ gauge "q2" :: [gauge "q3"])
     fresh = (w1, Stopped)
   ∧ ids_of w1 = [str "q1"]
   ∧ queries (trace w1) = [str "images/q1.png"])
  ∧ (main silent_env three_items (str "q2") fresh).2 = 0%nat.
Proof.
  split; [split; [|split; reflexivity]|].
  - eapply (proj1 C1_stops_on_exit_status).
    + vm_compute. reflexivity.
    + apply not_elem_of_empty.
    + vm_compute. reflexivity.
    + discriminate.
  - by rewrite (proj2 (proj2 C1_stops_on_exit_status) silent_env three_items
                  (str "q2") (gauge "q2") fresh eq_refl eq_refl eq_refl eq_refl).
Defined.

(** What does stop the batch, in terms of the collaborators: building
    the client raises. *)
Lemma run_loop_stops env dataset processed_ids item items w :
  i_question_id item ∉ processed_ids →
  plain_word (i_question_id item) →
  is_Some (find_image_in_dataset dataset (i_question_id item)) →
  client_init env (trace w) = false →
  run_loop env dataset processed_ids (item :: items) w = (w, Stopped).
Proof.
  intros Hn Hp [found Hf] Hinit. simpl.
  rewrite bool_decide_eq_false_2 by done.
  rewrite subprocess_run_plain by done.
  unfold main. by rewrite Hf, Hinit.
Qed.

(** An id that does not reach the script as one argument stops the batch
    as well: the child ends with the usage error of [argparse]. *)
Example usage_error_stops_the_batch :
  subprocess_run (answering (str "Answer: 4.4 A")) three_items (str "q 1") fresh
  = Some (fresh, 2).
Proof. reflexivity. Qed.

Lemma run_loop_usage_error env dataset processed_ids item items w :
  i_question_id item ∉ processed_ids →
  invocation (i_question_id item) = UsageError →
  run_loop env dataset processed_ids (item :: items) w = (w, Stopped).
Proof.
  intros Hn Hu. simpl. rewrite bool_decide_eq_false_2 by done.
  unfold subprocess_run. by rewrite Hu.
Qed.

(** An id with a character that the shell may interpret: the run is
    followed up to that child. *)
Example unread_id_ends_the_account :
  run_evaluation (answering (str "Answer: 4.4 A"))
    [gauge "q1";
     mkItem (str "q2;ls") (str "What is the reading?") (str "images/q2.png")
       None None;
     gauge "q3"] fresh
  = ((run_evaluation (answering (str "Answer: 4.4 A")) [gauge "q1"] fresh).1,
     Outside).
Proof. by vm_compute. Qed.

Example spaced_id_stops_the_batch :
  let dataset :=
    [mkItem (str "q 1") (str "What is the reading?") (str "images/q 1.png")
       None None; gauge "q2"] in
  run_evaluation (answering (str "Answer: 4.4 A")) dataset fresh
  = (fresh, Stopped).
Proof. by vm_compute. Qed.

(** A failure inside [process_single] other than a [None] response (the
    query raises, or the answer cannot be parsed) leaves no record and
    does not stop the batch either. *)
Example swallowed_failure_goes_on :
  let '(w, status) :=
    run_evaluation (except_on (str "images/q2.png") QueryRaises)
      three_items fresh in
  status = Done
  ∧ ids_of w = [str "q1"; str "q3"]
  ∧ queries (trace w)
    = [str "images/q1.png"; str "images/q2.png"; str "images/q3.png"].
Proof. vm_compute. split_and!; reflexivity. Qed.

Example stops_on_exit_status :
  let '(w, status) := run_evaluation (quota 1) three_items fresh in
  status = Stopped ∧ ids_of w = [str "q1"]
  ∧ queries (trace w) = [str "images/q1.png"].
Proof. vm_compute. split_and!; reflexivity. Qed.












(** * Further properties *)

(** ** The parser: when it raises, and what it returns *)

Lemma parse_answer_chosen text :
  parse_answer (Some text)
  = match chosen_groups text with
    | Some gs => answer_of gs
    | None => Return no_answer
    end.
Proof.
  rewrite parse_answer_some. unfold chosen_groups.
  by repeat destruct (search true _ text).
Qed.

Lemma chosen_groups_well_matched text gs :
  chosen_groups text = Some gs → well_matched text gs.
Proof.
  unfold chosen_groups.
  destruct (search true pattern1 text) as [m|] eqn:H1.
  { intros [= <-]. eapply search_sound; [apply pattern1_tail|done]. }
  destruct (search true pattern2 text) as [m|] eqn:H2.
  { intros [= <-]. eapply search_sound; [apply pattern2_tail|done]. }
  destruct (search true pattern3 text) as [m|] eqn:H3.
  { intros [= <-]. eapply search_sound; [apply pattern3_tail|done]. }
  intros H4. eapply findall_sound; [apply pattern4_tail|].
  apply last_Some in H4 as (l & ->). apply elem_of_app. right. by left.
Qed.

Lemma digits_acc_app acc s t :
  digits acc (s ++ t) = n ← digits acc s; digits n t.
Proof.
  revert acc. induction s as [|c s IH]; intros acc; simpl; [done|].
  destruct (Char.is_digit c); [apply IH | done].
Qed.

Lemma digits_is_Some acc s :
  is_Some (digits acc s) ↔ Forall (λ c, Char.is_digit c = true) s.
Proof.
  revert acc. induction s as [|c s IH]; intros acc; simpl.
  - split; [constructor | by eexists].
  - destruct (Char.is_digit c) eqn:Hc.
    + rewrite IH. split; [by constructor | by inversion 1].
    + split; [by intros [? ?] | inversion 1; congruence].
Qed.

Lemma numeral_digit_or_dot c :
  Char.is_numeral c = true → Char.is_digit c = true ∨ c = "."%char.
Proof. by_char c; try (by left); by right. Qed.

Lemma dot_not_digit : Char.is_digit "." = false.
Proof. reflexivity. Qed.

(** [split_dot] on a word over digits and dots. *)
Lemma split_dot_spec n :
  Forall (λ c, Char.is_numeral c = true) n →
  match split_dot n with
  | (i, None) => n = i ∧ Forall (λ c, Char.is_digit c = true) i ∧ dots n = 0
  | (i, Some f) =>
      n = i ++ "."%char :: f ∧ Forall (λ c, Char.is_digit c = true) i
      ∧ dots n = S (dots f)
  end.
Proof.
  unfold dots. induction 1 as [|c n Hc _ IH]; simpl; [by split_and!|].
  case_bool_decide as Hd.
  - subst c. split_and!; [done|constructor|].
    by rewrite filter_cons_True.
  - destruct (split_dot n) as [i [f|]].
    + destruct IH as (-> & Hi & Hdots). split_and!; [done| |].
      * constructor; [|done]. by destruct (numeral_digit_or_dot c Hc).
      * by rewrite filter_cons_False.
    + destruct IH as (-> & Hi & Hdots). split_and!; [done| |].
      * constructor; [|done]. by destruct (numeral_digit_or_dot c Hc).
      * by rewrite filter_cons_False.
Qed.

Lemma has_digit_app s t : has_digit (s ++ t) = has_digit s || has_digit t.
Proof. unfold has_digit. apply existsb_app. Qed.

Lemma has_digit_all s :
  Forall (λ c, Char.is_digit c = true) s → has_digit s = bool_decide (s ≠ []).
Proof. destruct 1 as [|c s Hc _]; [done|]. simpl. by rewrite Hc. Qed.

Lemma dots_all_digits s :
  Forall (λ c, Char.is_digit c = true) s → dots s = 0.
Proof.
  unfold dots. induction 1 as [|c s Hc _ IH]; [done|].
  rewrite filter_cons_False; [done|]. intros ->. by rewrite dot_not_digit in Hc.
Qed.

Lemma dots_zero_all_digits s :
  Forall (λ c, Char.is_numeral c = true) s → dots s = 0 →
  Forall (λ c, Char.is_digit c = true) s.
Proof.
  unfold dots. induction 1 as [|c s Hc _ IH]; [constructor|].
  destruct (numeral_digit_or_dot c Hc) as [Hd| ->].
  - rewrite filter_cons_False; [by constructor; auto|].
    intros ->. by rewrite dot_not_digit in Hd.
  - by rewrite filter_cons_True.
Qed.

(** [float] on a word over digits and dots: it raises exactly on the
    words without a digit or with more than one dot. *)
Lemma float_raises_iff n :
  Forall (λ c, Char.is_numeral c = true) n →
  (float n = Raise ValueError ↔ malformed n)
  ∧ (∀ e, float n = Raise e → e = ValueError)
  ∧ (∀ v, float n = Return v → (0 <= v)%Q).
Proof.
  intros Hn. pose proof (split_dot_spec n Hn) as Hs.
  assert (∀ v, float n = Return v → (0 <= v)%Q) as Hpos.
  { unfold float. destruct (split_dot n) as [i f].
    destruct (digits 0 _) as [k|]; [|done]. case_bool_decide; [done|].
    intros v [= <-]. unfold Qle. simpl. lia. }
  assert (∀ e, float n = Raise e → e = ValueError) as Hexn.
  { unfold float. destruct (split_dot n) as [i f].
    destruct (digits 0 _) as [k|]; [|by intros e [= <-]].
    case_bool_decide; [by intros e [= <-]|done]. }
  split_and!; [|done|done].
  unfold float, malformed. destruct (split_dot n) as [i [f|]]; simpl.
  - destruct Hs as (-> & Hi & Hdots).
    assert (Forall (λ c, Char.is_numeral c = true) f) as Hf.
    { apply Forall_app in Hn as [_ Hn]. by inversion Hn. }
    rewrite has_digit_app.
    change (has_digit ("."%char :: f)) with (has_digit f).
    rewrite (has_digit_all i Hi).
    destruct (digits 0 (i ++ f)) as [k|] eqn:Hk.
    + assert (Forall (λ c, Char.is_digit c = true) (i ++ f)) as Hall.
      { apply (digits_is_Some 0). by eexists. }
      apply Forall_app in Hall as [_ Hfd].
      rewrite (has_digit_all f Hfd), Hdots, (dots_all_digits f Hfd).
      case_bool_decide as He.
      * apply app_eq_nil in He as [-> ->]. split; [by left|done].
      * split; [done|]. intros [Hd|?]; [|lia].
        destruct i, f; simpl in *; done.
    + split; [|done]. intros _. right. rewrite Hdots.
      destruct (dots f) eqn:Hz; [|lia].
      pose proof (dots_zero_all_digits f Hf Hz) as Hfd.
      assert (is_Some (digits 0 (i ++ f))) as [? ?]; [|congruence].
      apply digits_is_Some, Forall_app. by split.
  - destruct Hs as (<- & Hi & Hdots). rewrite app_nil_r.
    destruct (digits_is_Some 0 n) as [_ [k Hk]]; [done|]. rewrite Hk.
    rewrite (has_digit_all n Hi), Hdots.
    case_bool_decide as He.
    + subst n. split; [by left|done].
    + split; [done|]. intros [Hd|?]; [|lia].
      by rewrite bool_decide_eq_true_2 in Hd.
Qed.

(** X1: [parse_answer] raises nothing but [ValueError], and it raises
    exactly when the number of the match the cascade settles on has no
    digit or more than one dot; in every other case it returns, and a
    value it returns is never negative (a minus sign before the number is
    not part of any pattern). *)
Theorem X1_parse_answer_raises_iff_malformed (text : pystr) :
  (∀ e, parse_answer (Some text) = Raise e → e = ValueError)
  ∧ (parse_answer (Some text) = Raise ValueError
     ↔ ∃ gs, chosen_groups text = Some gs ∧ malformed (group gs 1))
  ∧ (∀ a v, parse_answer (Some text) = Return a → value a = Some v →
            (0 <= v)%Q).
Proof.
  rewrite parse_answer_chosen.
  destruct (chosen_groups text) as [gs|] eqn:Hc.
  - apply chosen_groups_well_matched in Hc
      as (n & u & pre & w & post & -> & _ & _ & Fn & _).
    destruct (float_raises_iff n Fn) as (Hiff & Hexn & Hpos).
    unfold answer_of. change (group [n; u] 1) with n.
    destruct (float n) as [v|e] eqn:Hf; simpl.
    + split_and!; [done| |].
      * split; [done|]. intros (gs & [= <-] & Hm). by apply Hiff in Hm.
      * intros a v' [= <-] [= <-]. by apply Hpos.
    + rewrite (Hexn e eq_refl) in *. split_and!; [by intros ? [= <-]| |done].
      split; [|done]. intros _. exists [n; u]. split; [done|]. by apply Hiff.
  - split_and!; [done| |].
    + split; [done|]. by intros (gs & ? & _).
    + by intros a v [= <-].
Qed.

Example minus_sign_is_dropped :
  parse_answer (Some (str "Answer: -5 C"))
  = Return (mkAnswer (Some 5%Q) (Some (str "C")) (Some (str "5 C"))).
Proof. vm_compute. reflexivity. Qed.

(** ** The parser does not see letter case *)

Lemma same_text_lower s s' : same_text s s' ↔ lower s = lower s'.
Proof.
  unfold same_text, lower. split.
  - induction 1 as [|c c' s s' Hc _ IH]; [done|].
    rewrite !fmap_cons. by f_equal.
  - revert s'. induction s as [|c s IH]; intros [|c' s'];
      rewrite ?fmap_cons, ?fmap_nil; try done.
    intros [= Hc Hs]. constructor; [done|by apply IH].
Qed.

Lemma same_text_refl s : same_text s s.
Proof. by apply same_text_lower. Qed.

Lemma numeral_lower c : Char.is_numeral c = Char.is_numeral (Char.lower c).
Proof. by_char c. Qed.

Lemma space_lower c : Char.is_space c = Char.is_space (Char.lower c).
Proof. by_char c. Qed.

Lemma unit_lower c : Char.is_unit c = Char.is_unit (Char.lower c).
Proof. by_char c. Qed.

Lemma numeral_lower_id c : Char.is_numeral c = true → Char.lower c = c.
Proof. by_char c. Qed.

Lemma numeral_blind ic c c' :
  same_letter c c' →
  in_class ic Char.is_numeral c = in_class ic Char.is_numeral c'.
Proof.
  intros H. rewrite !in_class_numeral, (numeral_lower c), (numeral_lower c').
  by rewrite H.
Qed.

Lemma space_blind ic c c' :
  same_letter c c' →
  in_class ic Char.is_space c = in_class ic Char.is_space c'.
Proof.
  intros H. rewrite !in_class_space, (space_lower c), (space_lower c').
  by rewrite H.
Qed.

Lemma unit_blind ic c c' :
  same_letter c c' →
  in_class ic Char.is_unit c = in_class ic Char.is_unit c'.
Proof.
  intros H. rewrite !in_class_unit, (unit_lower c), (unit_lower c').
  by rewrite H.
Qed.

Lemma number_unit_blind ic : case_blind ic number_unit.
Proof.
  repeat split; intros c c' H;
    first [by apply numeral_blind | by apply space_blind | by apply unit_blind].
Qed.

Lemma pattern1_blind : case_blind true pattern1.
Proof.
  repeat split; try (intros c c' H);
    first [by apply numeral_blind | by apply space_blind | by apply unit_blind].
Qed.

Lemma pattern2_blind : case_blind true pattern2.
Proof.
  repeat split; try (intros c c' H);
    first [by apply numeral_blind | by apply space_blind | by apply unit_blind].
Qed.

Lemma pattern3_blind : case_blind true pattern3.
Proof.
  repeat split; try (intros c c' H);
    first [by apply numeral_blind | by apply space_blind | by apply unit_blind].
Qed.

(** A word of digits and dots has no case. *)
Lemma same_text_numeral n n' :
  same_text n n' → Forall (λ c, Char.is_numeral c = true) n → n = n'.
Proof.
  induction 1 as [|c c' n n' Hc _ IH]; [done|]. inversion 1 as [|?? Hn Hns]; subst.
  rewrite IH by done. f_equal.
  assert (Char.is_numeral c' = true) as Hn'.
  { by rewrite numeral_lower, <- Hc, <- numeral_lower. }
  rewrite <- (numeral_lower_id c Hn), <- (numeral_lower_id c' Hn'). exact Hc.
Qed.

Lemma lit_same p s s' :
  same_text s s' →
  option_Forall2 same_text (lit true p s) (lit true p s').
Proof.
  intros H. revert s s' H. induction p as [|a p IH]; intros s s' H; simpl.
  - by constructor.
  - destruct H as [|c c' s s' Hc Hs]; [constructor|].
    unfold chr_eq. rewrite Hc.
    case_bool_decide; [by apply IH | constructor].
Qed.

Lemma stars_same ic cls s s' :
  (∀ c c', same_letter c c' → in_class ic cls c = in_class ic cls c') →
  same_text s s' → Forall2 same_text (stars ic cls s) (stars ic cls s').
Proof.
  intros Hcls. induction 1 as [|c c' s s' Hc Hs IH]; simpl.
  - repeat constructor.
  - rewrite (Hcls c c' Hc). destruct (in_class ic cls c').
    + apply Forall2_app; [done|]. repeat constructor; done.
    + repeat constructor; done.
Qed.

Lemma rmatch_same ic r st st' :
  case_blind ic r → same_state st st' →
  Forall2 same_state (rmatch ic r st) (rmatch ic r st').
Proof.
  revert st st'.
  induction r as [p|cls|cls|r1 IH1 r2 IH2|r1 IH1 r2 IH2|r IH|r IH];
    simpl; intros st st' Hb [Hr Hg].
  - subst ic. destruct (lit_same p _ _ Hr); repeat constructor; done.
  - destruct Hr as [|c c' s s' Hc Hs]; [constructor|].
    rewrite (Hb c c' Hc). destruct (in_class ic cls c'); repeat constructor; done.
  - apply Forall2_fmap. eapply Forall2_impl; [by apply stars_same|].
    intros e e' He. by split.
  - destruct Hb as [Hb1 Hb2]. apply Forall2_bind.
    eapply Forall2_impl; [by apply IH1|]. intros st1 st1' H1. by apply IH2.
  - destruct Hb as [Hb1 Hb2]. apply Forall2_app; [by apply IH1|by apply IH2].
  - apply Forall2_app; [by apply IH|]. repeat constructor; done.
  - apply Forall2_fmap. eapply Forall2_impl; [by apply IH|].
    intros st1 st1' [Hr1 Hg1]. split; [done|]. simpl.
    apply Forall2_app; [done|]. repeat constructor. unfold consumed.
    rewrite (Forall2_length _ _ _ Hr), (Forall2_length _ _ _ Hr1).
    by apply Forall2_take.
Qed.

Lemma match_at_same ic r s s' :
  case_blind ic r → same_text s s' →
  option_Forall2 same_state (match_at ic r s) (match_at ic r s').
Proof.
  intros Hb Hs. unfold match_at.
  destruct (rmatch_same ic r (MState s []) (MState s' []) Hb) as [|?????];
    [by split; [|constructor] | constructor | by constructor].
Qed.

Lemma search_from_same ic r pos s s' :
  case_blind ic r → same_text s s' →
  option_Forall2 (λ m m', m_start m = m_start m'
                          ∧ Forall2 same_text (m_groups m) (m_groups m'))
    (search_from ic r pos s) (search_from ic r pos s').
Proof.
  intros Hb Hs. revert pos. induction Hs as [|c c' s s' Hc Hs IH]; intros pos.
  - simpl. destruct (match_at ic r []); constructor.
    split; [done|]. apply Forall_Forall2_diag, Forall_forall.
    intros g _. apply same_text_refl.
  - assert (same_text (c :: s) (c' :: s')) as Hcs by by constructor.
    simpl. destruct (match_at_same ic r _ _ Hb Hcs) as [st st' [_ Hg]|];
      [by constructor; split | apply IH].
Qed.

Lemma findall_from_same ic r k s s' :
  case_blind ic r → same_text s s' →
  Forall2 (Forall2 same_text) (findall_from ic r k s) (findall_from ic r k s').
Proof.
  intros Hb Hs. revert k. induction Hs as [|c c' s s' Hc Hs IH]; intros k.
  - constructor.
  - assert (same_text (c :: s) (c' :: s')) as Hcs by by constructor.
    simpl. destruct k as [|k]; [|apply IH].
    destruct (match_at_same ic r _ _ Hb Hcs) as [st st' [Hr Hg]|]; [|apply IH].
    constructor; [done|].
    rewrite (Forall2_length _ _ _ Hs), (Forall2_length _ _ _ Hr). apply IH.
Qed.

Lemma chosen_groups_same s s' :
  same_text s s' →
  option_Forall2 (Forall2 same_text) (chosen_groups s) (chosen_groups s').
Proof.
  intros Hs. unfold chosen_groups, search.
  destruct (search_from_same true pattern1 0 s s' pattern1_blind Hs)
    as [m m' [_ Hg]|]; [by constructor|].
  destruct (search_from_same true pattern2 0 s s' pattern2_blind Hs)
    as [m m' [_ Hg]|]; [by constructor|].
  destruct (search_from_same true pattern3 0 s s' pattern3_blind Hs)
    as [m m' [_ Hg]|]; [by constructor|].
  apply Forall2_last. unfold findall.
  apply findall_from_same; [apply (number_unit_blind false)|done].
Qed.

(** X2: on texts with code points up to U+00FF, [parse_answer] is
    case-insensitive as a whole.  Two such texts that are
    equal after lower-casing give the same value, units and raw answers
    that are equal after lower-casing (the unit is returned in the case
    it was written in), and one raises exactly when the other does.
    (The texts of the model are these, [pystr_code_points]; the Kelvin
    sign U+212A, whose lower case is [k], is a unit for the marker rules
    only, so the statement stops at U+00FF.) *)
Theorem X2_parse_answer_case_insensitive (s s' : pystr) :
  lower s = lower s' →
  same_outcome (parse_answer (Some s)) (parse_answer (Some s')).
Proof.
  intros Hs%same_text_lower. rewrite !parse_answer_chosen.
  pose proof (chosen_groups_well_matched s) as Hw.
  destruct (chosen_groups_same s s' Hs) as [gs gs' Hg|]; [|by simpl].
  destruct (Hw gs eq_refl) as (n & u & pre & w & post & -> & _ & _ & Fn & _).
  apply Forall2_cons_inv_l in Hg as (n' & l' & Hn & Hl & ->).
  apply Forall2_cons_inv_l in Hl as (u' & l'' & Hu & Hl & ->).
  apply Forall2_nil_inv_l in Hl as ->.
  apply same_text_numeral in Hn as <-; [|done].
  apply same_text_lower in Hu.
  unfold answer_of. change (group [n; ?x] 1) with n.
  change (group [n; u] 2) with u. change (group [n; u'] 2) with u'.
  destruct (float n) as [v|e]; simpl; [|done].
  split_and!; [done|by rewrite Hu|].
  f_equal. unfold lower in *. by rewrite !fmap_app, !fmap_cons, Hu.
Qed.

Lemma X2_parse_answer_case_insensitive_witness :
  same_outcome (parse_answer (Some (str "FINAL READING: 65 mL")))
    (parse_answer (Some (str "final reading: 65 Ml"))).
Proof. apply X2_parse_answer_case_insensitive. vm_compute. reflexivity. Defined.

(** ** When the parser finds nothing, and what it makes of its own output *)

Lemma findall_from_nil ic r s :
  findall_from ic r 0 s = [] →
  ∀ k, k < length s → match_at ic r (drop k s) = None.
Proof.
  induction s as [|c s IH]; intros Hf k Hk; [simpl in Hk; lia|].
  simpl in Hf. destruct (match_at ic r (c :: s)) eqn:Hm; [done|].
  destruct k as [|k]; [done|]. simpl. apply IH; [done|simpl in Hk; lia].
Qed.

Lemma number_unit_at_complete n w u post :
  n ≠ [] → Forall (λ c, Char.is_numeral c = true) n →
  Forall (λ c, Char.is_space c = true) w →
  u ≠ [] → Forall (λ c, Char.is_unit c = true) u →
  is_Some (number_unit_at (n ++ w ++ u ++ post)).
Proof.
  intros Hn Fn Fw Hu Fu.
  rewrite <- (span_app_eq Char.is_unit post).
  replace (n ++ w ++ u ++ (span Char.is_unit post).1 ++ (span Char.is_unit post).2)
    with (n ++ w ++ (u ++ (span Char.is_unit post).1)
            ++ (span Char.is_unit post).2)
    by by rewrite <- !(assoc_L (++)).
  rewrite number_unit_at_greedy; [done|done|done|done| | |apply span_stop].
  - by destruct u.
  - apply Forall_app; split; [done|apply span_all].
Qed.

Lemma answer_of_filled gs : answer_of gs ≠ Return no_answer.
Proof. intros (v & _ & [=])%answer_of_return. Qed.

(** X3: on texts with code points up to U+00FF, [parse_answer] returns
    the empty answer exactly when the text
    holds no number-unit pair at all: no run of digits and dots that is
    followed, after optional white space, by a letter [a-zA-Z], a degree
    sign, a slash or a percent sign.  With such a pair in the text the
    parser returns a filled answer or raises.  (Beyond U+00FF the marker
    rules take four more characters for letters, so the statement stops
    there.) *)
Theorem X3_parse_answer_empty_iff_no_pair (text : pystr) :
  parse_answer (Some text) = Return no_answer ↔ ¬ has_pair text.
Proof.
  rewrite parse_answer_chosen. split.
  - destruct (chosen_groups text) as [gs|] eqn:Hc;
      [by intros ?%answer_of_filled|].
    intros _ (gs & n & u & pre & w & post & -> & -> & Hn & Fn & Fw & Hu & Fu).
    unfold chosen_groups in Hc.
    repeat match type of Hc with
           | match ?x with _ => _ end = _ => destruct x; [done|]
           end.
    apply last_None in Hc.
    pose proof (findall_from_nil _ _ _ Hc (length pre)) as Hk.
    rewrite drop_app_length, match_at_pattern4 in Hk.
    destruct (number_unit_at_complete n w u post) as [x Hx]; try done.
    rewrite Hx in Hk. destruct n; [done|].
    rewrite length_app in Hk. simpl in Hk.
    destruct x as [[??]?]. by specialize (Hk ltac:(lia)).
  - intros Hp. destruct (chosen_groups text) as [gs|] eqn:Hc; [|done].
    destruct Hp. exists gs. by apply chosen_groups_well_matched.
Qed.

Lemma needs_sound ic P r st st' :
  needs ic P r → st' ∈ rmatch ic r st → ∃ c, c ∈ rest st ∧ P c = true.
Proof.
  revert st st'.
  induction r as [p|cls|cls|r1 IH1 r2 IH2|r1 IH1 r2 IH2|r IH|r IH];
    simpl; intros st st' Hn Hm; try done.
  - destruct Hn as (x & Hx & HP).
    destruct (lit ic p (rest st)) as [s'|] eqn:Hl; [|by apply elem_of_nil in Hm].
    clear Hm. revert Hl. generalize (rest st) as s.
    induction p as [|a p IHp]; intros s Hl; [by apply elem_of_nil in Hx|].
    simpl in Hl. destruct s as [|c s]; [done|].
    destruct (chr_eq ic a c) eqn:Hc; [|done].
    apply elem_of_cons in Hx as [->|Hx].
    + exists c. split; [left|by apply HP].
    + destruct (IHp Hx s Hl) as (c' & Hc' & HP'). exists c'. split; [by right|done].
  - destruct (rest st) as [|c s]; [by apply elem_of_nil in Hm|].
    destruct (in_class ic cls c) eqn:Hc; [|by apply elem_of_nil in Hm].
    exists c. split; [left|by apply Hn].
  - apply list_elem_of_bind in Hm as (st1 & Hm2 & Hm1).
    destruct Hn as [Hn|Hn]; [by eapply IH1|].
    destruct (IH2 _ _ Hn Hm2) as (c & Hc & HP).
    destruct (rmatch_suffix _ _ _ _ Hm1) as [a Ha].
    exists c. split; [|done]. rewrite Ha. apply elem_of_app. by right.
  - destruct Hn as [Hn1 Hn2]. apply elem_of_app in Hm as [Hm|Hm]; eauto.
  - apply list_elem_of_fmap in Hm as (st1 & -> & Hm). eauto.
Qed.

Lemma match_at_needs ic P r s :
  needs ic P r → Forall (λ c, P c = false) s → match_at ic r s = None.
Proof.
  intros Hn Hs. unfold match_at.
  destruct (rmatch ic r (MState s [])) as [|st' l] eqn:Hm; [done|].
  destruct (needs_sound ic P r (MState s []) st' Hn) as (c & Hc & HP).
  { rewrite Hm. left. }
  rewrite Forall_forall in Hs. simpl in Hc. specialize (Hs c Hc). congruence.
Qed.

Lemma search_from_fails ic r pos s :
  (∀ k, match_at ic r (drop k s) = None) → search_from ic r pos s = None.
Proof.
  revert pos. induction s as [|c s IH]; intros pos Hk; simpl.
  - pose proof (Hk 0) as H0. simpl in H0. by rewrite H0.
  - pose proof (Hk 0) as H0. simpl in H0. rewrite H0.
    apply IH. intros k. apply (Hk (S k)).
Qed.

Lemma search_needs P r s :
  needs true P r → Forall (λ c, P c = false) s → search true r s = None.
Proof.
  intros Hn Hs. apply search_from_fails. intros k.
  apply (match_at_needs _ P); [done|by apply Forall_drop].
Qed.

Lemma pattern1_needs_colon : needs true is_colon pattern1.
Proof.
  left. exists ":"%char. split; [vm_compute; set_solver|]. intros c. by_char c.
Qed.

Lemma pattern2_needs_colon : needs true is_colon pattern2.
Proof.
  right. left. exists ":"%char. split; [vm_compute; set_solver|].
  intros c. by_char c.
Qed.

Lemma pattern3_needs_space : needs true Char.is_space pattern3.
Proof. right. left. left. intros c. by rewrite in_class_space. Qed.

Lemma pattern3_first_letter s :
  ¬ starts_with (chr_eq true "a") s → match_at true pattern3 s = None.
Proof.
  intros Hs. unfold match_at, pattern3.
  change (rmatch true (Cat ?a ?b) ?st) with (rmatch true a st ≫= rmatch true b).
  destruct s as [|c s]; [done|]. simpl in Hs. apply not_true_is_false in Hs.
  replace (rmatch true (Alt (Lit (str "approximately"))
                          (Alt (Lit (str "around")) (Lit (str "about"))))
             (MState (c :: s) [])) with (@nil mstate); [done|].
  simpl. by rewrite Hs.
Qed.

Lemma numeral_not_a c : Char.is_numeral c = true → chr_eq true "a" c = false.
Proof. by_char c. Qed.

Lemma space_not_a c : Char.is_space c = true → chr_eq true "a" c = false.
Proof. by_char c. Qed.

Lemma numeral_not_colon c : Char.is_numeral c = true → is_colon c = false.
Proof. by_char c. Qed.

Lemma space_not_colon c : Char.is_space c = true → is_colon c = false.
Proof. by_char c. Qed.

Lemma unit_not_colon c : Char.is_unit c = true → is_colon c = false.
Proof. by_char c. Qed.

Lemma unit_not_space c : Char.is_unit c = true → Char.is_space c = false.
Proof. by_char c. Qed.

(** The rendered pair [f"{n} {u}"] holds no marker. *)
Lemma search_rendered n u :
  Forall (λ c, Char.is_numeral c = true) n →
  Forall (λ c, Char.is_unit c = true) u →
  search true pattern1 (n ++ str " " ++ u) = None
  ∧ search true pattern2 (n ++ str " " ++ u) = None
  ∧ search true pattern3 (n ++ str " " ++ u) = None.
Proof.
  intros Fn Fu.
  assert (Forall (λ c, is_colon c = false) (n ++ str " " ++ u)) as Hcolon.
  { apply Forall_app; split; [|apply Forall_app; split].
    - eapply Forall_impl; [done|]. apply numeral_not_colon.
    - by repeat constructor.
    - eapply Forall_impl; [done|]. apply unit_not_colon. }
  split_and!.
  - by apply (search_needs is_colon); [apply pattern1_needs_colon|].
  - by apply (search_needs is_colon); [apply pattern2_needs_colon|].
  - apply search_from_fails. intros k.
    destruct (decide (k ≤ length n)) as [Hk|Hk].
    + rewrite drop_app_le by done. apply pattern3_first_letter.
      destruct (drop k n) as [|c n'] eqn:Hd;
        change (¬ chr_eq true "a" _ = true) || simpl.
      * by vm_compute.
      * assert (Char.is_numeral c = true) as Hc.
        { apply (Forall_drop _ k) in Fn. rewrite Hd in Fn.
          by inversion Fn. }
        change (chr_eq true "a" c ≠ true). by rewrite numeral_not_a.
    + rewrite drop_app_ge by lia.
      destruct (k - length n) as [|j] eqn:Hj; [lia|]. simpl.
      apply (match_at_needs _ Char.is_space); [apply pattern3_needs_space|].
      apply Forall_drop. eapply Forall_impl; [done|]. apply unit_not_space.
Qed.

Lemma findall_rendered n u :
  n ≠ [] → Forall (λ c, Char.is_numeral c = true) n →
  u ≠ [] → Forall (λ c, Char.is_unit c = true) u →
  findall false pattern4 (n ++ str " " ++ u) = [[n; u]].
Proof.
  intros Hn Fn Hu Fu.
  pose proof (number_unit_at_greedy n (str " ") u [] Hn Fn) as Hg.
  rewrite app_nil_r in Hg.
  destruct n as [|c n]; [done|].
  change ((c :: n) ++ str " " ++ u) with (c :: (n ++ str " " ++ u)).
  rewrite findall_pattern4_cons.
  change (c :: (n ++ str " " ++ u)) with ((c :: n) ++ str " " ++ u).
  rewrite Hg; [done|by repeat constructor|done|done|by intros []].
Qed.

(** X4: on texts with code points up to U+00FF, the parser accepts its
    own output.  The [raw_answer] of a filled
    answer, parsed again, gives the same answer: same value, same unit,
    same raw answer; the marker rules find nothing in it and the fallback
    finds the one pair.  (A unit with one of the four characters beyond
    U+00FF that the marker rules take for letters is not found again by
    the fallback, so the statement stops there.) *)
Theorem X4_raw_answer_round_trip (text raw : pystr) (a : Answer) :
  parse_answer (Some text) = Return a →
  raw_answer a = Some raw →
  parse_answer (Some raw) = Return a.
Proof.
  intros Hp Hraw. rewrite parse_answer_chosen in Hp.
  destruct (chosen_groups text) as [gs|] eqn:Hc;
    [|by injection Hp as <-].
  destruct (chosen_groups_well_matched _ _ Hc)
    as (n & u & pre & w & post & -> & _ & Hn & Fn & _ & Hu & Fu).
  apply answer_of_return in Hp as (v & Hv & ->).
  change (group [n; u] 1) with n in *. change (group [n; u] 2) with u in *.
  injection Hraw as <-.
  destruct (search_rendered n u Fn Fu) as (H1 & H2 & H3).
  change (n ++ " "%char :: u) with (n ++ str " " ++ u).
  rewrite parse_answer_some, H1, H2, H3, findall_rendered by done.
  change (last [[n; u]]) with (Some [n; u]).
  unfold answer_of. change (group [n; u] 1) with n.
  change (group [n; u] 2) with u. by rewrite Hv.
Qed.

Lemma X4_raw_answer_round_trip_witness :
  parse_answer (Some (str "4.4 A"))
  = Return (mkAnswer (Some 4.4%Q) (Some (str "A")) (Some (str "4.4 A"))).
Proof.
  apply (X4_raw_answer_round_trip
           (str "The pointer is at 4.4. Answer: 4.4 A") (str "4.4 A"));
    vm_compute; reflexivity.
Defined.

(** ** The evaluator: when it fails, and what its numbers satisfy *)

Lemma judge_spec pred :
  judge pred
  = if compares_none pred then Raise TypeError else Return (verdict pred).
Proof.
  unfold judge, compares_none, verdict, value_ok, unit_ok, is_value_correct.
  destruct (predicted_value pred) as [p|]; [|done].
  destruct (ground_truth pred ≫= gt_interval) as [[[lo|] [hi|]]|]; simpl;
    try done; by destruct (Qle_bool lo p).
Qed.

Lemma evaluate_loop_spec preds c :
  evaluate_loop preds c
  = if existsb compares_none preds then Raise TypeError
    else Return (mkCounters (c_value c + count value_ok preds)
                   (c_unit c + count unit_ok preds)
                   (c_both c + count (λ p, value_ok p && unit_ok p) preds)
                   (c_details c ++ (verdict <$> preds))).
Proof.
  revert c. induction preds as [|pred preds IH]; intros [v u b d]; simpl.
  - unfold count. simpl. by rewrite !Nat.add_0_r, app_nil_r.
  - rewrite judge_spec. destruct (compares_none pred); [done|]. simpl.
    rewrite IH. destruct (existsb compares_none preds); [done|]. simpl.
    rewrite !count_cons, <- (assoc_L (++)). simpl.
    f_equal. f_equal; by destruct (value_ok pred), (unit_ok pred); simpl; lia.
Qed.

Lemma evaluate_spec preds :
  evaluate preds
  = if existsb compares_none preds then Raise TypeError
    else Return (tally preds).
Proof.
  unfold evaluate. rewrite evaluate_loop_spec.
  by destruct (existsb compares_none preds).
Qed.

(** X5: [evaluate] raises exactly when the file holds a record on which a
    number is compared with [None] (a predicted value against an interval
    whose lower bound is [None], or whose upper bound is [None] while the
    lower bound is not above the value); the error is a [TypeError], raised
    at the first such record whatever the others are.  On every other file
    it returns the counts of the records that pass and the verdicts in the
    order of the file. *)
Theorem X5_evaluate_raises_iff_compares_none (preds : list Prediction) :
  (evaluate preds = Raise TypeError ↔ ∃ pred, pred ∈ preds ∧ compares_none pred = true)
  ∧ (evaluate preds = Return (tally preds)
     ↔ ∀ pred, pred ∈ preds → compares_none pred = false)
  ∧ (∀ e, evaluate preds = Raise e → e = TypeError)
  ∧ (∀ r, evaluate preds = Return r → r = tally preds).
Proof.
  rewrite evaluate_spec.
  destruct (existsb compares_none preds) eqn:He.
  - apply existsb_exists in He as (pred & Hin%list_elem_of_In & Hp).
    split_and!; [by split; eauto| |by intros ? [=]|done].
    split; [done|]. intros H. specialize (H pred Hin). congruence.
  - assert (∀ pred, pred ∈ preds → compares_none pred = false) as Hall.
    { intros pred Hin%list_elem_of_In. apply not_true_is_false. intros Hp.
      assert (existsb compares_none preds = true) as Hex
        by (apply existsb_exists; eauto).
      congruence. }
    split_and!; [|done|done|by intros ? [=]].
    split; [done|]. intros (pred & Hin & Hp). specialize (Hall pred Hin).
    congruence.
Qed.

Example upper_bound_is_not_looked_at :
  is_value_correct (Some 4%Q) (Some (Some 5%Q, None)) = Return false
  ∧ is_value_correct (Some 6%Q) (Some (Some 5%Q, None)) = Raise TypeError.
Proof. by vm_compute. Qed.

Lemma count_le f l : count f l ≤ length l.
Proof.
  induction l as [|x l IH]; [done|]. rewrite count_cons. simpl.
  destruct (f x); simpl; lia.
Qed.

Lemma count_both_le f g l :
  count (λ p, f p && g p) l ≤ count f l
  ∧ count (λ p, f p && g p) l ≤ count g l
  ∧ count f l + count g l ≤ length l + count (λ p, f p && g p) l.
Proof.
  induction l as [|x l IH]; [by vm_compute; lia|]. rewrite !count_cons. simpl.
  destruct (f x), (g x); simpl; lia.
Qed.

Lemma flagged_verdict f preds :
  flagged f (verdict <$> preds) = count (λ p, f (verdict p)) preds.
Proof.
  unfold flagged, count. induction preds as [|p preds IH]; [done|].
  rewrite fmap_cons. simpl. destruct (f (verdict p)); simpl; by rewrite IH.
Qed.

Lemma accuracy_mono a b total :
  a ≤ b → (accuracy a total <= accuracy b total)%Q.
Proof.
  intros Hab. unfold accuracy. destruct (0 <? total); [|done].
  unfold Qle. simpl. nia.
Qed.

Lemma accuracy_range a total :
  a ≤ total → (0 <= accuracy a total)%Q ∧ (accuracy a total <= 1)%Q.
Proof.
  intros Ha. unfold accuracy. destruct (0 <? total) eqn:Ht; [|done].
  apply Nat.ltb_lt in Ht. unfold Qle. simpl. split; [lia|].
  rewrite Z.mul_1_r, Z.mul_1_l.
  replace (Z.pos (Pos.of_nat total)) with (Z.of_nat total); [lia|].
  destruct total; [lia|]. by rewrite <- Pos.of_nat_succ, Zpos_P_of_succ_nat, Nat2Z.inj_succ.
Qed.

(** X6: what the numbers of [evaluate] satisfy whenever it returns.  The
    total is the number of records and there is one verdict per record, in
    the order of the file; each count is the number of verdicts with that
    flag, and "both" is the conjunction of the two flags; the count of
    "both" is at most each of the other two, which are at most the total
    and together at most the total plus "both"; the three accuracies lie
    between 0 and 1, the overall one below the other two. *)
Theorem X6_evaluate_counts_are_consistent
    (preds : list Prediction) (m : Metrics) (details : list Detail) :
  evaluate preds = Return (m, details) →
  total_samples m = length preds
  ∧ d_question_id <$> details = question_id <$> preds
  ∧ Forall (λ d, both_correct d = value_correct d && unit_correct d) details
  ∧ value_correct_count m = flagged value_correct details
  ∧ unit_correct_count m = flagged unit_correct details
  ∧ both_correct_count m = flagged both_correct details
  ∧ both_correct_count m ≤ value_correct_count m ≤ total_samples m
  ∧ both_correct_count m ≤ unit_correct_count m ≤ total_samples m
  ∧ value_correct_count m + unit_correct_count m
    ≤ total_samples m + both_correct_count m
  ∧ (0 <= overall_accuracy m)%Q
  ∧ (overall_accuracy m <= value_accuracy m)%Q ∧ (value_accuracy m <= 1)%Q
  ∧ (overall_accuracy m <= unit_accuracy m)%Q ∧ (unit_accuracy m <= 1)%Q.
Proof.
  rewrite evaluate_spec. destruct (existsb compares_none preds); [done|].
  intros [= <- <-]. simpl.
  pose proof (count_both_le value_ok unit_ok preds) as (Hbv & Hbu & Hie).
  pose proof (count_le value_ok preds) as Hv.
  pose proof (count_le unit_ok preds) as Hu.
  rewrite !flagged_verdict.
  split_and!; try done; try lia.
  - rewrite <- list_fmap_compose. by apply list_fmap_ext.
  - apply Forall_fmap, Forall_forall. by intros p _.
  - apply accuracy_range. lia.
  - by apply accuracy_mono.
  - by apply accuracy_range.
  - by apply accuracy_mono.
  - by apply accuracy_range.
Qed.

Lemma X6_evaluate_counts_are_consistent_witness :
  let m := (tally three_records).1 in
  evaluate three_records = Return (tally three_records)
  ∧ both_correct_count m ≤ value_correct_count m ≤ total_samples m
  ∧ (overall_accuracy m <= value_accuracy m)%Q ∧ (value_accuracy m <= 1)%Q.
Proof.
  assert (evaluate three_records
          = Return ((tally three_records).1, (tally three_records).2)) as He
    by (vm_compute; reflexivity).
  pose proof (X6_evaluate_counts_are_consistent _ _ _ He)
    as (_ & _ & _ & _ & _ & _ & Hv & _ & _ & _ & Ha & Hb & _).
  split; [exact He|]. split; [exact Hv|]. split; [exact Ha|exact Hb].
Defined.

Example evaluate_three_records :
  (evaluate three_records) ≫= (λ r, Return (r.1))
  = Return (mkMetrics 3 (2 # 3) (1 # 3) (1 # 3) 2 1 1).
Proof. vm_compute. reflexivity. Qed.

Lemma existsb_Permutation {A} (f : A → bool) l l' :
  l ≡ₚ l' → existsb f l = existsb f l'.
Proof.
  induction 1 as [|x l l' _ IH|x y l|l l' l'' _ IH1 _ IH2]; simpl;
    [done|by rewrite IH|by destruct (f x), (f y)|congruence].
Qed.

Lemma count_Permutation f l l' : l ≡ₚ l' → count f l = count f l'.
Proof.
  induction 1 as [|x l l' _ IH|x y l|l l' l'' _ IH1 _ IH2];
    rewrite ?count_cons; [done|by rewrite IH|lia|congruence].
Qed.

(** X7: the order of the records in the predictions file does not matter
    to [evaluate].  On two files that hold the same records in another
    order it raises on both or on none, returns the same metrics (totals,
    counts and accuracies), and the same verdicts in the other order. *)
Theorem X7_evaluate_order_independent (preds preds' : list Prediction) :
  preds ≡ₚ preds' →
  match evaluate preds, evaluate preds' with
  | Return (m, details), Return (m', details') =>
      m = m' ∧ details ≡ₚ details'
  | Raise e, Raise e' => e = e'
  | _, _ => False
  end.
Proof.
  intros Hp. rewrite !evaluate_spec, <- (existsb_Permutation _ _ _ Hp).
  destruct (existsb compares_none preds); [done|]. unfold tally.
  rewrite <- !(count_Permutation _ _ _ Hp), <- (Permutation_length Hp).
  split; [done|]. by apply fmap_Permutation.
Qed.

Lemma X7_evaluate_order_independent_witness :
  match evaluate three_records, evaluate (reverse three_records) with
  | Return (m, details), Return (m', details') =>
      m = m' ∧ details ≡ₚ details'
  | Raise e, Raise e' => e = e'
  | _, _ => False
  end.
Proof.
  apply X7_evaluate_order_independent. symmetry. apply reverse_Permutation.
Defined.

(** ** From the runner to the evaluator *)

Lemma upsert_elem all_predictions result :
  result ∈ upsert all_predictions result.
Proof.
  unfold upsert.
  destruct (list_find _ all_predictions) as [[i old]|] eqn:Hf.
  - apply list_find_Some in Hf as (Hi & _).
    apply list_elem_of_lookup. exists i.
    apply list_lookup_insert_eq. by eapply lookup_lt_Some.
  - apply elem_of_app. right. by left.
Qed.

Lemma upsert_Forall (P : Prediction → Prop) all_predictions result :
  Forall P all_predictions → P result → Forall P (upsert all_predictions result).
Proof.
  intros Hl Hr. unfold upsert.
  destruct (list_find _ all_predictions) as [[i old]|].
  - by apply Forall_insert.
  - apply Forall_app. split; [done|by constructor].
Qed.

Lemma save_elem result w :
  ∃ l, predictions_file (save result w) = Some l ∧ result ∈ l.
Proof.
  unfold save. destruct (predictions_file w) as [l|]; simpl.
  - eexists. split; [done|apply upsert_elem].
  - eexists. split; [done|by left].
Qed.

Lemma evaluate_raises_elem pred l :
  pred ∈ l → compares_none pred = true → evaluate l = Raise TypeError.
Proof.
  intros Hin%list_elem_of_In Hp. rewrite evaluate_spec.
  assert (existsb compares_none l = true) as ->; [|done].
  apply existsb_exists. eauto.
Qed.

(** X8: the filler interval breaks the evaluator, in general.  When
    [run_single_image.py] processes an item that has no ["ground_truth"]
    and a value is extracted from the response, the predictions file it
    leaves makes [evaluate] raise [TypeError], whatever else the file
    holds. *)
Theorem X8_missing_ground_truth_breaks_evaluate
    (env : Env) (dataset : list Item) (image_id : pystr) (item : Item)
    (w : World) (text : pystr) (a : Answer) (v : Q) :
  find_image_in_dataset dataset image_id = Some item →
  i_ground_truth item = None →
  client_init env (trace w) = true →
  image_open env (trace w) (i_image_path item) = true →
  vlm_query env (trace w) (i_image_path item)
    (create_prompt (i_question item)
       (Some (default (str "Unknown") (i_image_type item)))) = Text text →
  parse_answer (Some text) = Return a →
  value a = Some v →
  ∃ l, predictions_file (main env dataset image_id w).1 = Some l
       ∧ evaluate l = Raise TypeError.
Proof.
  intros Hf Hgt Hc Ho Hq Hp Hv. unfold main, process_single.
  rewrite Hf, Hc, Ho, Hq, Hp, Hgt.
  cbv beta iota zeta delta [fst snd default].
  match goal with |- context [save ?r ?w0] =>
    destruct (save_elem r w0) as (l & Hl & Hin) end.
  exists l. split; [done|].
  eapply evaluate_raises_elem; [done|].
  unfold compares_none. simpl. by rewrite Hv.
Qed.

Lemma X8_missing_ground_truth_breaks_evaluate_witness :
  ∃ l, predictions_file
         (main (answering (str "Answer: 4.4 A")) [cylinder_item; ammeter_item]
            (str "q1") (mkWorld (Some [saved_q2]) [])).1 = Some l
       ∧ evaluate l = Raise TypeError.
Proof.
  apply (X8_missing_ground_truth_breaks_evaluate _ _ _ ammeter_item _
           (str "Answer: 4.4 A")
           (mkAnswer (Some 4.4%Q) (Some (str "A")) (Some (str "4.4 A")))
           4.4%Q);
    vm_compute; reflexivity.
Defined.

Lemma process_single_file env image_path asked instrument_type w :
  predictions_file (process_single env image_path asked instrument_type w).1
  = predictions_file w.
Proof. apply process_single_file_kept. Qed.

Lemma find_image_in_dataset_Some dataset image_id item :
  find_image_in_dataset dataset image_id = Some item →
  item ∈ dataset ∧ i_question_id item = image_id ∧ image_id ≠ [].
Proof.
  unfold find_image_in_dataset. case_bool_decide as Hid; [done|].
  destruct (list_find _ dataset) as [[i x]|] eqn:Hf; [|done].
  intros [= <-]. apply list_find_Some in Hf as (Hi & Hx & _).
  split_and!; [by eapply list_elem_of_lookup_2|done|done].
Qed.

Lemma save_evaluable result w :
  evaluable w → compares_none result = false → evaluable (save result w).
Proof.
  intros Hw Hr l. unfold save.
  destruct (predictions_file w) as [old|] eqn:Hold; simpl; intros [= <-].
  - apply upsert_Forall; [by apply Hw|done].
  - by repeat constructor.
Qed.

Lemma main_evaluable env dataset image_id w :
  Forall numeric_ground_truth dataset →
  evaluable w → evaluable (main env dataset image_id w).1.
Proof.
  intros Hd Hw. unfold main.
  destruct (find_image_in_dataset dataset image_id) as [item|] eqn:Hf; [|done].
  destruct (client_init env (trace w)); [|done].
  destruct (process_single env _ _ _ w) as [w1 [result|]] eqn:Hp; simpl.
  - apply save_evaluable.
    + intros l Hl. apply Hw. by rewrite <- Hl, <- (process_single_file env
        (i_image_path item) (i_question item)
        (Some (default (str "Unknown") (i_image_type item))) w), Hp.
    + apply find_image_in_dataset_Some in Hf as (Hin & _).
      rewrite Forall_forall in Hd. specialize (Hd item Hin).
      unfold numeric_ground_truth in Hd. unfold compares_none. simpl.
      destruct (predicted_value result); [|done].
      destruct (i_ground_truth item) as [g|]; [|done]. simpl.
      destruct (gt_interval g) as [[lo hi]|]; [|done].
      by destruct Hd as [[??] [??]]; subst.
  - intros l Hl. apply Hw. by rewrite <- Hl, <- (process_single_file env
        (i_image_path item) (i_question item)
        (Some (default (str "Unknown") (i_image_type item))) w), Hp.
Qed.

Lemma run_loop_evaluable env dataset processed_ids items w :
  Forall numeric_ground_truth dataset →
  evaluable w → evaluable (run_loop env dataset processed_ids items w).1.
Proof.
  intros Hd. apply (run_loop_keeps evaluable). intros image_id w'.
  by apply main_evaluable.
Qed.




(** The same holds for a run that starts without a file, whenever it
    leaves one; a run in which nothing is saved leaves none. *)
Lemma fresh_run_evaluable env dataset l :
  Forall numeric_ground_truth dataset →
  predictions_file (run_evaluation env dataset fresh).1 = Some l →
  evaluate l = Return (tally l).
Proof.
  intros Hd Hl. rewrite evaluate_spec.
  assert (evaluable fresh) as Hw by (by intros ? [=]).
  pose proof (run_loop_evaluable env dataset (processed_ids_of fresh) dataset
                fresh Hd Hw l Hl) as Hall.
  assert (existsb compares_none l = false) as ->; [|done].
  apply not_true_is_false. intros (p & Hin%list_elem_of_In & Hp)%existsb_exists.
  rewrite Forall_forall in Hall. specialize (Hall p Hin). congruence.
Qed.

Example nothing_saved_leaves_no_file :
  predictions_file
    (run_evaluation (except_on (str "images/q2.png") QueryRaises)
       [gauge "q2"] fresh).1 = None.
Proof. reflexivity. Qed.

(** ** What a run does to the world *)

Lemma queries_app t1 t2 : queries (t1 ++ t2) = queries t1 ++ queries t2.
Proof. apply omap_app. Qed.

Lemma writes_app t1 t2 : writes (t1 ++ t2) = writes t1 ++ writes t2.
Proof. apply omap_app. Qed.

Lemma extends_refl n w : extends n w w.
Proof.
  exists []. rewrite app_nil_r. simpl. split_and!; [done|lia|done|done|done].
Qed.




Lemma process_single_world env image_path question instrument_type w :
  process_single env image_path question instrument_type w = (w, None)
  ∨ ∃ result,
      process_single env image_path question instrument_type w
      = (log (Query image_path (create_prompt question instrument_type)) w,
         result)
      ∧ ∀ r, result = Some r → question_id r = stem image_path.
Proof.
  unfold process_single. destruct (image_open _ _ _); [|by left].
  right. destruct (vlm_query _ _ _ _).
  - destruct (parse_answer _); eexists; (split; [done|]); [|done].
    by intros r [= <-].
  - eexists. split; [done|]. by intros r [= <-].
  - eexists. by split.
Qed.



Lemma main_cases env dataset image_id w :
  main env dataset image_id w = (w, 0)
  ∨ main env dataset image_id w = (w, 1)
  ∨ ∃ item p q,
      find_image_in_dataset dataset image_id = Some item
      ∧ p = i_image_path item
      ∧ (main env dataset image_id w = (log (Query p q) w, 0)
         ∨ ∃ result,
             main env dataset image_id w
             = (save result (log (Query p q) w), 0)
             ∧ question_id result = stem p).
Proof.
  unfold main.
  destruct (find_image_in_dataset dataset image_id) as [item|]; [|by left].
  destruct (client_init env (trace w)); [|by right; left].
  destruct (process_single_world env (i_image_path item) (i_question item)
              (Some (default (str "Unknown") (i_image_type item))) w)
    as [->|(result & -> & Hr)]; [by left|].
  right. right. exists item. do 2 eexists. split; [done|]. split; [done|].
  destruct result as [r|]; [|by left].
  right. eexists. split; [done|]. simpl. by apply Hr.
Qed.








(** ** A producer that always answers *)







Example repeated_id_is_queried_twice :
  let w :=
    (run_evaluation (answering (str "Answer: 4.4 A"))
       [gauge "q1"; gauge "q2"; gauge "q1"] fresh).1 in
  queries (trace w)
  = [str "images/q1.png"; str "images/q2.png"; str "images/q1.png"]
  ∧ ids_of w = [str "q1"; str "q2"].
Proof. vm_compute. done. Qed.


(** ** The dataset runner of method1_inference.py *)

Lemma row_of_fails item result :
  row_of item result
  = Fails (row_error result).
Proof. by destruct result. Qed.

Lemma evaluate_dataset_cons env item dataset w :
  evaluate_dataset env (item :: dataset) w
  = let '(w1, result) :=
      process_single env (i_image_path item) (i_question item)
        (i_image_type item) w in
    (w1, Fails (row_error result)).
Proof.
  unfold evaluate_dataset. simpl.
  destruct (process_single _ _ _ _ _) as [w1 result].
  by rewrite row_of_fails.
Qed.

Lemma process_single_extends env image_path question instrument_type w :
  extends 1 w (process_single env image_path question instrument_type w).1
  ∧ writes (trace (process_single env image_path question instrument_type w).1)
    = writes (trace w).
Proof.
  destruct (process_single_world env image_path question instrument_type w)
    as [->|(result & -> & _)]; [split; [apply extends_refl|done]|].
  simpl. split.
  - eexists [Query _ _]. simpl. split_and!; [done|lia|lia|done|done].
  - by rewrite writes_app, app_nil_r.
Qed.

(** X13: [evaluate_dataset] cannot get past the first item.  On an empty
    dataset it replaces the predictions file by the empty list.  On any
    other dataset it raises while it builds the row of the first item:
    [KeyError] for the key ["vlm_response"], which [process_single] never
    sets, or [TypeError] when [process_single] returned [None]; by then it
    has queried the producer at most once, and it has written nothing, so
    the predictions file is as it was. *)
Theorem X13_evaluate_dataset_stops_at_first_item
    (env : Env) (dataset : list Item) (w : World) :
  let w' := (evaluate_dataset env dataset w).1 in
  let outcome := (evaluate_dataset env dataset w).2 in
  match dataset with
  | [] =>
      outcome = Found []
      ∧ predictions_file w' = Some []
      ∧ trace w' = trace w ++ [Write []]
  | item :: _ =>
      let result :=
        (process_single env (i_image_path item) (i_question item)
           (i_image_type item) w).2 in
      outcome = Fails (row_error result)
      ∧ predictions_file w' = predictions_file w
      ∧ writes (trace w') = writes (trace w)
      ∧ length (queries (trace w')) ≤ S (length (queries (trace w)))
  end.
Proof.
  destruct dataset as [|item dataset]; [done|].
  rewrite evaluate_dataset_cons.
  pose proof (process_single_extends env (i_image_path item) (i_question item)
                (i_image_type item) w) as [(new & Ht & Hq & _) Hw].
  pose proof (process_single_file env (i_image_path item) (i_question item)
                (i_image_type item) w) as Hf.
  destruct (process_single _ _ _ _ _) as [w1 result]. simpl in *.
  split_and!; [done|done|done|].
  rewrite Ht, queries_app, length_app. lia.
Qed.

Lemma evaluate_dataset_footprint env dataset w :
  let w' := (evaluate_dataset env dataset w).1 in
  length (queries (trace w')) ≤ S (length (queries (trace w)))
  ∧ (predictions_file w' = predictions_file w
     ∨ (dataset = [] ∧ predictions_file w' = Some [])).
Proof.
  destruct dataset as [|item dataset]; simpl.
  - rewrite queries_app, app_nil_r. split; [lia|by right].
  - rewrite evaluate_dataset_cons.
    pose proof (process_single_extends env (i_image_path item)
                  (i_question item) (i_image_type item) w)
      as [(new & Ht & Hq & _) _].
    pose proof (process_single_file env (i_image_path item) (i_question item)
                  (i_image_type item) w) as Hf.
    destruct (process_single _ _ _ _ _) as [w1 result]. simpl in *.
    split; [|by left]. rewrite Ht, queries_app, length_app. lia.
Qed.

Lemma limited_prefix limit dataset :
  run_method1.limited limit dataset `prefix_of` dataset.
Proof.
  unfold run_method1.limited. destruct limit as [n|]; [|done].
  repeat case_bool_decide; [done|apply prefix_take..].
Qed.

Lemma take_eq_nil_iff {A} (l : list A) n : take n l = [] ↔ n = 0 ∨ l = [].
Proof.
  split; [apply take_nil_inv|]. intros [->| ->]; [apply take_0|apply take_nil].
Qed.

Lemma limited_nil limit dataset :
  run_method1.limited limit dataset = []
  ↔ dataset = []
    ∨ ∃ n, limit = Some n ∧ (n ≤ - Z.of_nat (length dataset))%Z ∧ n ≠ 0%Z.
Proof.
  unfold run_method1.limited. destruct limit as [n|].
  - case_bool_decide as H0; [|case_bool_decide as Hpos].
    + subst n. split; [by left|]. by intros [?|(n & [= <-] & _ & ?)].
    + rewrite take_eq_nil_iff. split.
      * intros [?|?]; [lia|by left].
      * intros [->|(m & [= <-] & Hm & _)]; [by right|].
        right. destruct dataset; [done|]. simpl in Hm. lia.
    + rewrite take_eq_nil_iff. split.
      * intros [Hl| ->]; [|by left]. right. exists n. split_and!; [done|lia|done].
      * intros [->|(m & [= <-] & Hm & _)]; [by right|lia].
  - split; [by left|]. by intros [?|(n & [=] & _)].
Qed.

(** X14: [run_method1.py] never saves a prediction.  Whatever the model
    answers and however large the dataset, the run makes at most one
    query; the predictions file is left as it was, or, when the limited
    dataset is empty, replaced by the empty list.  The limited dataset is
    a prefix of the dataset; [--limit 0] does not limit, and the limited
    dataset is empty only for an empty dataset or a negative limit that
    drops every item. *)
Theorem X14_run_method1_saves_nothing
    (env : Env) (limit : option Z) (dataset : list Item) (w : World) :
  let w' := (run_method1.main env limit dataset w).1 in
  length (queries (trace w')) ≤ S (length (queries (trace w)))
  ∧ (predictions_file w' = predictions_file w
     ∨ (run_method1.limited limit dataset = [] ∧ predictions_file w' = Some []))
  ∧ run_method1.limited limit dataset `prefix_of` dataset
  ∧ run_method1.limited (Some 0%Z) dataset = dataset
  ∧ (run_method1.limited limit dataset = []
     ↔ dataset = []
       ∨ ∃ n, limit = Some n ∧ (n ≤ - Z.of_nat (length dataset))%Z ∧ n ≠ 0%Z).
Proof.
  intros w'. subst w'.
  assert (length (queries (trace (run_method1.main env limit dataset w).1))
          ≤ S (length (queries (trace w)))
          ∧ (predictions_file (run_method1.main env limit dataset w).1
             = predictions_file w
             ∨ (run_method1.limited limit dataset = []
                ∧ predictions_file (run_method1.main env limit dataset w).1
                  = Some []))) as [Hq Hf].
  { unfold run_method1.main.
    destruct (client_init env (trace w)); [|simpl; split; [lia|by left]].
    pose proof (evaluate_dataset_footprint env
                  (run_method1.limited limit dataset) w) as H.
    by destruct (evaluate_dataset _ _ _) as [w1 outcome]. }
  split_and!; [done|done|apply limited_prefix|done|apply limited_nil].
Qed.

Example negative_limit_empties_the_file :
  predictions_file
    (run_method1.main (answering (str "Answer: 4.4 A")) (Some (-3)%Z)
       three_items (mkWorld (Some [saved_q2]) [])).1 = Some []
  ∧ predictions_file
      (run_method1.main (answering (str "Answer: 4.4 A")) None
         three_items (mkWorld (Some [saved_q2]) [])).1 = Some [saved_q2].
Proof. by vm_compute. Qed.

(** ** Which models can produce a prediction *)

Lemma client_env_unsupported s model_name :
  contains (str "gemini") model_name = false →
  contains (str "gpt") model_name = false →
  (∀ t, client_init (client_env s model_name) t = true)
  ∧ ∀ t p q, vlm_query (client_env s model_name) t p q = QueryRaises.
Proof.
  intros Hg Hp.
  cbv beta iota delta [client_env client_init vlm_query VLMClient.query
                       VLMClient.get_response VLMClient._setup_client].
  by rewrite Hg, Hp.
Qed.

Lemma process_single_raises env image_path question instrument_type w :
  (∀ t p q, vlm_query env t p q = QueryRaises) →
  (process_single env image_path question instrument_type w).2 = None
  ∧ predictions_file
      (process_single env image_path question instrument_type w).1
    = predictions_file w
  ∧ writes (trace (process_single env image_path question instrument_type w).1)
    = writes (trace w).
Proof.
  intros Hq. unfold process_single.
  destruct (image_open env (trace w) image_path); [|done].
  rewrite Hq. simpl. by rewrite writes_app, app_nil_r.
Qed.

Lemma main_raises env dataset image_id w :
  (∀ t, client_init env t = true) →
  (∀ t p q, vlm_query env t p q = QueryRaises) →
  (main env dataset image_id w).2 = 0
  ∧ predictions_file (main env dataset image_id w).1 = predictions_file w
  ∧ writes (trace (main env dataset image_id w).1) = writes (trace w).
Proof.
  intros Hi Hq. unfold main.
  destruct (find_image_in_dataset dataset image_id) as [item|]; [|done].
  rewrite Hi.
  destruct (process_single_raises env (i_image_path item) (i_question item)
              (Some (default (str "Unknown") (i_image_type item))) w Hq)
    as (Hr & Hf & Hw).
  destruct (process_single _ _ _ _ _) as [w1 result]. simpl in *.
  by subst result.
Qed.

(** X15: a model that is neither a Gemini nor a GPT model never yields a
    prediction.  When the model name contains neither "gemini" nor "gpt"
    (the choice [qwen2-vl-7b] of [run_single_image.py], say), the client is
    set up without an error, every query raises inside [process_single],
    which returns [None]; [run_single_image.py] then saves nothing, leaves
    the predictions file as it was and still ends with status 0, and
    [evaluate_dataset] fails with [TypeError] on its first item. *)
Theorem X15_unsupported_model_saves_nothing
    (s : Services) (model_name : pystr) (dataset : list Item)
    (image_id : pystr) (w : World) :
  contains (str "gemini") model_name = false →
  contains (str "gpt") model_name = false →
  let env := client_env s model_name in
  (main env dataset image_id w).2 = 0
  ∧ predictions_file (main env dataset image_id w).1 = predictions_file w
  ∧ writes (trace (main env dataset image_id w).1) = writes (trace w)
  ∧ (∀ item items,
       dataset = item :: items →
       (evaluate_dataset env dataset w).2 = Fails NoneNotSubscriptable).
Proof.
  intros Hg Hp env.
  destruct (client_env_unsupported s model_name Hg Hp) as [Hi Hq].
  destruct (main_raises env dataset image_id w Hi Hq) as (? & ? & ?).
  split_and!; [done..|].
  intros item items ->. rewrite evaluate_dataset_cons.
  destruct (process_single_raises env (i_image_path item) (i_question item)
              (i_image_type item) w Hq) as (Hr & _).
  destruct (process_single _ _ _ _ _) as [w1 result]. simpl in *.
  by subst result.
Qed.

Lemma X15_unsupported_model_saves_nothing_witness :
  let env := client_env working (str "qwen2-vl-7b") in
  (main env three_items (str "q1") fresh).2 = 0
  ∧ predictions_file (main env three_items (str "q1") fresh).1
    = predictions_file fresh
  ∧ writes (trace (main env three_items (str "q1") fresh).1)
    = writes (trace fresh)
  ∧ (∀ item items,
       three_items = item :: items →
       (evaluate_dataset env three_items fresh).2 = Fails NoneNotSubscriptable).
Proof.
  apply (X15_unsupported_model_saves_nothing working (str "qwen2-vl-7b"));
    vm_compute; reflexivity.
Defined.

Lemma client_env_gpt s model_name :
  contains (str "gemini") model_name = false →
  contains (str "gpt") model_name = true →
  (∀ t p, open_rb s t (ImageObject p) = false) →
  ∀ t p q, vlm_query (client_env s model_name) t p q = NoResponse.
Proof.
  intros Hg Hp Ho t p q.
  cbv beta iota delta [client_env vlm_query VLMClient.query
                       VLMClient.get_response VLMClient._query_gpt4].
  by rewrite Hg, Hp, Ho.
Qed.

Lemma save_world result w :
  ∃ contents,
    save result w = mkWorld (Some contents) (trace w ++ [Write contents])
    ∧ result ∈ contents.
Proof.
  unfold save, log. destruct (predictions_file w) as [l|]; simpl.
  - eexists. split; [done|apply upsert_elem].
  - eexists. split; [done|by left].
Qed.

(** X16: a GPT model never yields a prediction through [process_single].
    [process_single] hands the opened image to the client, and
    [_query_gpt4] calls [open] on what it is given; as [open] takes no
    image object, the query returns [None] before the remote call is
    made.  So whatever the remote service would answer, the record
    [run_single_image.py] saves for an item has no raw output, no value and
    no unit. *)
Theorem X16_gpt_model_saves_empty_records
    (s : Services) (model_name : pystr) (dataset : list Item)
    (image_id : pystr) (w : World) :
  contains (str "gemini") model_name = false →
  contains (str "gpt") model_name = true →
  (∀ t p, open_rb s t (ImageObject p) = false) →
  let w' := (main (client_env s model_name) dataset image_id w).1 in
  Forall (λ contents,
            contents ∈ writes (trace w)
            ∨ ∃ r, r ∈ contents
                   ∧ prediction r = None ∧ predicted_value r = None
                   ∧ predicted_unit r = None
                   ∧ predictions_file w' = Some contents)
    (writes (trace w')).
Proof.
  intros Hg Hp Ho w'. subst w'. apply Forall_forall. intros contents.
  pose proof (client_env_gpt s model_name Hg Hp Ho) as Hq.
  unfold main.
  destruct (find_image_in_dataset dataset image_id) as [item|]; [|by left].
  destruct (client_init _ _); [|by left].
  unfold process_single. destruct (image_open _ _ _); [|by left].
  rewrite Hq. cbv beta iota zeta delta [fst snd].
  match goal with |- context [save ?r ?w0] =>
    destruct (save_world r w0) as (c & -> & Hin)
  end.
  unfold log. simpl.
  rewrite <- (assoc_L (++)), writes_app.
  intros [?|Hw%list_elem_of_singleton]%elem_of_app; [by left|]. subst contents.
  right. eexists. by split_and!; [exact Hin|..].
Qed.

Lemma X16_gpt_model_saves_empty_records_witness :
  let w' := (main (client_env working (str "gpt-4o")) three_items (str "q1")
               fresh).1 in
  Forall (λ contents,
            contents ∈ writes (trace fresh)
            ∨ ∃ r, r ∈ contents
                   ∧ prediction r = None ∧ predicted_value r = None
                   ∧ predicted_unit r = None
                   ∧ predictions_file w' = Some contents)
    (writes (trace w')).
Proof.
  apply (X16_gpt_model_saves_empty_records working (str "gpt-4o"));
    [vm_compute; reflexivity..|reflexivity].
Defined.

Example gpt_answer_is_never_asked_for :
  predictions_file
    (main (client_env working (str "gpt-4o")) three_items (str "q1") fresh).1
  = Some [mkPrediction (str "q1") None None None None (Some (str "Unknown"))
            (Some missing_ground_truth)]
  ∧ (prediction <$>
       default [] (predictions_file
         (main (client_env working (str "gemini-2.5-flash")) three_items
            (str "q1") fresh).1))
    = [Some (str "Answer: 4.4 A")].
Proof. by vm_compute. Qed.

Lemma run_loop_done env dataset processed_ids items w :
  (∀ t, client_init env t = true) →
  plain_ids items →
  (run_loop env dataset processed_ids items w).2 = Done.
Proof.
  intros Hi Hplain. revert w.
  induction items as [|item items IH]; intros w; [done|].
  apply Forall_cons in Hplain as [Hitem Hplain]. specialize (IH Hplain).
  simpl. case_bool_decide; [apply IH|].
  rewrite subprocess_run_plain by done.
  destruct (main_cases env dataset (i_question_id item) w)
    as [->|[Hm|(it & p & q & _ & _ & [->|(r & -> & _)])]];
    try (rewrite bool_decide_false by (by intros ?); apply IH).
  exfalso. unfold main in Hm.
  destruct (find_image_in_dataset _ _); [|done]. rewrite Hi in Hm.
  destruct (process_single _ _ _ _ _) as [w1 [r|]]; done.
Qed.

(** X17: with the key in the environment and ids that are plain words,
    a batch run with a Gemini model always reaches the end of the
    dataset.  Once the command line has been read, the child process
    cannot fail: the exit status of [main] is 0 for every id, so the
    branch that stops the batch is taken only for an id that the shell or
    the argument parser does not pass on, whatever the remote service
    answers; a query never raises, it gives a text or [None]. *)
Theorem X17_gemini_batch_reaches_the_end
    (s : Services) (model_name : pystr) (dataset : list Item) (w : World) :
  contains (str "gemini") model_name = true →
  (∀ t, gemini_key s t = true) →
  plain_ids dataset →
  (run_evaluation (client_env s model_name) dataset w).2 = Done
  ∧ (∀ image_id w0, (main (client_env s model_name) dataset image_id w0).2 = 0)
  ∧ (∀ t p q, vlm_query (client_env s model_name) t p q ≠ QueryRaises).
Proof.
  intros Hg Hk Hplain.
  assert (∀ t, client_init (client_env s model_name) t = true) as Hi.
  { intros t.
    cbv beta iota delta [client_env client_init VLMClient._setup_client].
    by rewrite Hg, Hk. }
  split_and!.
  - by apply run_loop_done.
  - intros image_id w0.
    destruct (main_cases (client_env s model_name) dataset image_id w0)
      as [->|[Hm|(it & p & q & _ & _ & [->|(r & -> & _)])]]; try done.
    exfalso. unfold main in Hm.
    destruct (find_image_in_dataset _ _); [|done]. rewrite Hi in Hm.
    destruct (process_single _ _ _ _ _) as [w1 [r|]]; done.
  - intros t p q.
    cbv beta iota delta [client_env vlm_query VLMClient.query
                         VLMClient.get_response].
    rewrite Hg. by destruct (VLMClient._query_gemini _ _ _ _).
Qed.

Lemma X17_gemini_batch_reaches_the_end_witness :
  (run_evaluation (client_env working (str "gemini-2.5-flash")) three_items
     fresh).2 = Done
  ∧ (∀ image_id w0,
       (main (client_env working (str "gemini-2.5-flash")) three_items
          image_id w0).2 = 0)
  ∧ (∀ t p q,
       vlm_query (client_env working (str "gemini-2.5-flash")) t p q
       ≠ QueryRaises).
Proof.
  apply (X17_gemini_batch_reaches_the_end working (str "gemini-2.5-flash"));
    [vm_compute; reflexivity|reflexivity|apply three_items_plain].
Defined.

Example gemini_batch_stops_on_a_spaced_id :
  (run_evaluation (client_env working (str "gemini-2.5-flash"))
     [mkItem (str "q 1") (str "What is the reading?") (str "images/q 1.png")
        None None] fresh)
  = (fresh, Stopped).
Proof. reflexivity. Qed.

(** ** Finding an item by a part of its image path *)

Lemma starts_spec needle hay :
  starts needle hay = true ↔ ∃ post, hay = needle ++ post.
Proof.
  revert hay. induction needle as [|a needle IH]; intros hay; simpl.
  - split; [by exists hay|done].
  - destruct hay as [|b hay]; [by split; [|intros [? [=]]]|].
    rewrite andb_true_iff, bool_decide_eq_true, IH. split.
    + intros [-> [post ->]]. by exists post.
    + intros [post [= -> ->]]. split; [done|by exists post].
Qed.

Lemma contains_spec needle hay :
  contains needle hay = true ↔ ∃ pre post, hay = pre ++ needle ++ post.
Proof.
  induction hay as [|b hay IH]; simpl.
  - rewrite orb_false_r, starts_spec. split.
    + intros [post ->]. by exists [], post.
    + intros (pre & post & H). symmetry in H.
      apply app_eq_nil in H as [-> H]. by exists post.
  - rewrite orb_true_iff, starts_spec, IH. split.
    + intros [[post ->]|(pre & post & ->)]; [by exists [], post|].
      by exists (b :: pre), post.
    + intros ([|c pre] & post & H); [left; by exists post|].
      injection H as -> ->. right. by exists pre, post.
Qed.

(** X18: how [run_single_image.py] finds its item.  A given id takes
    precedence and is the only thing looked at: the name is not tried
    when no item has the id.  Without an id, the first item whose image
    path contains the name, both in lower case, is found; so an item is
    always found by any non-empty part of the image path of some item,
    and it is that item or an earlier one. *)
Theorem X18_id_before_name :
  (∀ dataset image_id image_name,
     image_id ≠ [] →
     find_image_in_dataset_by dataset (Some image_id) image_name
     = find_image_in_dataset dataset image_id)
  ∧ (∀ dataset image_name item,
       find_image_in_dataset_by dataset None (Some image_name) = Some item →
       image_name ≠ [] ∧ item ∈ dataset
       ∧ ∃ pre post,
           lower (i_image_path item) = pre ++ lower image_name ++ post)
  ∧ (∀ dataset image_name i item pre post,
       dataset !! i = Some item → image_name ≠ [] →
       lower (i_image_path item) = pre ++ lower image_name ++ post →
       ∃ j found,
         j ≤ i ∧ dataset !! j = Some found
         ∧ find_image_in_dataset_by dataset None (Some image_name)
           = Some found)
  ∧ (∀ dataset image_name image_name',
       lower image_name = lower image_name' →
       find_image_in_dataset_by dataset None (Some image_name)
       = find_image_in_dataset_by dataset None (Some image_name')).
Proof.
  split_and!.
  - intros dataset image_id image_name Hne.
    unfold find_image_in_dataset_by, find_image_in_dataset.
    rewrite bool_decide_false by done.
    destruct image_id as [|c image_id]; [done|]. simpl. f_equal.
    apply list_find_ext. intros item. split; [by intros [=]|by intros ->].
  - intros dataset image_name item. unfold find_image_in_dataset_by. simpl.
    destruct image_name as [|c image_name]; [done|]. simpl.
    destruct (list_find _ dataset) as [[i x]|] eqn:Hf; [|done].
    intros [= <-]. apply list_find_Some in Hf as (Hi & Hc & _).
    split_and!; [done|by eapply list_elem_of_lookup_2|].
    apply contains_spec in Hc. exact Hc.
  - intros dataset image_name i item pre post Hi Hne Hp.
    destruct image_name as [|c image_name]; [done|].
    change (find_image_in_dataset_by dataset None (Some (c :: image_name)))
      with (snd <$> list_find
                      (λ item, contains (lower (c :: image_name))
                                 (lower (i_image_path item)) = true) dataset).
    destruct (list_find
                (λ item, contains (lower (c :: image_name))
                           (lower (i_image_path item)) = true) dataset)
      as [[j found]|] eqn:Hf.
    + apply list_find_Some in Hf as (Hj & _ & Hmin).
      exists j, found. split_and!; [|done|done].
      destruct (decide (j ≤ i)) as [|Hgt]; [done|]. exfalso.
      apply (Hmin i item Hi); [lia|]. apply contains_spec. eauto.
    + exfalso. apply list_find_None in Hf. rewrite Forall_forall in Hf.
      apply (Hf item); [by eapply list_elem_of_lookup_2|].
      apply contains_spec. eauto.
  - intros dataset image_name image_name' Hl.
    assert (truthy (Some image_name) = truthy (Some image_name')) as Ht.
    { apply (f_equal length) in Hl. rewrite !lower_length in Hl.
      by destruct image_name, image_name'. }
    unfold find_image_in_dataset_by.
    change (truthy None) with false. cbv iota. rewrite Ht.
    change (default [] (Some ?x)) with x. by rewrite Hl.
Qed.

Example name_finds_an_earlier_item :
  find_image_in_dataset_by [gauge "q10"; gauge "q1"] None (Some (str "Q1"))
  = Some (gauge "q10")
  ∧ find_image_in_dataset_by [gauge "q10"; gauge "q1"] (Some (str "q7"))
      (Some (str "q1")) = None.
Proof. by vm_compute. Qed.

(** ** The printed verdicts and the evaluator *)

Lemma lower_strip_eq p g :
  lower p = lower g → strip (lower p) = strip (lower g).
Proof. by intros ->. Qed.

Lemma display_unit_evaluator pred_unit gt_unit :
  truthy gt_unit = true →
  display_unit_correct pred_unit gt_unit = true →
  is_unit_correct pred_unit gt_unit = true.
Proof.
  unfold display_unit_correct, is_unit_correct.
  destruct gt_unit as [g|]; [|done]. intros Hg. rewrite Hg, andb_true_r.
  destruct pred_unit as [[|c p]|]; simpl; try done.
  intros [= Hl]%bool_decide_eq_true. apply bool_decide_eq_true.
  by apply (lower_strip_eq (c :: p) g).
Qed.

(** X19: the three places that judge a record agree in one direction
    only.  When [run_full_evaluation.py] prints "[CORRECT]" for a record,
    [run_single_image.py] prints "PASS" for it and [evaluate] counts it
    as correct in value and unit.  "PASS" implies the verdict of
    [evaluate] when the item has an expected unit; without one "PASS" is
    still printed while [evaluate] counts the unit as wrong.  And
    [evaluate] accepts records the two displays reject, a unit that is
    padded with white space for one. *)
Theorem X19_printed_verdicts_and_evaluate :
  (∀ record,
     shown_status record = Correct →
     overall_correct record = Some true
     ∧ judge record = Return (verdict record)
     ∧ both_correct (verdict record) = true)
  ∧ (∀ record,
       overall_correct record = Some true →
       truthy (ground_truth record ≫= gt_unit) = true →
       judge record = Return (verdict record)
       ∧ both_correct (verdict record) = true)
  ∧ (overall_correct no_expected_unit = Some true
     ∧ shown_status no_expected_unit = Wrong
     ∧ judge no_expected_unit = Return (verdict no_expected_unit)
     ∧ both_correct (verdict no_expected_unit) = false)
  ∧ (judge padded_unit = Return (verdict padded_unit)
     ∧ both_correct (verdict padded_unit) = true
     ∧ overall_correct padded_unit = Some false
     ∧ shown_status padded_unit = Wrong).
Proof.
  assert (∀ record,
            overall_correct record = Some true →
            truthy (ground_truth record ≫= gt_unit) = true →
            judge record = Return (verdict record)
            ∧ both_correct (verdict record) = true) as Hpass.
  { intros record Ho Hg. rewrite judge_spec.
    unfold overall_correct in Ho. unfold compares_none, verdict, value_ok, unit_ok.
    simpl.
    destruct (predicted_value record) as [v|]; [|done].
    destruct (ground_truth record ≫= gt_interval) as [[[lo|] [hi|]]|];
      try done; simpl in Ho; try done; injection Ho as Ho.
    apply andb_true_iff in Ho as [Hv Hu]. rewrite Hv.
    by rewrite (display_unit_evaluator _ _ Hg Hu). }
  split_and!; [|done|by vm_compute..].
  intros record Hs.
  assert (overall_correct record = Some true
          ∧ truthy (ground_truth record ≫= gt_unit) = true) as [Ho Hg].
  { unfold shown_status in Hs. unfold overall_correct, display_unit_correct.
    destruct (predicted_value record) as [v|]; [|done].
    destruct (ground_truth record ≫= gt_interval) as [[[lo|] [hi|]]|];
      try done; simpl in Hs.
    - destruct (Qle_bool lo v); simpl in Hs; [|done].
      destruct (Qle_bool v hi); simpl in Hs |- *; [|done].
      destruct (truthy (predicted_unit record)); simpl in Hs |- *; [|done].
      destruct (truthy (ground_truth record ≫= gt_unit)); simpl in Hs |- *;
        [|done].
      by destruct (bool_decide _).
    - by destruct (Qle_bool lo v). }
  split; [done|]. by apply Hpass.
Qed.

(** ** The datasets the downloader writes *)

Example format_04d_values :
  format_04d 0 = str "0000" ∧ format_04d 363 = str "0363"
  ∧ format_04d (N.to_nat 12345) = str "12345".
Proof. by vm_compute. Qed.

Lemma digit_char_spec d :
  (d < 10)%N →
  Char.is_digit (digit_char d) = true
  ∧ (Char.code (digit_char d) - 48 = d)%N.
Proof.
  intros Hd. unfold digit_char.
  assert (d ∈ [0; 1; 2; 3; 4; 5; 6; 7; 8; 9]%N) as Hin.
  { destruct d as [|p]; [set_solver|].
    repeat (destruct p as [p|p|]; try lia; try set_solver). }
  repeat (apply elem_of_cons in Hin as [->|Hin]; [by vm_compute|]).
  by apply elem_of_nil in Hin.
Qed.

Lemma decimal_aux_digits fuel n acc :
  (n < 10 ^ N.of_nat fuel)%N →
  ∃ k, ∀ a,
    digits a (decimal_aux fuel n acc) = digits (a * 10 ^ k + n) acc.
Proof.
  revert n acc. induction fuel as [|fuel IH]; intros n acc Hn.
  - exists 0%N. intros a. simpl in *. f_equal. lia.
  - simpl decimal_aux. destruct (N.ltb_spec n 10) as [Hlt|Hge].
    + exists 1%N. intros a. simpl.
      destruct (digit_char_spec (n mod 10)) as [-> ->];
        [by apply N.mod_lt|].
      rewrite N.mod_small by done. f_equal; lia.
    + destruct (IH (n / 10)%N (digit_char (n mod 10) :: acc)) as [k Hk].
      { apply N.Div0.div_lt_upper_bound.
        rewrite Nat2N.inj_succ, N.pow_succ_r' in Hn. lia. }
      exists (N.succ k). intros a. rewrite Hk. simpl.
      destruct (digit_char_spec (n mod 10)) as [-> ->];
        [by apply N.mod_lt|].
      f_equal. rewrite N.pow_succ_r'.
      pose proof (N.div_mod n 10). lia.
Qed.

Lemma digits_decimal n : digits 0 (decimal n) = Some n.
Proof.
  unfold decimal.
  destruct (decimal_aux_digits (S (N.to_nat (N.log2 n))) n []) as [k Hk].
  - rewrite Nat2N.inj_succ, N2Nat.id.
    destruct (decide (n = 0%N)) as [->|Hn]; [done|].
    destruct (N.log2_spec n) as [_ Hlt]; [lia|].
    eapply N.lt_le_trans; [exact Hlt|].
    apply N.pow_le_mono_l. lia.
  - rewrite Hk. simpl. f_equal; lia.
Qed.

Lemma digits_zeros m s : digits 0 (replicate m "0"%char ++ s) = digits 0 s.
Proof. induction m as [|m IH]; [done|]. simpl. exact IH. Qed.

Lemma digits_format_04d idx :
  digits 0 (format_04d idx) = Some (N.of_nat idx).
Proof. unfold format_04d. by rewrite digits_zeros, digits_decimal. Qed.

Lemma format_04d_inj idx idx' : format_04d idx = format_04d idx' → idx = idx'.
Proof.
  intros H. apply (f_equal (digits 0)) in H.
  rewrite !digits_format_04d in H. injection H as H. lia.
Qed.

Lemma format_04d_digits idx :
  Forall (λ c, Char.is_digit c = true) (format_04d idx).
Proof. apply (digits_is_Some 0). rewrite digits_format_04d. eauto. Qed.

Lemma split_on_cons c s : ∃ w ws, split_on c s = w :: ws.
Proof.
  induction s as [|x s (w & ws & IH)]; simpl; [by eauto|].
  case_bool_decide; [by eauto|]. rewrite IH. eauto.
Qed.

Lemma split_on_whole c s : c ∉ s → split_on c s = [s].
Proof.
  induction s as [|x s IH]; [done|]. intros Hc. simpl.
  rewrite bool_decide_false by (intros ->; apply Hc; left).
  rewrite IH; [done|]. intros ?. apply Hc. by right.
Qed.

Lemma split_on_app c a b :
  split_on c (a ++ c :: b) = split_on c a ++ split_on c b.
Proof.
  induction a as [|x a IH]; simpl.
  - by rewrite bool_decide_true.
  - case_bool_decide; [by rewrite IH|]. rewrite IH.
    by destruct (split_on_cons c a) as (w & ws & ->).
Qed.

Lemma path_name_file dir name :
  "/"%char ∉ name → name ≠ [] → name ≠ str "." →
  path_name (dir ++ str "/" ++ name) = name.
Proof.
  intros Hs Hne Hdot. unfold path_name.
  change (dir ++ str "/" ++ name) with (dir ++ "/"%char :: name).
  rewrite split_on_app, (split_on_whole _ name) by done.
  rewrite filter_app, filter_cons_True by done.
  by rewrite filter_nil, last_snoc.
Qed.

Lemma rfind_from_absent c s i found :
  c ∉ s → rfind_from c s i found = found.
Proof.
  revert i found. induction s as [|x s IH]; intros i found Hc; [done|].
  simpl. rewrite bool_decide_false by (intros ->; apply Hc; left).
  apply IH. intros ?. apply Hc. by right.
Qed.

Lemma rfind_from_last c a b i found :
  c ∉ b → rfind_from c (a ++ c :: b) i found = Some (i + length a).
Proof.
  intros Hb. revert i found. induction a as [|x a IH]; intros i found; simpl.
  - rewrite bool_decide_true by done. rewrite rfind_from_absent by done.
    f_equal. lia.
  - rewrite IH. f_equal. lia.
Qed.

Lemma stem_suffix dir base ext :
  "/"%char ∉ base → "/"%char ∉ ext → "."%char ∉ ext →
  base ≠ [] → ext ≠ [] →
  stem (dir ++ str "/" ++ base ++ str "." ++ ext) = base.
Proof.
  intros Hb He Hd Hbn Hen. unfold stem.
  rewrite path_name_file.
  - change (base ++ str "." ++ ext) with (base ++ "."%char :: ext).
    unfold rfind. rewrite rfind_from_last by done. simpl.
    rewrite length_app. simpl.
    destruct base as [|b base]; [done|]. destruct ext as [|e ext]; [done|].
    assert (((0 <? length (b :: base))
             && (length (b :: base)
                 <? length (b :: base) + S (length (e :: ext)) - 1)) = true)
      as ->.
    { apply andb_true_iff. split; [done|]. apply Nat.ltb_lt. simpl. lia. }
    by rewrite take_app_length.
  - intros [?|[[=]%list_elem_of_singleton|?]%elem_of_app]%elem_of_app; done.
  - by destruct base.
  - destruct base as [|b [|b' base]]; [done| |done].
    destruct ext; [done|]. by destruct ext.
Qed.

Lemma digit_not_slash c : Char.is_digit c = true → c ≠ "/"%char.
Proof. by intros H ->. Qed.

Lemma entry_paths_match images split_name idx item :
  "/"%char ∉ split_name →
  stem (i_image_path (entry images split_name idx item))
  = i_question_id (entry images split_name idx item)
  ∧ i_question_id (entry images split_name idx item) ≠ [].
Proof.
  intros Hs. unfold entry. cbn [i_image_path i_question_id].
  split; [|by destruct split_name].
  trans (stem (images ++ str "/" ++ (split_name ++ str "_" ++ format_04d idx)
               ++ str "." ++ str "png")).
  { f_equal. by rewrite <- !(assoc_L (++)). }
  apply stem_suffix;
    [|apply (bool_decide_unpack _); vm_compute; exact I..| |done].
  - intros [?|[H|Hd]%elem_of_app]%elem_of_app; [done| |].
    + by apply list_elem_of_singleton in H.
    + pose proof (format_04d_digits idx) as Hf. rewrite Forall_forall in Hf.
      by apply Hf in Hd.
  - by destruct split_name.
Qed.

Lemma dataset_json_paths_match images split_name split_data :
  "/"%char ∉ split_name →
  paths_match (dataset_json images split_name split_data).
Proof.
  intros Hs e (idx & item & -> & _)%elem_of_lookup_imap.
  by apply entry_paths_match.
Qed.

Lemma dataset_json_NoDup images split_name split_data :
  NoDup (i_question_id <$> dataset_json images split_name split_data).
Proof.
  apply NoDup_alt. intros i j id. unfold dataset_json.
  rewrite !list_lookup_fmap, !list_lookup_imap.
  destruct (split_data !! i) as [x|]; [|done].
  destruct (split_data !! j) as [y|]; [|done]. simpl.
  intros [= <-] [= H]. apply app_inv_head in H.
  apply (app_inv_head (str "_")) in H. symmetry. by apply format_04d_inj.
Qed.

(** X20: the datasets [dataset_download.py] writes are the ones the batch
    runner is made for.  For a split whose name has no slash, every
    entry's image file is named after its question id (the stem of
    [image_path] is [question_id]), no id is empty, no two entries share
    an id (the index with its leading zeros can be read back), there is
    one entry per sample, in order, and every entry has a
    ["ground_truth"] with the interval and unit of the sample. *)
Theorem X20_downloaded_dataset_is_well_formed
    (images split_name : pystr) (split_data : list Sample) :
  "/"%char ∉ split_name →
  let dataset := dataset_json images split_name split_data in
  paths_match dataset
  ∧ NoDup (i_question_id <$> dataset)
  ∧ length dataset = length split_data
  ∧ (∀ idx item,
       split_data !! idx = Some item →
       ∃ e, dataset !! idx = Some e
            ∧ i_question_id e = split_name ++ str "_" ++ format_04d idx
            ∧ digits 0 (format_04d idx) = Some (N.of_nat idx)
            ∧ i_question e = s_question item
            ∧ i_ground_truth e = Some (mkGT (s_interval item) (s_unit item))).
Proof.
  intros Hs dataset. subst dataset. split_and!.
  - by apply dataset_json_paths_match.
  - apply dataset_json_NoDup.
  - apply length_imap.
  - intros idx item Hi. eexists. unfold dataset_json.
    rewrite list_lookup_imap, Hi. simpl.
    split_and!; [done|done|apply digits_format_04d|done|done].
Qed.

Lemma X20_downloaded_dataset_is_well_formed_witness :
  let dataset :=
    dataset_json (str "/home/user/data/measurebench/real_world/images")
      (str "real_world") two_samples in
  paths_match dataset
  ∧ NoDup (i_question_id <$> dataset)
  ∧ i_question_id <$> dataset = [str "real_world_0000"; str "real_world_0001"]
  ∧ i_image_path <$> dataset
    = [str "/home/user/data/measurebench/real_world/images/real_world_0000.png";
       str "/home/user/data/measurebench/real_world/images/real_world_0001.png"].
Proof.
  destruct (X20_downloaded_dataset_is_well_formed
              (str "/home/user/data/measurebench/real_world/images")
              (str "real_world") two_samples) as (Hp & Hn & _).
  - apply (bool_decide_unpack _). vm_compute. exact I.
  - split; [exact Hp|]. split; [exact Hn|]. split; vm_compute; reflexivity.
Defined.






(** A split name with a blank in it gives ids that the shell splits: the
    first child ends with a usage error and the batch stops with nothing
    queried and nothing saved. *)
Example spaced_split_name_stops_the_batch :
  run_evaluation (answering (str "Answer: 4.4 A"))
    (dataset_json (str "/data/real world/images") (str "real world")
       two_samples) fresh
  = (fresh, Stopped).
Proof. reflexivity. Qed.

(** ** What [process_single] returns, and reading a record back *)

Lemma parse_answer_exn text e :
  parse_answer (Some text) = Raise e → e = ValueError.
Proof.
  rewrite parse_answer_chosen.
  destruct (chosen_groups text) as [gs|] eqn:Hc; [|done].
  apply chosen_groups_well_matched in Hc
    as (n & u & pre & w & post & -> & _ & _ & Fn & _).
  destruct (float_raises_iff n Fn) as (_ & Hexn & _).
  unfold answer_of. change (group [n; u] 1) with n.
  destruct (float n) as [v|e'] eqn:Hf; simpl; [done|].
  intros [= <-]. by apply Hexn.
Qed.

(** X21: what [process_single] returns.  It never raises.  It returns
    [None] exactly when the image cannot be opened, the query raises, or
    the response holds a malformed number ([parse_answer] raises
    [ValueError]); when the image cannot be opened the producer is not
    queried.  A dictionary it returns has the stem of the image path as
    its id, the instrument type it was given and no ground truth; it is
    the one without raw output, value and unit exactly when the response
    was [None], and otherwise carries the response with the value and the
    unit [parse_answer] extracts from it. *)
Theorem X21_process_single_outcomes
    (env : Env) (image_path asked : pystr)
    (instrument_type : option pystr) (w : World) :
  let result :=
    (process_single env image_path asked instrument_type w).2 in
  let response :=
    vlm_query env (trace w) image_path
      (create_prompt asked instrument_type) in
  (result = None
   ↔ image_open env (trace w) image_path = false
     ∨ response = QueryRaises
     ∨ ∃ t, response = Text t ∧ parse_answer (Some t) = Raise ValueError)
  ∧ (image_open env (trace w) image_path = false →
     (process_single env image_path asked instrument_type w).1 = w)
  ∧ (∀ r, result = Some r →
       question_id r = stem image_path
       ∧ image_type r = instrument_type
       ∧ ground_truth r = None
       ∧ match prediction r with
         | None =>
             response = NoResponse ∧ question r = None
             ∧ predicted_value r = None ∧ predicted_unit r = None
         | Some t =>
             response = Text t ∧ question r = Some asked
             ∧ ∃ a, parse_answer (Some t) = Return a
                    ∧ predicted_value r = value a
                    ∧ predicted_unit r = unit_ a
         end).
Proof.
  intros result response. subst result response. unfold process_single.
  destruct (image_open env (trace w) image_path); simpl.
  - destruct (vlm_query _ _ _ _) as [t| |] eqn:Hq; simpl.
    + destruct (parse_answer (Some t)) as [a|e] eqn:Hp; simpl.
      * split_and!; [|done|].
        -- split; [done|]. intros [?|[?|(t' & [= <-] & ?)]]; congruence.
        -- intros r [= <-]. simpl. split_and!; try done. by exists a.
      * rewrite (parse_answer_exn _ _ Hp) in Hp.
        split_and!; [|done|done]. split; [|done]. intros _. right. right. eauto.
    + split_and!; [|done|].
      * split; [done|]. by intros [?|[?|(t' & ? & ?)]].
      * by intros r [= <-].
    + split_and!; [|done|done]. split; [|done]. intros _. right. by left.
  - split_and!; [|done|done]. split; [|done]. by left.
Qed.

Lemma list_find_insert_first {A} (P : A → Prop) `{!∀ x, Decision (P x)}
    (l : list A) i x y :
  list_find P l = Some (i, x) → P y → list_find P (<[i := y]> l) = Some (i, y).
Proof.
  intros (Hi & Hx & Hmin)%list_find_Some Hy. apply list_find_Some.
  split_and!; [|done|].
  - apply list_lookup_insert_eq. by eapply lookup_lt_Some.
  - intros j z Hj Hlt. rewrite list_lookup_insert_ne in Hj by lia. eauto.
Qed.

Lemma read_back_upsert_same l r :
  read_back (upsert l r) (question_id r) = Some r.
Proof.
  unfold read_back, upsert.
  destruct (list_find (λ pred, question_id pred = question_id r) l)
    as [[i old]|] eqn:Hf.
  - by rewrite (list_find_insert_first _ _ _ _ r Hf).
  - rewrite list_find_app_r by done. simpl. by rewrite decide_True.
Qed.

Lemma read_back_upsert_other l r id :
  id ≠ question_id r → read_back (upsert l r) id = read_back l id.
Proof.
  intros Hid. unfold read_back, upsert.
  destruct (list_find (λ pred, question_id pred = question_id r) l)
    as [[i old]|] eqn:Hf.
  - apply list_find_Some in Hf as (Hi & Hold & _).
    destruct (list_find (λ p, question_id p = id) l) as [[j y]|] eqn:Hg.
    + apply list_find_Some in Hg as (Hj & Hy & Hmin).
      assert (i ≠ j) by (intros ->; congruence).
      assert (list_find (λ p, question_id p = id) (<[i:=r]> l) = Some (j, y))
        as ->; [|done].
      apply list_find_Some. split_and!; [|done|].
      * by rewrite list_lookup_insert_ne.
      * intros k z Hk Hlt. destruct (decide (k = i)) as [->|Hne].
        -- rewrite list_lookup_insert_eq in Hk by (by eapply lookup_lt_Some).
           injection Hk as <-. congruence.
        -- rewrite list_lookup_insert_ne in Hk by done. eauto.
    + assert (list_find (λ p, question_id p = id) (<[i:=r]> l) = None)
        as ->; [|done].
      apply list_find_None. apply list_find_None in Hg.
      apply Forall_insert; [done|congruence].
  - destruct (list_find (λ p, question_id p = id) l) as [[j y]|] eqn:Hg.
    + by rewrite (list_find_app_l _ _ _ _ _ Hg).
    + rewrite list_find_app_r by done. simpl. by rewrite decide_False.
Qed.

(** X22: saving and reading back.  With respect to the way the batch
    runner looks a record up (the first one with the id), the update of
    the predictions file by [run_single_image.py] behaves like the update
    of a map: the id of the saved record now finds this record, every
    other id finds what it found before; this holds for any file, also
    one with repeated ids.  So after a call that saved a record, the
    batch runner reads back that record under the stem of the image
    path. *)
Theorem X22_read_back_after_save :
  (∀ all_predictions result image_id,
     read_back (upsert all_predictions result) image_id
     = if bool_decide (image_id = question_id result) then Some result
       else read_back all_predictions image_id)
  ∧ (∀ result w image_id,
       read_back (default [] (predictions_file (save result w))) image_id
       = if bool_decide (image_id = question_id result) then Some result
         else read_back (default [] (predictions_file w)) image_id)
  ∧ (∀ env dataset image_id w item result,
       find_image_in_dataset dataset image_id = Some item →
       client_init env (trace w) = true →
       (process_single env (i_image_path item) (i_question item)
          (Some (default (str "Unknown") (i_image_type item))) w).2
       = Some result →
       ∃ saved,
         read_back
           (default [] (predictions_file (main env dataset image_id w).1))
           (stem (i_image_path item)) = Some saved
         ∧ prediction saved = prediction result
         ∧ predicted_value saved = predicted_value result
         ∧ predicted_unit saved = predicted_unit result
         ∧ ground_truth saved
           = Some (default missing_ground_truth (i_ground_truth item))).
Proof.
  assert (∀ all_predictions result image_id,
            read_back (upsert all_predictions result) image_id
            = if bool_decide (image_id = question_id result) then Some result
              else read_back all_predictions image_id) as Hup.
  { intros l r id. case_bool_decide as Hid.
    - subst id. apply read_back_upsert_same.
    - by apply read_back_upsert_other. }
  assert (∀ result w image_id,
            read_back (default [] (predictions_file (save result w))) image_id
            = if bool_decide (image_id = question_id result) then Some result
              else read_back (default [] (predictions_file w)) image_id)
    as Hsave.
  { intros r w id. unfold save.
    destruct (predictions_file w) as [l|]; simpl; [apply Hup|].
    apply (Hup [] r id). }
  split_and!; [done|done|].
  intros env dataset image_id w item result Hf Hi Hp. unfold main.
  rewrite Hf, Hi.
  pose proof (process_single_world env (i_image_path item) (i_question item)
                (Some (default (str "Unknown") (i_image_type item))) w)
    as [Hn|(res & Hw & Hid)].
  { rewrite Hn in Hp. done. }
  rewrite Hw in Hp |- *. simpl in Hp. subst res.
  cbv beta iota zeta delta [fst snd]. rewrite Hsave.
  cbn [question_id]. rewrite (Hid result eq_refl), bool_decide_true by done.
  eexists. by split_and!.
Qed.
